(** * Block-sparse dispatch layer (csrc/backend.cc): a shallow embedding

    The translation unit validates torch tensors, builds sputnik
    descriptors, normalises the shape of transposed block-sparse operands,
    synthesises the transpose meta-data and dispatches the five products
    [dsd], [dds], [sdd], [ssd] and [dss] to the sputnik kernels.

    Modelling conventions.
    - A [torch::Tensor] is a handle: meta-data (device, dtype, sizes,
      strides) plus the identity of the buffer it views.  Buffer contents
      live in a [Store], so two arguments that are the same tensor share
      their contents.  Element [i] of a vector tensor is element [i] of
      its buffer; this is how the file itself reads [data_ptr<int>()[i]]
      and how it hands [data_ptr()] to the kernels.
    - C [int] values are integers of [Z] and signed arithmetic is the
      arithmetic of [Z] (its overflow is undefined in C++); the narrowing
      conversions the file performs ([int64_t] to [int], a tensor cast to
      [kInt32], [size_t]) are written out with [to_int] and [to_size_t].
    - [TORCH_CHECK] failures and failing CUDA calls abort the call; they
      are the two constructors of [Error].
    - The sputnik entry points are not part of the translation unit; they
      are section variables, except [RowIndices], which is modelled from
      the description of the transpose synthesiser. *)

From Stdlib Require Import ZArith List Lia Bool QArith Permutation Sorted.
From stdpp Require Import base tactics option list sorting.

Open Scope Z_scope.

(** ** Errors *)

Inductive Error : Type :=
| InvalidArgument   (* a TORCH_CHECK failed *)
| KernelFailure.    (* CALL_CUDA saw a status other than cudaSuccess *)

Inductive result (A : Type) : Type :=
| Ok (a : A)
| Err (e : Error).
Arguments Ok {A} a.
Arguments Err {A} e.

Definition rbind {A B} (r : result A) (k : A -> result B) : result B :=
  match r with
  | Ok a => k a
  | Err e => Err e
  end.

Declare Scope result_scope.
Delimit Scope result_scope with res.
Notation "x <-r c ; k" := (rbind c (fun x => k))
  (at level 100, c at next level, right associativity) : result_scope.
Notation "c ;;r k" := (rbind c (fun _ => k))
  (at level 100, right associativity) : result_scope.

Definition TORCH_CHECK (cond : bool) : result unit :=
  if cond then Ok tt else Err InvalidArgument.

(** ** Machine integers *)

(** Conversion to a 32-bit [int]: reduction into [-2^31, 2^31). *)
Definition to_int (z : Z) : Z := (z + 2 ^ 31) mod 2 ^ 32 - 2 ^ 31.

Definition INT_MAX : Z := 2 ^ 31 - 1.

(** Conversion to [size_t] and back to the [int64_t] of a tensor extent. *)
Definition to_size_t (z : Z) : Z := z mod 2 ^ 64.
Definition to_int64 (z : Z) : Z := (z + 2 ^ 63) mod 2 ^ 64 - 2 ^ 63.

Definition in_int (z : Z) : Prop := - 2 ^ 31 <= z <= INT_MAX.

(** ** Tensors *)

Inductive ScalarType : Type := Half | Int | Short | Long | Float | Char.

Definition ScalarType_eqb (a b : ScalarType) : bool :=
  match a, b with
  | Half, Half | Int, Int | Short, Short
  | Long, Long | Float, Float | Char, Char => true
  | _, _ => false
  end.

Record Tensor : Type := mkTensor {
  storage : nat;             (* identity of the viewed buffer *)
  is_cuda : bool;
  scalar_type : ScalarType;
  sizes : list Z;
  strides : list Z
}.

(** Contents of every buffer. *)
Definition Store : Type := nat -> list Z.

Definition numel (x : Tensor) : Z := fold_right Z.mul 1 (sizes x).
Definition ndimension (x : Tensor) : Z := Z.of_nat (length (sizes x)).
Definition size (x : Tensor) (d : nat) : Z := nth d (sizes x) 0.
Definition stride (x : Tensor) (d : nat) : Z := nth d (strides x) 0.

(** [x.is_contiguous()]: row-major strides, dimensions of extent one are
    skipped, tensors without elements are contiguous. *)
Fixpoint contiguous_from (z : Z) (rev_dims : list (Z * Z)) : bool :=
  match rev_dims with
  | [] => true
  | (sz, st) :: rest =>
      if sz =? 1 then contiguous_from z rest
      else if st =? z then contiguous_from (z * sz) rest
      else false
  end.

Definition is_contiguous (x : Tensor) : bool :=
  if numel x =? 0 then true
  else contiguous_from 1 (rev (combine (sizes x) (strides x))).

(** ** Validation helpers *)

Definition CHECK_CUDA (x : Tensor) := TORCH_CHECK (is_cuda x).
Definition CHECK_CPU (x : Tensor) := TORCH_CHECK (negb (is_cuda x)).
Definition CHECK_HALF (x : Tensor) := TORCH_CHECK (ScalarType_eqb (scalar_type x) Half).
Definition CHECK_INT (x : Tensor) := TORCH_CHECK (ScalarType_eqb (scalar_type x) Int).
Definition CHECK_SHORT (x : Tensor) := TORCH_CHECK (ScalarType_eqb (scalar_type x) Short).
Definition CHECK_SCALAR (x : Tensor) := TORCH_CHECK (numel x =? 1).
Definition CHECK_VECTOR (x : Tensor) := TORCH_CHECK (ndimension x =? 1).
Definition CHECK_MATRIX (x : Tensor) := TORCH_CHECK (ndimension x =? 2).
Definition CHECK_3D (x : Tensor) := TORCH_CHECK (ndimension x =? 3).
Definition CHECK_SHAPE (x : Tensor) := TORCH_CHECK (numel x =? 2).

Local Open Scope result_scope.

Definition validate_shape (shape : Tensor) : result unit :=
  CHECK_CPU shape ;;r
  CHECK_SHAPE shape ;;r
  CHECK_INT shape.

Definition validate_transpose (transpose : Tensor) : result unit :=
  CHECK_CPU transpose ;;r
  CHECK_SCALAR transpose ;;r
  CHECK_INT transpose.

Definition validate_sparse (shape data offsets indices : Tensor) : result unit :=
  validate_shape shape ;;r
  CHECK_CUDA data ;;r
  CHECK_3D data ;;r
  CHECK_HALF data ;;r
  CHECK_CUDA offsets ;;r
  CHECK_VECTOR offsets ;;r
  CHECK_INT offsets ;;r
  CHECK_CUDA indices ;;r
  CHECK_VECTOR indices ;;r
  CHECK_SHORT indices ;;r
  (* Blocking must be square. *)
  TORCH_CHECK (size data 1 =? size data 2) ;;r
  TORCH_CHECK (size data 1 =? 128).

Definition is_transposed (x : Tensor) : bool :=
  (stride x 0 =? 1) && (stride x 1 =? size x 0).

Definition validate_dense (x : Tensor) : result unit :=
  CHECK_CUDA x ;;r
  CHECK_MATRIX x ;;r
  CHECK_HALF x ;;r
  TORCH_CHECK (is_contiguous x || is_transposed x).

(** ** Conversion helpers *)

(** [sputnik::block::Matrix]: a dense operand. *)
Record Matrix : Type := mkMatrix {
  m_rows : Z;
  m_cols : Z;
  m_values : nat
}.

(** [sputnik::block::BlockMatrix]: a block-sparse operand.  The three
    transpose fields and the bitmask are null until a dispatcher attaches
    a buffer; an attached buffer is recorded by its contents (the bitmask,
    which is left uninitialised, by its length in bytes). *)
Record BlockMatrix : Type := mkBlockMatrix {
  rows : Z;
  cols : Z;
  block_size : Z;
  nonzeros : Z;
  values : nat;
  offsets : nat;
  indices : nat;
  offsets_t : option (list Z);
  indices_t : option (list Z);
  block_offsets : option (list Z);
  bitmask : option Z
}.

Definition as_matrix (x : Tensor) : result Matrix :=
  validate_dense x ;;r
  let rows := to_int (if is_transposed x then size x 1 else size x 0) in
  let cols := to_int (if is_transposed x then size x 0 else size x 1) in
  Ok (mkMatrix rows cols (storage x)).

(** [m.accessor<int, 1>()[idx]]: the accessor insists on a one-dimensional
    [int] tensor; the read itself is unchecked (zero stands for whatever an
    out-of-range read returns). *)
Definition access_metadata (st : Store) (m : Tensor) (idx : nat) : result Z :=
  TORCH_CHECK (ScalarType_eqb (scalar_type m) Int && (ndimension m =? 1)) ;;r
  Ok (nth idx (st (storage m)) 0).

Definition as_block_matrix (st : Store) (shape data offsets indices : Tensor)
  : result BlockMatrix :=
  validate_sparse shape data offsets indices ;;r
  r <-r access_metadata st shape 0 ;
  c <-r access_metadata st shape 1 ;
  Ok (mkBlockMatrix r c (to_int (size data 1)) (to_int (numel indices))
        (storage data) (storage offsets) (storage indices)
        None None None None).

(** ** Tensor operations used by the transpose helper

    The helper is written with torch tensor operations; each one used is
    given here on the contents of the tensors. *)

(** [a + b / s] on two integer vectors of equal length: the quotient of an
    integer tensor by a scalar is true division, so the sum is fractional.
    The values met here are small dyadic rationals, which the
    floating-point tensor holds exactly; they are kept as rationals. *)
Definition add_div (a b : list Z) (s : Z) : list Q :=
  zip_with (fun x y => (inject_Z x + inject_Z y / inject_Z s)%Q) a b.

Definition key_le (p q : Q * nat) : Prop := (fst p <= fst q)%Q.

#[global] Instance key_le_dec : RelDecision key_le :=
  fun p q => Z_le_dec (Qnum (fst p) * QDen (fst q)) (Qnum (fst q) * QDen (fst p)).

(** [x.argsort()]: positions of the elements in ascending order of value.
    torch leaves the order of equal elements open; the merge sort below is
    one admissible choice. *)
Definition argsort (x : list Q) : list nat :=
  map snd (merge_sort key_le (combine x (seq 0 (length x)))).

(** [src.gather(0, index)]. *)
Definition gather (src : list Z) (index : list nat) : list Z :=
  map (fun i => nth i src 0) index.

(** [torch::linspace(start, end, steps)] with an integer dtype, for end
    points whose difference is a multiple of [steps - 1]. *)
Definition linspace (start end_ steps : Z) : list Z :=
  map (fun i => if steps =? 1 then start
                else start + Z.of_nat i * ((end_ - start) / (steps - 1)))
      (seq 0 (Z.to_nat steps)).

(** The bin of [histc(bins, min, max)] that counts [v]: [bins] intervals of
    equal width on [min, max], the last one closed; values outside the
    range are not counted. *)
Definition histc_bin (bins min max v : Z) : option Z :=
  if (v <? min) || (max <? v) then None
  else
    let b := (v - min) * bins / (max - min) in
    Some (if b =? bins then bins - 1 else b).

Definition in_bin (bins min max j : Z) (v : Z) : bool :=
  match histc_bin bins min max v with
  | Some b => b =? j
  | None => false
  end.

Definition count_bin (bins min max : Z) (input : list Z) (j : Z) : Z :=
  Z.of_nat (length (List.filter (in_bin bins min max j) input)).

(** [input.histc(bins, min, max)].  torch refuses [bins <= 0]; for
    [min = max] it would take the range from the data, which cannot occur
    once [bins = max / 128 > 0] with [min = 0], so that case is left as a
    refusal too. *)
Definition histc (input : list Z) (bins min max : Z) : result (list Z) :=
  TORCH_CHECK (0 <? bins) ;;r
  TORCH_CHECK (min <? max) ;;r
  Ok (map (fun j => count_bin bins min max input (Z.of_nat j))
          (seq 0 (Z.to_nat bins))).

(** [x.cumsum(0)]; integer inputs accumulate in 64 bits. *)
Fixpoint cumsum_from (acc : Z) (x : list Z) : list Z :=
  match x with
  | [] => []
  | v :: rest => (acc + v) :: cumsum_from (acc + v) rest
  end.

Definition cumsum (x : list Z) : list Z := cumsum_from 0 x.

(** ** Row indices helper *)

(** The block row of block [k]: the first row [i] whose segment ends
    after [k]; [ends] are the segment ends [offsets[i+1]]. *)
Fixpoint row_lookup (ends : list Z) (k : Z) (i : Z) : Z :=
  match ends with
  | [] => i
  | e :: rest => if k <? e then i else row_lookup rest k (i + 1)
  end.

(** Modelled from the spec: [sputnik::block::RowIndices] is a kernel of
    the sputnik library and is not in the translation unit.  The
    synthesiser's description says it computes, for every stored block, its
    block-row index by replaying the offsets array against the flat block
    sequence (the inverse of the row-pointer mapping).  The output has one
    entry per stored block. *)
Definition RowIndices (st : Store) (x : BlockMatrix) : list Z :=
  let block_rows := Z.to_nat (rows x / block_size x) in
  let ends := take block_rows (tail (st (offsets x))) in
  map (fun k => row_lookup ends (Z.of_nat k) 0) (seq 0 (Z.to_nat (nonzeros x))).

(** The output tensor has [indices.size(0)] entries, the number of stored
    blocks of the descriptor; the launch is taken to report success. *)
Definition row_indices (st : Store) (shape data offsets indices : Tensor)
  : result (list Z) :=
  x <-r as_block_matrix st shape data offsets indices ;
  Ok (RowIndices st x).

(** ** Transpose helper *)

(** [sizeof(sputnik::half)]. *)
Definition sizeof_half : Z := 2.

(** Returns [{indices_t, offsets_t, block_offsets_t}].  [Z.quot] is C's
    integer division; a zero divisor is refused by the next check. *)
Definition transpose (st : Store) (shape data offsets indices : Tensor)
  : result (list Z * list Z * list Z) :=
  let kNonzeros := to_int (numel indices) in
  let kBlockSize := to_int (size data 1) in
  kCols <-r access_metadata st shape 1 ;
  let kBlockCols := Z.quot kCols kBlockSize in
  TORCH_CHECK (kBlockSize =? 128) ;;r
  shape0 <-r access_metadata st shape 0 ;
  TORCH_CHECK (shape0 <=? 128 * 128) ;;r
  row_idxs <-r row_indices st shape data offsets indices ;
  let sort_indices := add_div (st (storage indices)) row_idxs kBlockSize in
  let gather_indices := argsort sort_indices in
  let indices_t := gather row_idxs gather_indices in
  let kValuesPerBlock := kBlockSize * kBlockSize in
  let kBytesPerBlock := kValuesPerBlock * sizeof_half in
  let block_offsets :=
    linspace 0 ((kNonzeros - 1) * kBytesPerBlock) kNonzeros in
  let block_offsets_t := gather block_offsets gather_indices in
  nnz_per_column <-r histc (st (storage indices)) kBlockCols 0 kCols ;
  let offsets_t :=
    map to_int (0 :: map (fun s => s * kValuesPerBlock) (cumsum nnz_per_column)) in
  Ok (indices_t, offsets_t, block_offsets_t).

(** ** The dispatchers' state

    A call can write the caller's buffers (the shape tensor is rewritten in
    place), obtains fresh buffers from the helpers and launches a kernel.
    The world is the store together with the chronological record of the
    calls into sputnik ([ValidMatmul], [Matmul], [MatmulEx]) and of the
    buffers handed to the descriptors; temporaries that die inside a
    helper are not recorded, nor is what a kernel does to the output
    buffer. *)

Inductive Buffer : Type :=
| BufIndicesT (contents : list Z)
| BufOffsetsT (contents : list Z)
| BufBlockOffsets (contents : list Z)
| BufBitmask (bytes : Z).

Inductive Operand : Type :=
| Dense (m : Matrix)
| Sparse (m : BlockMatrix).

(** [Matmul] is the plain entry point, [MatmulEx] the extended one. *)
Inductive Entry : Type := Plain | Extended.

Inductive Event : Type :=
| Validate (lhs : Operand) (transpose_lhs : bool)
           (rhs : Operand) (transpose_rhs : bool) (out : Operand) (ok : bool)
| Alloc (b : Buffer)
| Kernel (e : Entry) (lhs : Operand) (transpose_lhs : bool)
         (rhs : Operand) (transpose_rhs : bool) (out : Operand).

Record World : Type := mkWorld {
  store : Store;
  trace : list Event
}.

Definition M (A : Type) : Type := World -> World * result A.

Definition ret {A} (a : A) : M A := fun w => (w, Ok a).

Definition bind {A B} (m : M A) (k : A -> M B) : M B :=
  fun w =>
    match m w with
    | (w', Ok a) => k a w'
    | (w', Err e) => (w', Err e)
    end.

Declare Scope m_scope.
Delimit Scope m_scope with M.
Notation "x <- c ;; k" := (bind c (fun x => k))
  (at level 100, c at next level, right associativity) : m_scope.
Notation "c ;; k" := (bind c (fun _ => k))
  (at level 100, right associativity) : m_scope.

(** A check or a read that only looks at the store. *)
Definition look {A} (f : Store -> result A) : M A :=
  fun w => (w, f (store w)).

Definition check {A} (r : result A) : M A := look (fun _ => r).

Definition emit (e : Event) : M unit :=
  fun w => (mkWorld (store w) (trace w ++ [e]), Ok tt).

(** [t.data_ptr<int>()[i] = v].  [data_ptr<int>] insists on the dtype; the
    store itself is unchecked in C++, and every call site has validated
    that the tensor has two elements. *)
Definition poke (t : Tensor) (i : nat) (v : Z) : M unit :=
  fun w =>
    if ScalarType_eqb (scalar_type t) Int then
      (mkWorld (fun h => if Nat.eqb h (storage t)
                         then <[i := v]> (store w h) else store w h)
               (trace w),
       Ok tt)
    else (w, Err InvalidArgument).

Local Open Scope m_scope.

Definition standardize_shape (shape : Tensor) (transpose : bool) : M unit :=
  rows <- look (fun st => if transpose then access_metadata st shape 1
                          else access_metadata st shape 0) ;;
  cols <- look (fun st => if transpose then access_metadata st shape 0
                          else access_metadata st shape 1) ;;
  poke shape 0 rows ;;
  poke shape 1 cols.

(** ** Bitmask helper *)

Definition sizeof_uint64 : Z := 8.

Definition size_in_bytes (rows columns : Z) : Z :=
  let kAlignment := 64 in
  let column_entries := Z.quot (columns + kAlignment - 1) kAlignment in
  to_size_t (column_entries * rows * sizeof_uint64).

(** Returns the length in bytes of the [kInt8] tensor it allocates;
    [torch::empty] refuses an extent that is negative as [int64_t]. *)
Definition allocate_bitmask (m : BlockMatrix) (trans : bool) : result Z :=
  let block_size := block_size m in
  let block_rows := Z.quot (if trans then cols m else rows m) block_size in
  let block_cols := Z.quot (if trans then rows m else cols m) block_size in
  let bytes := size_in_bytes block_rows block_cols in
  TORCH_CHECK (0 <=? to_int64 bytes) ;;r
  Ok (to_int64 bytes).

(** ** Custom operations *)

Section Dispatch.

(** The sputnik entry points.  [ValidMatmul] is the compatibility
    predicate; [Matmul] and [MatmulEx] return whether the launch reported
    [cudaSuccess]. *)
Variable ValidMatmul : Operand -> bool -> Operand -> bool -> Operand -> bool.
Variable Matmul : Operand -> bool -> Operand -> bool -> Operand -> bool.
Variable MatmulEx : Operand -> bool -> Operand -> bool -> Operand -> bool.

Definition CALL_CUDA (status : bool) : M unit :=
  check (if status then Ok tt else Err KernelFailure).

Definition launch (e : Entry) (lhs : Operand) (transpose_lhs : bool)
           (rhs : Operand) (transpose_rhs : bool) (out : Operand) : M unit :=
  emit (Kernel e lhs transpose_lhs rhs transpose_rhs out) ;;
  CALL_CUDA (match e with
             | Plain => Matmul lhs transpose_lhs rhs transpose_rhs out
             | Extended => MatmulEx lhs transpose_lhs rhs transpose_rhs out
             end).

(** [TORCH_CHECK(sputnik::block::ValidMatmul(...))]. *)
Definition valid_matmul (lhs : Operand) (transpose_lhs : bool)
           (rhs : Operand) (transpose_rhs : bool) (out : Operand) : M unit :=
  let ok := ValidMatmul lhs transpose_lhs rhs transpose_rhs out in
  emit (Validate lhs transpose_lhs rhs transpose_rhs out ok) ;;
  check (TORCH_CHECK ok).

(** A dispatcher's call of [transpose]: the three tensors it returns are
    recorded in the order of the returned vector. *)
Definition call_transpose (shape data offsets indices : Tensor)
  : M (list Z * list Z * list Z) :=
  meta <- look (fun st => transpose st shape data offsets indices) ;;
  emit (Alloc (BufIndicesT (meta.1.1))) ;;
  emit (Alloc (BufOffsetsT (meta.1.2))) ;;
  emit (Alloc (BufBlockOffsets (meta.2))) ;;
  ret meta.

(** Setting the three data pointers of a descriptor. *)
Definition attach (m : BlockMatrix) (meta : list Z * list Z * list Z)
  : BlockMatrix :=
  mkBlockMatrix (rows m) (cols m) (block_size m) (nonzeros m)
    (values m) (offsets m) (indices m)
    (Some (meta.1.2)) (Some (meta.1.1)) (Some (meta.2)) (bitmask m).

Definition call_allocate_bitmask (m : BlockMatrix) (trans : bool) : M Z :=
  bytes <- check (allocate_bitmask m trans) ;;
  emit (Alloc (BufBitmask bytes)) ;;
  ret bytes.

Definition set_bitmask (m : BlockMatrix) (bytes : Z) : BlockMatrix :=
  mkBlockMatrix (rows m) (cols m) (block_size m) (nonzeros m)
    (values m) (offsets m) (indices m)
    (offsets_t m) (indices_t m) (block_offsets m) (Some bytes).

(** [bool b = access_metadata(t)]: any non-zero value is true. *)
Definition read_flag (t : Tensor) : M bool :=
  v <- look (fun st => access_metadata st t 0) ;;
  ret (negb (v =? 0)).

Definition dsd (shape data offsets indices transpose_a rhs_t out_t : Tensor)
  : M unit :=
  (* Convert the arguments to sputnik types. *)
  check (validate_transpose transpose_a) ;;
  transpose_lhs <- read_flag transpose_a ;;
  check (validate_shape shape) ;;
  standardize_shape shape transpose_lhs ;;
  lhs <- look (fun st => as_block_matrix st shape data offsets indices) ;;
  rhs <- check (as_matrix rhs_t) ;;
  let transpose_rhs := is_transposed rhs_t in
  out <- check (as_matrix out_t) ;;
  (* Validate the problem configuration. *)
  valid_matmul (Sparse lhs) transpose_lhs (Dense rhs) transpose_rhs (Dense out) ;;
  if transpose_lhs then
    (* Populate the transpose meta-data and set the data pointers. *)
    (meta <- call_transpose shape data offsets indices ;;
     launch Extended (Sparse (attach lhs meta)) transpose_lhs
            (Dense rhs) transpose_rhs (Dense out))
  else
    launch Plain (Sparse lhs) transpose_lhs
           (Dense rhs) transpose_rhs (Dense out).

Definition dds (lhs_t shape data offsets indices transpose_b out_t : Tensor)
  : M unit :=
  lhs <- check (as_matrix lhs_t) ;;
  let transpose_lhs := is_transposed lhs_t in
  check (validate_transpose transpose_b) ;;
  transpose_rhs <- read_flag transpose_b ;;
  check (validate_shape shape) ;;
  standardize_shape shape transpose_rhs ;;
  rhs <- look (fun st => as_block_matrix st shape data offsets indices) ;;
  out <- check (as_matrix out_t) ;;
  valid_matmul (Dense lhs) transpose_lhs (Sparse rhs) transpose_rhs (Dense out) ;;
  if negb transpose_rhs then
    (meta <- call_transpose shape data offsets indices ;;
     launch Extended (Dense lhs) transpose_lhs
            (Sparse (attach rhs meta)) transpose_rhs (Dense out))
  else
    launch Plain (Dense lhs) transpose_lhs
           (Sparse rhs) transpose_rhs (Dense out).

Definition sdd (lhs_t rhs_t shape data offsets indices : Tensor) : M unit :=
  lhs <- check (as_matrix lhs_t) ;;
  let transpose_lhs := is_transposed lhs_t in
  rhs <- check (as_matrix rhs_t) ;;
  let transpose_rhs := is_transposed rhs_t in
  out <- look (fun st => as_block_matrix st shape data offsets indices) ;;
  valid_matmul (Dense lhs) transpose_lhs (Dense rhs) transpose_rhs (Sparse out) ;;
  launch Plain (Dense lhs) transpose_lhs
         (Dense rhs) transpose_rhs (Sparse out).

Definition ssd (lhs_shape lhs_data lhs_offsets lhs_indices transpose_a rhs_t
                out_shape out_data out_offsets out_indices : Tensor) : M unit :=
  check (validate_transpose transpose_a) ;;
  transpose_lhs <- read_flag transpose_a ;;
  check (validate_shape lhs_shape) ;;
  standardize_shape lhs_shape transpose_lhs ;;
  lhs <- look (fun st =>
                 as_block_matrix st lhs_shape lhs_data lhs_offsets lhs_indices) ;;
  rhs <- check (as_matrix rhs_t) ;;
  let transpose_rhs := is_transposed rhs_t in
  out <- look (fun st =>
                 as_block_matrix st out_shape out_data out_offsets out_indices) ;;
  valid_matmul (Sparse lhs) transpose_lhs (Dense rhs) transpose_rhs (Sparse out) ;;
  if transpose_lhs then
    (meta <- call_transpose lhs_shape lhs_data lhs_offsets lhs_indices ;;
     launch Extended (Sparse (attach lhs meta)) transpose_lhs
            (Dense rhs) transpose_rhs (Sparse out))
  else
    launch Plain (Sparse lhs) transpose_lhs
           (Dense rhs) transpose_rhs (Sparse out).

Definition dss (lhs_shape lhs_data lhs_offsets lhs_indices transpose_a
                rhs_shape rhs_data rhs_offsets rhs_indices transpose_b
                out_t : Tensor) : M unit :=
  check (validate_transpose transpose_a) ;;
  transpose_lhs <- read_flag transpose_a ;;
  check (validate_shape lhs_shape) ;;
  standardize_shape lhs_shape transpose_lhs ;;
  lhs <- look (fun st =>
                 as_block_matrix st lhs_shape lhs_data lhs_offsets lhs_indices) ;;
  check (validate_transpose transpose_b) ;;
  transpose_rhs <- read_flag transpose_b ;;
  check (validate_shape rhs_shape) ;;
  standardize_shape rhs_shape transpose_rhs ;;
  rhs <- look (fun st =>
                 as_block_matrix st rhs_shape rhs_data rhs_offsets rhs_indices) ;;
  out <- check (as_matrix out_t) ;;
  valid_matmul (Sparse lhs) transpose_lhs (Sparse rhs) transpose_rhs (Dense out) ;;
  (* Allocate workspace for the bitmasks. *)
  lhs_bitmask <- call_allocate_bitmask lhs transpose_lhs ;;
  let lhs := set_bitmask lhs lhs_bitmask in
  rhs_bitmask <- call_allocate_bitmask rhs transpose_rhs ;;
  let rhs := set_bitmask rhs rhs_bitmask in
  (* Handle exposed transposes. *)
  lhs <- (if transpose_lhs then
            meta <- call_transpose lhs_shape lhs_data lhs_offsets lhs_indices ;;
            ret (attach lhs meta)
          else ret lhs) ;;
  rhs <- (if negb transpose_rhs then
            meta <- call_transpose rhs_shape rhs_data rhs_offsets rhs_indices ;;
            ret (attach rhs meta)
          else ret rhs) ;;
  launch Extended (Sparse lhs) transpose_lhs
         (Sparse rhs) transpose_rhs (Dense out).

End Dispatch.

(** * Vocabulary of the statements *)

(** ** The invariants of the block-sparse format

    They are stated on the contents of the shape, offsets and indices
    buffers of a quadruple. *)

Definition shape_rows (st : Store) (shape : Tensor) : Z := nth 0 (st (storage shape)) 0.
Definition shape_cols (st : Store) (shape : Tensor) : Z := nth 1 (st (storage shape)) 0.

Definition inv_multiples (st : Store) (shape : Tensor) : Prop :=
  shape_rows st shape mod 128 = 0 /\ shape_cols st shape mod 128 = 0.

Definition inv_offsets_length (st : Store) (shape offsets : Tensor) : Prop :=
  Z.of_nat (length (st (storage offsets))) = shape_rows st shape / 128 + 1.

Definition inv_offsets_sorted (st : Store) (offsets : Tensor) : Prop :=
  Sorted Z.le (st (storage offsets)).

Definition inv_offsets_first (st : Store) (offsets : Tensor) : Prop :=
  nth 0 (st (storage offsets)) 0 = 0.

Definition inv_offsets_last (st : Store) (offsets indices : Tensor) : Prop :=
  List.last (st (storage offsets)) 0 = Z.of_nat (length (st (storage indices))).

Definition inv_indices_range (st : Store) (shape indices : Tensor) : Prop :=
  Forall (fun c => 0 <= c < shape_cols st shape / 128) (st (storage indices)).

(** The rank, device and dtype checks of [validate_sparse]. *)
Definition sparse_checks (shape data offsets indices : Tensor) : Prop :=
  (is_cuda shape = false /\ numel shape = 2 /\ scalar_type shape = Int) /\
  (is_cuda data = true /\ ndimension data = 3 /\ scalar_type data = Half) /\
  (is_cuda offsets = true /\ ndimension offsets = 1 /\ scalar_type offsets = Int) /\
  (is_cuda indices = true /\ ndimension indices = 1 /\ scalar_type indices = Short).

(** ** Reading a compressed block representation

    A pointer list cuts the minor-index list into one segment per major
    index: segment [i] runs from pointer [i] to pointer [i + 1], both
    divided by the [unit] in which the pointers count ([1] for the native
    offsets, which count blocks; 128 * 128 for the offsets of a transpose
    view, which count values). *)

Definition slice {A} (xs : list A) (a b : Z) : list A :=
  take (Z.to_nat (b - a)) (drop (Z.to_nat a) xs).

Fixpoint read_compressed (unit prev : Z) (ptrs : list Z) (major : Z)
         (minor : list Z) : list (Z * Z) :=
  match ptrs with
  | [] => []
  | p :: rest =>
      map (fun x => (major, x)) (slice minor (prev / unit) (p / unit)) ++
      read_compressed unit p rest (major + 1) minor
  end.

(** The blocks of the native storage, as (block row, stored index). *)
Definition blocks_by_row (offsets indices : list Z) : list (Z * Z) :=
  match offsets with
  | [] => []
  | o :: ptrs => read_compressed 1 o ptrs 0 indices
  end.

(** The blocks of a transpose view read as a compressed block-column
    representation, as (block row, block column). *)
Definition blocks_by_column (offsets_t indices_t : list Z) : list (Z * Z) :=
  match offsets_t with
  | [] => []
  | o :: ptrs =>
      map (fun p => (p.2, p.1)) (read_compressed (128 * 128) o ptrs 0 indices_t)
  end.

(** Lexicographic order on (column, row). *)
Definition lex_le (a b : Z * Z) : Prop :=
  a.1 < b.1 \/ (a.1 = b.1 /\ a.2 <= b.2).

(** ** Valid descriptors

    A quadruple that passes validation, whose shape tensor is a vector of
    two entries and whose buffers satisfy the invariants of the format on
    rows, columns and offsets, within the synthesizer's limit of 128 * 128
    rows.  The range of the stored indices is stated separately. *)
Record csr_descriptor (st : Store) (shape data offsets indices : Tensor)
  : Prop := {
  csr_checks : validate_sparse shape data offsets indices = Ok tt;
  csr_shape_vector : sizes shape = [2];
  csr_shape_entries : length (st (storage shape)) = 2%nat;
  csr_rows_range : 0 <= shape_rows st shape <= 128 * 128;
  csr_cols_range : 0 <= shape_cols st shape <= INT_MAX;
  csr_multiples : inv_multiples st shape;
  csr_offsets_length : inv_offsets_length st shape offsets;
  csr_offsets_sorted : inv_offsets_sorted st offsets;
  csr_offsets_first : inv_offsets_first st offsets;
  csr_offsets_last : inv_offsets_last st offsets indices;
  csr_numel : numel indices = Z.of_nat (length (st (storage indices)));
  csr_numel_range : numel indices <= INT_MAX
}.

(** The descriptor that [row_indices] builds from a valid quadruple, the
    block rows it obtains and the permutation the helper sorts out. *)
Definition native_descriptor (st : Store) (shape data offsets indices : Tensor)
  : BlockMatrix :=
  mkBlockMatrix (shape_rows st shape) (shape_cols st shape) 128
    (Z.of_nat (length (st (storage indices))))
    (storage data) (storage offsets) (storage indices) None None None None.

Definition row_idxs (st : Store) (shape data offsets indices : Tensor) : list Z :=
  RowIndices st (native_descriptor st shape data offsets indices).

Definition gather_indices (st : Store) (shape data offsets indices : Tensor)
  : list nat :=
  argsort (add_div (st (storage indices))
                   (row_idxs st shape data offsets indices) 128).

(** The offsets the helper returns for [ncols] columns and the stored
    indices [idx]. *)
Definition view_offsets (ncols : Z) (idx : list Z) : list Z :=
  map to_int
      (0 :: map (fun s => s * (128 * 128))
                (cumsum (map (fun j => count_bin (Z.quot ncols 128) 0 ncols idx
                                                 (Z.of_nat j))
                             (seq 0 (Z.to_nat (Z.quot ncols 128)))))).

(** The number of (row, column) pairs of a list in column [j]. *)
Definition col_count (L : list (Z * Z)) (j : Z) : Z :=
  Z.of_nat (length (List.filter (fun x : Z * Z => x.2 =? j) L)).

(** Order of (row, column) pairs by column alone. *)
Definition by_col (x y : Z * Z) : Prop := x.2 <= y.2.



(** ** Vocabulary for the dispatchers *)

Definition not_validate (e : Event) : Prop :=
  match e with
  | Validate _ _ _ _ _ _ => False
  | _ => True
  end.

(** A computation records only events that satisfy [P]. *)
Definition emits (P : Event -> Prop) {A} (m : M A) : Prop :=
  forall w, exists evs, trace (m w).1 = trace w ++ evs /\ Forall P evs.

(** A computation leaves every buffer outside [S] as it was. *)
Definition writes_only (S : nat -> Prop) {A} (m : M A) : Prop :=
  forall w h, ~ S h -> store (m w).1 h = store w h.

(** Starting from the record [t0], either nothing was recorded or the
    first record is the call of [ValidMatmul]; no second validation
    follows, and after a refusal nothing follows and the call has failed
    with [InvalidArgument]. *)
Definition validation_first
           (V : Operand -> bool -> Operand -> bool -> Operand -> bool)
           (t0 : list Event) (out : World * result unit) : Prop :=
  trace out.1 = t0 \/
  exists l tl r tr o rest,
    trace out.1 = t0 ++ Validate l tl r tr o (V l tl r tr o) :: rest /\
    Forall not_validate rest /\
    (V l tl r tr o = false -> rest = [] /\ out.2 = Err InvalidArgument).

(** The three buffers of a transpose view, in the order in which
    [transpose] returns them. *)
Definition view_allocs (meta : list Z * list Z * list Z) : list Event :=
  [Alloc (BufIndicesT meta.1.1); Alloc (BufOffsetsT meta.1.2);
   Alloc (BufBlockOffsets meta.2)].

(** A descriptor fresh from [as_block_matrix]: nothing attached. *)
Definition plain_descriptor (m : BlockMatrix) : Prop :=
  offsets_t m = None /\ indices_t m = None /\ block_offsets m = None /\
  bitmask m = None.

(** The buffers recorded for an operand that may or may not have needed a
    transpose view, and the descriptor that reaches the kernel. *)
Definition opt_allocs (meta : option (list Z * list Z * list Z)) : list Event :=
  match meta with
  | Some m => view_allocs m
  | None => []
  end.

Definition opt_attach (d : BlockMatrix) (meta : option (list Z * list Z * list Z))
  : BlockMatrix :=
  match meta with
  | Some m => attach d m
  | None => d
  end.

(** [meta] is the view of the quadruple when [needed] holds, and absent
    otherwise. *)
Definition view_iff (needed : bool) (st : Store)
           (shape data offsets indices : Tensor)
           (meta : option (list Z * list Z * list Z)) : Prop :=
  if needed
  then exists m, meta = Some m /\ transpose st shape data offsets indices = Ok m
  else meta = None.

(** What a completed call has recorded, operation by operation.  [w] is
    the world before the call and [w'] the world after it. *)

(** [dsd]: the flag read from [transpose_a], the descriptors as converted,
    and the record: the validation, the view of the left operand exactly
    when the flag is set, and the entry point - extended on the descriptor
    with the view attached, plain on the descriptor as built. *)
Definition dsd_rule (shape data offsets indices transpose_a rhs_t out_t : Tensor)
           (w w' : World) : Prop :=
  exists flag lhs rhs out meta,
    read_flag transpose_a w = (w, Ok flag) /\
    as_block_matrix (store w') shape data offsets indices = Ok lhs /\
    plain_descriptor lhs /\
    as_matrix rhs_t = Ok rhs /\
    as_matrix out_t = Ok out /\
    view_iff flag (store w') shape data offsets indices meta /\
    trace w' = trace w ++
      Validate (Sparse lhs) flag (Dense rhs) (is_transposed rhs_t) (Dense out) true ::
      opt_allocs meta ++
      [Kernel (if flag then Extended else Plain)
              (Sparse (opt_attach lhs meta)) flag
              (Dense rhs) (is_transposed rhs_t) (Dense out)].

(** [ssd]: as [dsd], with a block-sparse output. *)
Definition ssd_rule (lhs_shape lhs_data lhs_offsets lhs_indices transpose_a rhs_t
                     out_shape out_data out_offsets out_indices : Tensor)
           (w w' : World) : Prop :=
  exists flag lhs rhs out meta,
    read_flag transpose_a w = (w, Ok flag) /\
    as_block_matrix (store w') lhs_shape lhs_data lhs_offsets lhs_indices = Ok lhs /\
    plain_descriptor lhs /\
    as_matrix rhs_t = Ok rhs /\
    as_block_matrix (store w') out_shape out_data out_offsets out_indices = Ok out /\
    view_iff flag (store w') lhs_shape lhs_data lhs_offsets lhs_indices meta /\
    trace w' = trace w ++
      Validate (Sparse lhs) flag (Dense rhs) (is_transposed rhs_t) (Sparse out) true ::
      opt_allocs meta ++
      [Kernel (if flag then Extended else Plain)
              (Sparse (opt_attach lhs meta)) flag
              (Dense rhs) (is_transposed rhs_t) (Sparse out)].

(** [dds]: the view of the right operand exactly when its flag is clear. *)
Definition dds_rule (lhs_t shape data offsets indices transpose_b out_t : Tensor)
           (w w' : World) : Prop :=
  exists flag lhs rhs out meta,
    read_flag transpose_b w = (w, Ok flag) /\
    as_matrix lhs_t = Ok lhs /\
    as_block_matrix (store w') shape data offsets indices = Ok rhs /\
    plain_descriptor rhs /\
    as_matrix out_t = Ok out /\
    view_iff (negb flag) (store w') shape data offsets indices meta /\
    trace w' = trace w ++
      Validate (Dense lhs) (is_transposed lhs_t) (Sparse rhs) flag (Dense out) true ::
      opt_allocs meta ++
      [Kernel (if negb flag then Extended else Plain)
              (Dense lhs) (is_transposed lhs_t)
              (Sparse (opt_attach rhs meta)) flag (Dense out)].


(** * Example inputs *)

(** Stand-ins for the sputnik entry points that always answer yes. *)
Definition always (_ : Operand) (_ : bool) (_ : Operand) (_ : bool) (_ : Operand)
  : bool := true.

(** A shape tensor holding (256, 128). *)
Definition shape_256_128 : Tensor := mkTensor 0 false Int [2] [1].

Definition world_256_128 : World :=
  mkWorld (fun h => match h with O => [256; 128] | _ => [] end) [].

(** A quadruple that passes validation although its buffers break every
    invariant of the format: 100 x 200 is not a multiple of the block
    size, the offsets [5; 3] are too many, decrease, start at 5 and end at
    3 for two blocks, and the indices -7 and 900 are no block columns. *)
Definition bad_shape : Tensor := mkTensor 0 false Int [2] [1].
Definition bad_data : Tensor := mkTensor 1 true Half [2; 128; 128] [16384; 128; 1].
Definition bad_offsets : Tensor := mkTensor 2 true Int [2] [1].
Definition bad_indices : Tensor := mkTensor 3 true Short [2] [1].
Definition bad_store : Store := fun h =>
  match h with
  | 0%nat => [100; 200]
  | 2%nat => [5; 3]
  | 3%nat => [-7; 900]
  | _ => []
  end.

(** A [dss] call: the left operand is stored as 128 x 8320 (one block row
    of 65 block columns, one block) and flagged as transposed, the right
    operand is 128 x 128 with its flag clear, the output is 8320 x 128. *)
Module DssExample.
Definition lhs_shape := mkTensor 0 false Int [2] [1].
Definition lhs_data := mkTensor 1 true Half [1; 128; 128] [16384; 128; 1].
Definition lhs_offsets := mkTensor 2 true Int [2] [1].
Definition lhs_indices := mkTensor 3 true Short [1] [1].
Definition transpose_a := mkTensor 4 false Int [1] [1].
Definition rhs_shape := mkTensor 5 false Int [2] [1].
Definition rhs_data := mkTensor 6 true Half [1; 128; 128] [16384; 128; 1].
Definition rhs_offsets := mkTensor 7 true Int [2] [1].
Definition rhs_indices := mkTensor 8 true Short [1] [1].
Definition transpose_b := mkTensor 9 false Int [1] [1].
Definition out_t := mkTensor 10 true Half [8320; 128] [128; 1].

Definition st0 : Store := fun h =>
  match h with
  | 0%nat => [128; 8320]
  | 2%nat => [0; 1]
  | 3%nat => [0]
  | 4%nat => [1]
  | 5%nat => [128; 128]
  | 7%nat => [0; 1]
  | 8%nat => [0]
  | 9%nat => [0]
  | _ => []
  end.

End DssExample.

(** The scenario of the transpose view: a 256 x 256 matrix with blocks at
    (block row 0, block column 1) and (block row 1, block column 0),
    offsets [0; 1; 2], and the indices either as block columns [1; 0] or
    as the element columns [128; 0] at which the blocks start. *)
Module Scenario.
Definition shape := mkTensor 0 false Int [2] [1].
Definition data := mkTensor 1 true Half [2; 128; 128] [16384; 128; 1].
Definition offsets := mkTensor 2 true Int [3] [1].
Definition indices := mkTensor 3 true Short [2] [1].

Definition st_block_units : Store := fun h =>
  match h with
  | 0%nat => [256; 256]
  | 2%nat => [0; 1; 2]
  | 3%nat => [1; 0]
  | _ => []
  end.

Definition st_element_units : Store := fun h =>
  match h with
  | 0%nat => [256; 256]
  | 2%nat => [0; 1; 2]
  | 3%nat => [128; 0]
  | _ => []
  end.
End Scenario.

(** A dense 16384 x 131072 matrix in block-sparse form: 128 block rows of
    1024 blocks each, 131072 blocks in all, with block-column indices. *)
Module Overflow.
Definition shape := mkTensor 0 false Int [2] [1].
Definition data := mkTensor 1 true Half [131072; 128; 128] [16384; 128; 1].
Definition offsets := mkTensor 2 true Int [129] [1].
Definition indices := mkTensor 3 true Short [131072] [1].

Definition st : Store := fun h =>
  match h with
  | 0%nat => [16384; 131072]
  | 2%nat => map (fun i => 1024 * Z.of_nat i) (seq 0 129)
  | 3%nat => flat_map (fun _ => map Z.of_nat (seq 0 1024)) (seq 0 128)
  | _ => []
  end.
End Overflow.

(** Inputs for the dispatchers: a sparse operand stored as 128 x 256 with
    blocks at block columns 0 and 1, a dense 256 x 128 operand and a dense
    128 x 128 operand; flags set and clear. *)
Module Inputs.
Definition shape := mkTensor 0 false Int [2] [1].
Definition data := mkTensor 1 true Half [2; 128; 128] [16384; 128; 1].
Definition offsets := mkTensor 2 true Int [2] [1].
Definition indices := mkTensor 3 true Short [2] [1].
Definition flag_set := mkTensor 4 false Int [1] [1].
Definition flag_clear := mkTensor 5 false Int [1] [1].
Definition dense_256_128 := mkTensor 6 true Half [256; 128] [128; 1].
Definition dense_128_128 := mkTensor 7 true Half [128; 128] [128; 1].
Definition out_shape := mkTensor 8 false Int [2] [1].
Definition out_data := mkTensor 9 true Half [1; 128; 128] [16384; 128; 1].
Definition out_offsets := mkTensor 10 true Int [2] [1].
Definition out_indices := mkTensor 11 true Short [1] [1].
Definition square_shape := mkTensor 12 false Int [2] [1].

Definition st0 : Store := fun h =>
  match h with
  | 0%nat => [128; 256]
  | 2%nat => [0; 2]
  | 3%nat => [0; 1]
  | 4%nat => [1]
  | 5%nat => [0]
  | 8%nat => [128; 128]
  | 10%nat => [0; 1]
  | 11%nat => [0]
  | 12%nat => [128; 128]
  | _ => []
  end.

Definition w0 : World := mkWorld st0 [].
End Inputs.


(** * Further vocabulary *)

(** The values that [histc(bins, 0, ncols)] counts: those of the closed
    range from 0 to [ncols]. *)
Definition in_hist_range (ncols v : Z) : bool := (0 <=? v) && (v <=? ncols).


(** ** Outcome of a call and the kernel launches *)

Definition is_kernel (e : Event) : Prop :=
  match e with
  | Kernel _ _ _ _ _ _ => True
  | _ => False
  end.

Definition not_kernel (e : Event) : Prop :=
  match e with
  | Kernel _ _ _ _ _ _ => False
  | _ => True
  end.

(** The status that a recorded launch reported. *)
Definition launch_status
           (Mm Mx : Operand -> bool -> Operand -> bool -> Operand -> bool)
           (e : Event) : bool :=
  match e with
  | Kernel Plain l tl r tr o => Mm l tl r tr o
  | Kernel Extended l tl r tr o => Mx l tl r tr o
  | _ => false
  end.

(** How the result of a call relates to what it recorded after [t0]: a
    call that raised [InvalidArgument] launched no kernel; a call that
    completed or raised [KernelFailure] launched exactly one kernel, as the
    last thing it did, and the launch reported success in the first case
    and failure in the second. *)
Definition outcome_rule
           (Mm Mx : Operand -> bool -> Operand -> bool -> Operand -> bool)
           (t0 : list Event) (out : World * result unit) : Prop :=
  exists evs,
    trace out.1 = t0 ++ evs /\
    match out.2 with
    | Err InvalidArgument => Forall not_kernel evs
    | Ok _ =>
        exists pre k, evs = pre ++ [k] /\ Forall not_kernel pre /\
                      is_kernel k /\ launch_status Mm Mx k = true
    | Err KernelFailure =>
        exists pre k, evs = pre ++ [k] /\ Forall not_kernel pre /\
                      is_kernel k /\ launch_status Mm Mx k = false
    end.

(** A step that launches no kernel and cannot raise [KernelFailure]. *)
Definition prelude {A} (m : M A) : Prop :=
  forall w, exists evs,
    trace (m w).1 = trace w ++ evs /\ Forall not_kernel evs /\
    (m w).2 <> Err KernelFailure.

(** A whole call: its outcome obeys [outcome_rule]. *)
Definition closing
           (Mm Mx : Operand -> bool -> Operand -> bool -> Operand -> bool)
           (m : M unit) : Prop :=
  forall w, outcome_rule Mm Mx (trace w) (m w).

(** [sdd]: what a completed call has recorded - the validation and the
    plain entry point on the descriptors as built, with nothing attached
    to the output descriptor. *)
Definition sdd_rule (lhs_t rhs_t shape data offsets indices : Tensor)
           (w w' : World) : Prop :=
  exists lhs rhs out,
    as_matrix lhs_t = Ok lhs /\
    as_matrix rhs_t = Ok rhs /\
    as_block_matrix (store w) shape data offsets indices = Ok out /\
    plain_descriptor out /\
    trace w' = trace w ++
      [Validate (Dense lhs) (is_transposed lhs_t) (Dense rhs) (is_transposed rhs_t)
                (Sparse out) true;
       Kernel Plain (Dense lhs) (is_transposed lhs_t)
              (Dense rhs) (is_transposed rhs_t) (Sparse out)].

(** The shape a flagged operand is given: (cols, rows) when the flag is
    set. *)
Definition normalized (flag : bool) (r c : Z) : list Z :=
  if flag then [c; r] else [r; c].

(** * Further example inputs *)

Module Rejected.
(** A flag held in a zero-dimensional tensor: one element, no extent. *)
Definition scalar_flag := mkTensor 4 false Int [] [].
(** A shape held in a 1 x 2 matrix: two elements, two extents. *)
Definition matrix_shape := mkTensor 0 false Int [1; 2] [2; 1].
(** A data tensor left on the host. *)
Definition host_data := mkTensor 1 false Half [2; 128; 128] [16384; 128; 1].
End Rejected.
(** * Properties *)

(** ** Running the state monad *)

Lemma bind_ok {A B} (m : M A) (k : A -> M B) w w' a :
  m w = (w', Ok a) -> bind m k w = k a w'.
Proof. intros H. unfold bind. rewrite H. reflexivity. Qed.

Lemma bind_err {A B} (m : M A) (k : A -> M B) w w' e :
  m w = (w', Err e) -> bind m k w = (w', Err e).
Proof. intros H. unfold bind. rewrite H. reflexivity. Qed.

Lemma TORCH_CHECK_ok b : TORCH_CHECK b = Ok tt <-> b = true.
Proof. destruct b; simpl; split; intros H; congruence. Qed.

Lemma ScalarType_eqb_eq a b : ScalarType_eqb a b = true <-> a = b.
Proof. destruct a, b; simpl; split; intros H; congruence. Qed.

(** ** Shape normalizer *)

Lemma access_metadata_vector st m idx :
  scalar_type m = Int -> ndimension m = 1 ->
  access_metadata st m idx = Ok (nth idx (st (storage m)) 0).
Proof.
  intros Hty Hdim. unfold access_metadata.
  rewrite Hty, Hdim. reflexivity.
Qed.

Lemma standardize_shape_run shape (flag : bool) w r c :
  scalar_type shape = Int -> ndimension shape = 1 ->
  store w (storage shape) = [r; c] ->
  exists w',
    standardize_shape shape flag w = (w', Ok tt) /\
    trace w' = trace w /\
    store w' (storage shape) = (if flag then [c; r] else [r; c]) /\
    (forall h, h <> storage shape -> store w' h = store w h).
Proof.
  intros Hty Hdim Hst.
  unfold standardize_shape, bind, look, poke.
  destruct flag; rewrite !access_metadata_vector by assumption;
    rewrite Hst, Hty; simpl;
    (eexists; split; [reflexivity|]; simpl; rewrite Nat.eqb_refl, Hst; simpl;
     split; [reflexivity|]; split; [reflexivity|];
     intros h Hh; apply Nat.eqb_neq in Hh; rewrite Hh; reflexivity).
Qed.

(** C7: the shape normalizer is self-inverse.  On a two-entry shape
    holding (rows, cols), one application with the flag set stores
    (cols, rows), a second one restores (rows, cols), and an application
    with the flag clear leaves (rows, cols) as they are; no other buffer
    changes. *)
Theorem standardize_shape_self_inverse (shape : Tensor) (w : World) (r c : Z) :
  scalar_type shape = Int ->
  sizes shape = [2] ->
  store w (storage shape) = [r; c] ->
  (exists w1,
      standardize_shape shape true w = (w1, Ok tt) /\
      store w1 (storage shape) = [c; r]) /\
  (exists w2,
      (standardize_shape shape true ;; standardize_shape shape true) w
        = (w2, Ok tt) /\
      store w2 (storage shape) = [r; c] /\
      (forall h, store w2 h = store w h) /\
      trace w2 = trace w) /\
  (exists w3,
      standardize_shape shape false w = (w3, Ok tt) /\
      store w3 (storage shape) = [r; c] /\
      (forall h, store w3 h = store w h) /\
      trace w3 = trace w).
Proof.
  intros Hty Hsz Hst.
  assert (Hdim : ndimension shape = 1) by (unfold ndimension; rewrite Hsz; reflexivity).
  destruct (standardize_shape_run shape true w r c Hty Hdim Hst)
    as (w1 & Hrun1 & Htr1 & Hs1 & Hfr1).
  destruct (standardize_shape_run shape true w1 c r Hty Hdim Hs1)
    as (w2 & Hrun2 & Htr2 & Hs2 & Hfr2).
  destruct (standardize_shape_run shape false w r c Hty Hdim Hst)
    as (w3 & Hrun3 & Htr3 & Hs3 & Hfr3).
  split; [|split].
  - exists w1. split; assumption.
  - exists w2. split; [|split; [|split]].
    + rewrite (bind_ok _ _ _ _ _ Hrun1). exact Hrun2.
    + exact Hs2.
    + intros h. destruct (Nat.eq_dec h (storage shape)) as [->|Hne].
      * congruence.
      * rewrite Hfr2, Hfr1 by assumption. reflexivity.
    + congruence.
  - exists w3. split; [|split; [|split]].
    + exact Hrun3.
    + exact Hs3.
    + intros h. destruct (Nat.eq_dec h (storage shape)) as [->|Hne].
      * congruence.
      * apply Hfr3. assumption.
    + exact Htr3.
Qed.


Lemma standardize_shape_self_inverse_witness :
  (exists w1,
      standardize_shape shape_256_128 true world_256_128 = (w1, Ok tt) /\
      store w1 0%nat = [128; 256]) /\
  (exists w2,
      (standardize_shape shape_256_128 true ;;
       standardize_shape shape_256_128 true) world_256_128 = (w2, Ok tt) /\
      store w2 0%nat = [256; 128] /\
      (forall h, store w2 h = store world_256_128 h) /\
      trace w2 = []) /\
  (exists w3,
      standardize_shape shape_256_128 false world_256_128 = (w3, Ok tt) /\
      store w3 0%nat = [256; 128] /\
      (forall h, store w3 h = store world_256_128 h) /\
      trace w3 = []).
Proof.
  apply (standardize_shape_self_inverse shape_256_128 world_256_128 256 128);
    reflexivity.
Defined.

(** ** Descriptor validation *)

Lemma rbind_ok_unit {B} (r : result unit) (k : unit -> result B) (b : B) :
  rbind r k = Ok b <-> r = Ok tt /\ k tt = Ok b.
Proof.
  destruct r as [[]|e]; simpl; split.
  - intros H. split; [reflexivity | assumption].
  - intros [_ H]. assumption.
  - intros H. discriminate.
  - intros [H _]. discriminate.
Qed.

Lemma validate_shape_ok shape :
  validate_shape shape = Ok tt <->
  is_cuda shape = false /\ numel shape = 2 /\ scalar_type shape = Int.
Proof.
  unfold validate_shape, CHECK_CPU, CHECK_SHAPE, CHECK_INT.
  rewrite !rbind_ok_unit, !TORCH_CHECK_ok, negb_true_iff, Z.eqb_eq,
    ScalarType_eqb_eq.
  reflexivity.
Qed.

Lemma validate_transpose_ok t :
  validate_transpose t = Ok tt <->
  is_cuda t = false /\ numel t = 1 /\ scalar_type t = Int.
Proof.
  unfold validate_transpose, CHECK_CPU, CHECK_SCALAR, CHECK_INT.
  rewrite !rbind_ok_unit, !TORCH_CHECK_ok, negb_true_iff, Z.eqb_eq,
    ScalarType_eqb_eq.
  reflexivity.
Qed.

Lemma validate_sparse_ok shape data offsets indices :
  validate_sparse shape data offsets indices = Ok tt <->
  sparse_checks shape data offsets indices /\
  size data 1 = 128 /\ size data 2 = 128.
Proof.
  unfold validate_sparse, sparse_checks, CHECK_CUDA, CHECK_3D, CHECK_HALF,
    CHECK_VECTOR, CHECK_INT, CHECK_SHORT.
  rewrite !rbind_ok_unit, validate_shape_ok, !TORCH_CHECK_ok, !Z.eqb_eq,
    !ScalarType_eqb_eq.
  intuition congruence.
Qed.


(** C10: validation accepts a quadruple exactly when the rank, device and
    dtype checks pass and the last two extents of the data tensor are both
    128.  The contents of the buffers play no part: an accepted quadruple
    with a vector shape yields a descriptor whatever the store holds, and
    [bad_store] is accepted although it breaks each invariant of the
    format. *)
Theorem validate_sparse_accepts_iff :
  (forall shape data offsets indices,
      validate_sparse shape data offsets indices = Ok tt <->
      sparse_checks shape data offsets indices /\
      size data 1 = 128 /\ size data 2 = 128) /\
  (forall st shape data offsets indices,
      validate_sparse shape data offsets indices = Ok tt ->
      ndimension shape = 1 ->
      as_block_matrix st shape data offsets indices =
        Ok (mkBlockMatrix (shape_rows st shape) (shape_cols st shape) 128
              (to_int (numel indices))
              (storage data) (storage offsets) (storage indices)
              None None None None)) /\
  (validate_sparse bad_shape bad_data bad_offsets bad_indices = Ok tt /\
   as_block_matrix bad_store bad_shape bad_data bad_offsets bad_indices =
     Ok (mkBlockMatrix 100 200 128 2 1 2 3 None None None None) /\
   ~ inv_multiples bad_store bad_shape /\
   ~ inv_offsets_length bad_store bad_shape bad_offsets /\
   ~ inv_offsets_sorted bad_store bad_offsets /\
   ~ inv_offsets_first bad_store bad_offsets /\
   ~ inv_offsets_last bad_store bad_offsets bad_indices /\
   ~ inv_indices_range bad_store bad_shape bad_indices).
Proof.
  split; [|split].
  - exact validate_sparse_ok.
  - intros st shape data offsets indices Hv Hdim.
    unfold as_block_matrix. rewrite Hv. simpl.
    apply validate_sparse_ok in Hv.
    destruct Hv as (((_ & _ & Hty) & _) & Hsz & _).
    rewrite !access_metadata_vector by assumption. simpl.
    rewrite Hsz. reflexivity.
  - split; [reflexivity|]. split; [reflexivity|].
    unfold inv_multiples, inv_offsets_length, inv_offsets_sorted,
      inv_offsets_first, inv_offsets_last, inv_indices_range,
      shape_rows, shape_cols; simpl.
    repeat split; try (intros H; discriminate H).
    + intros [H _]. discriminate H.
    + intros H. inversion H as [|? ? _ Hhd]; subst.
      inversion Hhd as [|? ? Hle]; subst. lia.
    + intros H. inversion H as [|? ? Hc _]; subst. lia.
Qed.

(** ** Bitmask workspace *)









(** ** Sorting *)

Global Instance key_le_total : Total key_le.
Proof.
  intros p q. unfold key_le.
  destruct (Qlt_le_dec (fst q) (fst p)) as [H|H].
  - right. apply Qlt_le_weak. exact H.
  - left. exact H.
Qed.

Global Instance key_le_trans : Transitive key_le.
Proof. intros p q r. unfold key_le. apply Qle_trans. Qed.

Lemma combine_seq_lookup {A} (l : list A) (d : A) (p : A * nat) (s : nat) :
  p ∈ combine l (seq s (length l)) ->
  (s <= p.2 < s + length l)%nat /\ p.1 = nth (p.2 - s) l d.
Proof.
  revert s. induction l as [|x l IH]; intros s Hin; simpl in *.
  - inversion Hin.
  - apply elem_of_cons in Hin. destruct Hin as [->|Hin].
    + simpl. rewrite Nat.sub_diag. split; [lia | reflexivity].
    + destruct (IH _ Hin) as [Hr Heq]. split; [lia|].
      rewrite Heq. replace (p.2 - s)%nat with (S (p.2 - S s)) by lia.
      reflexivity.
Qed.

Lemma snd_combine_seq {A} (l : list A) (s : nat) :
  map snd (combine l (seq s (length l))) = seq s (length l).
Proof.
  revert s. induction l as [|x l IH]; intros s; simpl; [reflexivity|].
  rewrite IH. reflexivity.
Qed.

Lemma argsort_perm (x : list Q) : Permutation (argsort x) (seq 0 (length x)).
Proof.
  unfold argsort.
  rewrite <- (snd_combine_seq x 0) at 2.
  apply Permutation_map. apply merge_sort_Permutation.
Qed.

Lemma sorted_keys_of_pairs (x : list Q) (l : list (Q * nat)) :
  StronglySorted key_le l ->
  Forall (fun p : Q * nat => p.1 = nth p.2 x 0%Q) l ->
  StronglySorted Qle (map (fun i => nth i x 0%Q) (map snd l)).
Proof.
  intros Hs. induction Hs as [|p l Hs IH Hhd]; intros Hall; simpl; constructor.
  - apply IH. inversion Hall; assumption.
  - inversion Hall as [|? ? Hp0 Hl]; subst.
    rewrite map_map. apply Forall_map.
    apply Forall_forall. intros q Hq.
    pose proof (proj1 (Forall_forall _ _) Hhd q Hq) as Hle.
    pose proof (proj1 (Forall_forall _ _) Hl q Hq) as Hq2.
    unfold key_le in Hle. simpl. rewrite <- Hp0, <- Hq2. exact Hle.
Qed.

Lemma argsort_sorted (x : list Q) :
  StronglySorted Qle (map (fun i => nth i x 0%Q) (argsort x)).
Proof.
  unfold argsort. apply sorted_keys_of_pairs.
  - apply StronglySorted_merge_sort; typeclasses eauto.
  - apply Forall_forall. intros p Hin.
    rewrite merge_sort_Permutation in Hin.
    destruct (combine_seq_lookup x 0%Q p 0 Hin) as [_ Heq].
    rewrite Nat.sub_0_r in Heq. exact Heq.
Qed.

(** The fractional key orders like the integer key [128 * column + row]. *)
Lemma sort_key_le (c r c' r' : Z) :
  (inject_Z c + inject_Z r / inject_Z 128 <=
   inject_Z c' + inject_Z r' / inject_Z 128)%Q <->
  128 * c + r <= 128 * c' + r'.
Proof.
  unfold Qle, Qplus, Qdiv, Qmult, Qinv, inject_Z. simpl.
  lia.
Qed.

Lemma add_div_length (a b : list Z) (s : Z) :
  length a = length b -> length (add_div a b s) = length a.
Proof.
  intros H. unfold add_div. rewrite length_zip_with. lia.
Qed.

Lemma add_div_nth (a b : list Z) (s : Z) (i : nat) :
  length a = length b -> (i < length a)%nat ->
  nth i (add_div a b s) 0%Q =
    (inject_Z (nth i a 0%Z) + inject_Z (nth i b 0%Z) / inject_Z s)%Q.
Proof.
  unfold add_div. revert b i. induction a as [|x a IH]; intros [|y b] i Hl Hi;
    simpl in *; try lia.
  destruct i as [|i]; [reflexivity|].
  apply IH; lia.
Qed.

Lemma StronglySorted_map_impl {A B C} (R : relation C) (S : relation B)
      (f : A -> B) (g : A -> C) (P : A -> Prop) (l : list A) :
  (forall x y, P x -> P y -> R (g x) (g y) -> S (f x) (f y)) ->
  Forall P l ->
  StronglySorted R (map g l) -> StronglySorted S (map f l).
Proof.
  intros HRS HP. induction l as [|x l IH]; simpl; intros Hs; [constructor|].
  inversion Hs as [|? ? Hs' Hhd]; subst.
  inversion HP as [|? ? Hx Hl]; subst.
  constructor; [apply IH; assumption|].
  apply Forall_forall. intros z Hz.
  apply list_elem_of_fmap_1 in Hz. destruct Hz as (y & -> & Hy).
  apply HRS; [assumption | | ].
  - apply (proj1 (Forall_forall _ _) Hl y Hy).
  - apply (proj1 (Forall_forall _ _) Hhd (g y)).
    apply list_elem_of_fmap_2. exact Hy.
Qed.

Lemma perm_seq_lt (p : list nat) (n : nat) :
  Permutation p (seq 0 n) -> Forall (fun i => (i < n)%nat) p.
Proof.
  intros Hp. apply Forall_forall. intros i Hi.
  rewrite Hp in Hi. apply elem_of_seq in Hi. lia.
Qed.

(** The permutation of the helper, by the integer key. *)
Lemma argsort_add_div_sorted (idx rws : list Z) :
  length idx = length rws ->
  StronglySorted Z.le
    (map (fun i => 128 * nth i idx 0 + nth i rws 0)
         (argsort (add_div idx rws 128))).
Proof.
  intros Hlen.
  pose proof (argsort_sorted (add_div idx rws 128)) as Hs.
  pose proof (perm_seq_lt _ _ (argsort_perm (add_div idx rws 128))) as Hlt.
  rewrite add_div_length in Hlt by assumption.
  revert Hs.
  apply (StronglySorted_map_impl Qle Z.le _ _ (fun i => (i < length idx)%nat));
    [|exact Hlt].
  intros i j Hi Hj. rewrite !add_div_nth by assumption.
  apply sort_key_le.
Qed.

(** ** Row lookup and the native reading *)

Lemma slice_length {A} (xs : list A) (a b : Z) :
  0 <= a <= b -> b <= Z.of_nat (length xs) ->
  length (slice xs a b) = Z.to_nat (b - a).
Proof.
  intros Hab Hb. unfold slice. rewrite length_take, length_drop. lia.
Qed.

Lemma slice_app {A} (xs : list A) (a b c : Z) :
  0 <= a <= b -> b <= c ->
  slice xs a c = slice xs a b ++ slice xs b c.
Proof.
  intros Hab Hbc. unfold slice.
  replace (Z.to_nat (c - a)) with (Z.to_nat (b - a) + Z.to_nat (c - b))%nat by lia.
  rewrite <- take_take_drop. f_equal. f_equal.
  rewrite drop_drop. f_equal. lia.
Qed.

Lemma combine_app_eq {A B} (l1 l2 : list A) (m1 m2 : list B) :
  length l1 = length m1 ->
  combine (l1 ++ l2) (m1 ++ m2) = combine l1 m1 ++ combine l2 m2.
Proof.
  revert m1. induction l1 as [|x l1 IH]; intros [|y m1] H; simpl in *;
    try discriminate; [reflexivity|].
  rewrite IH by lia. reflexivity.
Qed.

Lemma combine_const {A B} (i : A) (f : nat -> A) (s : list nat) (m : list B) :
  length s = length m -> Forall (fun k => f k = i) s ->
  combine (map f s) m = map (fun x => (i, x)) m.
Proof.
  revert m. induction s as [|k s IH]; intros [|y m] Hl Hall; simpl in *;
    try discriminate; [reflexivity|].
  inversion Hall as [|? ? Hk Hs]; subst.
  rewrite IH by (lia || assumption). reflexivity.
Qed.

Lemma StronglySorted_le_last (o : Z) (l : list Z) (d : Z) :
  StronglySorted Z.le (o :: l) -> o <= List.last (o :: l) d.
Proof.
  revert o. induction l as [|e l IH]; intros o Hs; [simpl; lia|].
  inversion Hs as [|? ? Hs' Hhd]; subst.
  inversion Hhd as [|? ? Hoe _]; subst.
  specialize (IH e Hs').
  change (List.last (o :: e :: l) d) with (List.last (e :: l) d). lia.
Qed.

(** Reading the native storage pairs every stored index with the block
    row that the row lookup finds for its position. *)
Lemma read_rows_combine (ends : list Z) (o i : Z) (idx : list Z) :
  0 <= o ->
  StronglySorted Z.le (o :: ends) ->
  List.last (o :: ends) 0 <= Z.of_nat (length idx) ->
  read_compressed 1 o ends i idx =
    combine (map (fun k => row_lookup ends (Z.of_nat k) i)
                 (seq (Z.to_nat o) (Z.to_nat (List.last (o :: ends) 0 - o))))
            (slice idx o (List.last (o :: ends) 0)).
Proof.
  revert o i. induction ends as [|e rest IH]; intros o i Ho Hs Hlast.
  - simpl. rewrite Z.sub_diag. reflexivity.
  - inversion Hs as [|? ? Hs' Hhd]; subst.
    inversion Hhd as [|? ? Hoe _]; subst.
    change (List.last (o :: e :: rest) 0) with (List.last (e :: rest) 0) in *.
    set (L := List.last (e :: rest) 0) in *.
    assert (HeL : e <= L) by (apply StronglySorted_le_last; assumption).
    simpl read_compressed. rewrite !Z.div_1_r.
    rewrite (IH e (i + 1)) by (lia || assumption). fold L.
    replace (Z.to_nat (L - o)) with (Z.to_nat (e - o) + Z.to_nat (L - e))%nat by lia.
    rewrite seq_app, map_app.
    rewrite (slice_app idx o e L) by lia.
    rewrite combine_app_eq
      by (rewrite length_map, length_seq, slice_length; lia).
    f_equal.
    + symmetry. apply combine_const.
      * rewrite length_seq, slice_length; lia.
      * apply Forall_forall. intros k Hk. apply elem_of_seq in Hk.
        simpl. replace (Z.of_nat k <? e) with true; [reflexivity|].
        symmetry. apply Z.ltb_lt. lia.
    + f_equal.
      replace (Z.to_nat o + Z.to_nat (e - o))%nat with (Z.to_nat e) by lia.
      apply map_ext_in. intros k Hk. apply in_seq in Hk.
      simpl. replace (Z.of_nat k <? e) with false; [reflexivity|].
      symmetry. apply Z.ltb_ge. lia.
Qed.

Lemma row_lookup_lower (ends : list Z) (k i : Z) : i <= row_lookup ends k i.
Proof.
  revert i. induction ends as [|e rest IH]; intros i; simpl; [lia|].
  destruct (k <? e); [lia|]. specialize (IH (i + 1)). lia.
Qed.

Lemma row_lookup_upper (ends : list Z) (k i : Z) :
  StronglySorted Z.le ends -> ends <> [] -> k < List.last ends 0 ->
  row_lookup ends k i < i + Z.of_nat (length ends).
Proof.
  revert i. induction ends as [|e rest IH]; intros i Hs Hne Hk; [congruence|].
  simpl row_lookup. destruct (k <? e) eqn:Hke.
  - simpl length. lia.
  - apply Z.ltb_ge in Hke.
    destruct rest as [|e' rest'].
    + simpl in Hk. lia.
    + inversion Hs as [|? ? Hs' _]; subst.
      change (List.last (e :: e' :: rest') 0) with (List.last (e' :: rest') 0) in Hk.
      specialize (IH (i + 1) Hs' ltac:(congruence) Hk).
      simpl length in *. lia.
Qed.

Lemma to_int_small z : in_int z -> to_int z = z.
Proof.
  unfold in_int, INT_MAX, to_int. intros H.
  rewrite Z.mod_small; lia.
Qed.

Lemma slice_all {A} (xs : list A) : slice xs 0 (Z.of_nat (length xs)) = xs.
Proof.
  unfold slice. simpl. rewrite Z.sub_0_r, Nat2Z.id. rewrite drop_0.
  apply take_ge. lia.
Qed.

Section Synthesizer.

Variables (st : Store) (shape data offsets indices : Tensor).
Hypothesis Hcsr : csr_descriptor st shape data offsets indices.

Abbreviation idx := (st (storage indices)).
Abbreviation offs := (st (storage offsets)).
Abbreviation n := (length (st (storage indices))).
Abbreviation nrows := (shape_rows st shape).
Abbreviation ncols := (shape_cols st shape).
Abbreviation rws := (row_idxs st shape data offsets indices).

Lemma csr_shape_int : scalar_type shape = Int /\ ndimension shape = 1.
Proof.
  destruct Hcsr. apply validate_sparse_ok in csr_checks0.
  destruct csr_checks0 as (((_ & _ & Hty) & _) & _).
  split; [assumption|]. unfold ndimension. rewrite csr_shape_vector0.
  reflexivity.
Qed.

Lemma csr_block_size : to_int (size data 1) = 128.
Proof.
  destruct Hcsr. apply validate_sparse_ok in csr_checks0.
  destruct csr_checks0 as (_ & -> & _). reflexivity.
Qed.

Lemma csr_nonzeros : to_int (numel indices) = Z.of_nat n.
Proof.
  pose proof (csr_numel _ _ _ _ _ Hcsr) as Hn.
  pose proof (csr_numel_range _ _ _ _ _ Hcsr) as Hr.
  rewrite to_int_small; [exact Hn|].
  unfold in_int, INT_MAX in *. lia.
Qed.

Lemma csr_as_block_matrix :
  as_block_matrix st shape data offsets indices = Ok (native_descriptor st shape data offsets indices).
Proof.
  destruct csr_shape_int as [Hty Hdim].
  unfold as_block_matrix. rewrite (csr_checks _ _ _ _ _ Hcsr). simpl.
  rewrite !access_metadata_vector by assumption. simpl.
  rewrite csr_block_size, csr_nonzeros. reflexivity.
Qed.

(** The offsets buffer is a leading zero followed by one segment end per
    block row. *)
Lemma csr_offsets_shape :
  exists ends,
    offs = 0 :: ends /\
    Z.of_nat (length ends) = nrows / 128 /\
    StronglySorted Z.le (0 :: ends) /\
    List.last (0 :: ends) 0 = Z.of_nat n.
Proof.
  pose proof (csr_offsets_length _ _ _ _ _ Hcsr) as Hlen.
  pose proof (csr_offsets_sorted _ _ _ _ _ Hcsr) as Hsorted.
  pose proof (csr_offsets_first _ _ _ _ _ Hcsr) as Hfirst.
  pose proof (csr_offsets_last _ _ _ _ _ Hcsr) as Hlast.
  pose proof (csr_rows_range _ _ _ _ _ Hcsr) as Hrows.
  unfold inv_offsets_length, inv_offsets_sorted, inv_offsets_first,
    inv_offsets_last in *.
  destruct offs as [|o ends].
  - simpl in Hlen.
    pose proof (Z.div_pos nrows 128 ltac:(lia) ltac:(lia)). lia.
  - simpl in Hfirst. subst o.
    exists ends. split; [reflexivity|]. split; [|split].
    + simpl length in Hlen. lia.
    + apply Sorted_StronglySorted; [|assumption].
      intros x y z. apply Z.le_trans.
    + assumption.
Qed.

Lemma row_idxs_eq ends :
  offs = 0 :: ends -> Z.of_nat (length ends) = nrows / 128 ->
  rws = map (fun k => row_lookup ends (Z.of_nat k) 0) (seq 0 n).
Proof.
  intros Hoffs Hlen. unfold row_idxs, RowIndices, native_descriptor. simpl.
  rewrite Hoffs. simpl tail.
  rewrite take_ge by lia. rewrite Nat2Z.id. reflexivity.
Qed.

Lemma row_idxs_length : length rws = n.
Proof.
  unfold row_idxs, RowIndices, native_descriptor. rewrite length_map, length_seq. simpl.
  apply Nat2Z.id.
Qed.

(** Every computed block row is a block row of the matrix, hence below
    128. *)
Lemma row_idxs_range : Forall (fun r => 0 <= r < nrows / 128) rws.
Proof.
  destruct csr_offsets_shape as (ends & Hoffs & Hlen & Hs & Hlast).
  rewrite (row_idxs_eq ends Hoffs Hlen).
  apply Forall_map. apply Forall_forall. intros k Hk.
  apply elem_of_seq in Hk.
  pose proof (row_lookup_lower ends (Z.of_nat k) 0).
  destruct ends as [|e rest].
  - simpl in Hlast. lia.
  - inversion Hs as [|? ? Hs' _]; subst.
    change (List.last (0 :: e :: rest) 0) with (List.last (e :: rest) 0) in Hlast.
    pose proof (row_lookup_upper (e :: rest) (Z.of_nat k) 0 Hs'
                  ltac:(congruence) ltac:(lia)).
    lia.
Qed.

Lemma block_rows_le_128 : nrows / 128 <= 128.
Proof.
  pose proof (csr_rows_range _ _ _ _ _ Hcsr) as Hrows.
  apply Z.div_le_upper_bound; lia.
Qed.

(** The native reading is the list of (block row, stored index) in
    storage order. *)
Lemma blocks_by_row_combine : blocks_by_row offs idx = combine rws idx.
Proof.
  destruct csr_offsets_shape as (ends & Hoffs & Hlen & Hs & Hlast).
  rewrite (row_idxs_eq ends Hoffs Hlen), Hoffs. unfold blocks_by_row.
  rewrite read_rows_combine by (lia || assumption).
  rewrite Hlast, Z.sub_0_r, Nat2Z.id. rewrite slice_all.
  reflexivity.
Qed.

End Synthesizer.

(** ** Histogram and running sums *)

Lemma rbind_ok_inv {A B} (r : result A) (k : A -> result B) (b : B) :
  rbind r k = Ok b -> exists a, r = Ok a /\ k a = Ok b.
Proof.
  destruct r as [a|e]; simpl; intros H; [|discriminate].
  exists a. split; [reflexivity | assumption].
Qed.

Lemma cumsum_from_length (acc : Z) (x : list Z) :
  length (cumsum_from acc x) = length x.
Proof.
  revert acc. induction x as [|v x IH]; intros acc; simpl; [reflexivity|].
  rewrite IH. reflexivity.
Qed.

Lemma cumsum_from_last (acc : Z) (x : list Z) :
  List.last (acc :: cumsum_from acc x) 0 = acc + fold_right Z.add 0 x.
Proof.
  revert acc. induction x as [|v x IH]; intros acc.
  - simpl. lia.
  - change (List.last (acc :: cumsum_from acc (v :: x)) 0)
      with (List.last ((acc + v) :: cumsum_from (acc + v) x) 0).
    rewrite IH. simpl. lia.
Qed.

Lemma cumsum_from_sorted (acc : Z) (x : list Z) :
  Forall (fun v => 0 <= v) x ->
  StronglySorted Z.le (acc :: cumsum_from acc x) /\
  Forall (fun s => acc <= s <= acc + fold_right Z.add 0 x) (acc :: cumsum_from acc x).
Proof.
  revert acc. induction x as [|v x IH]; intros acc Hpos.
  - simpl. split; [repeat constructor|]. repeat constructor; lia.
  - inversion Hpos as [|? ? Hv Hx]; subst.
    destruct (IH (acc + v) Hx) as [Hs Hb].
    assert (Hsum : 0 <= fold_right Z.add 0 x).
    { clear -Hx. induction Hx; simpl; lia. }
    simpl. split.
    + constructor; [exact Hs|].
      eapply Forall_impl; [exact Hb|]. intros s Hs'. simpl in Hs'. lia.
    + constructor; [lia|].
      eapply Forall_impl; [exact Hb|]. intros s Hs'. simpl in Hs'. lia.
Qed.

Lemma count_bin_nonneg bins lo hi input j : 0 <= count_bin bins lo hi input j.
Proof. unfold count_bin. lia. Qed.

(** A value that some bin below [bins] counts adds one to the sum of the
    counts. *)
Lemma in_bin_sum (bins lo hi v : Z) (s m : nat) :
  (exists b, histc_bin bins lo hi v = Some (Z.of_nat b) /\ (s <= b < s + m)%nat) ->
  fold_right Z.add 0
    (map (fun j => if in_bin bins lo hi (Z.of_nat j) v then 1 else 0) (seq s m)) = 1.
Proof.
  intros (b & Hb & Hr). unfold in_bin. rewrite Hb.
  revert s Hr. induction m as [|m IH]; intros s Hr; [lia|].
  simpl. destruct (Z.eqb_spec (Z.of_nat b) (Z.of_nat s)) as [Heq|Hne].
  - assert (Hz : fold_right Z.add 0
             (map (fun j => if Z.of_nat b =? Z.of_nat j then 1 else 0)
                  (seq (S s) m)) = 0).
    { clear -Heq. apply Nat2Z.inj in Heq. subst b.
      assert (Hgen : forall t, (s < t)%nat ->
                 fold_right Z.add 0
                   (map (fun j => if Z.of_nat s =? Z.of_nat j then 1 else 0)
                        (seq t m)) = 0).
      { induction m as [|m IHm]; intros t Ht; [reflexivity|].
        simpl. rewrite IHm by lia.
        destruct (Z.eqb_spec (Z.of_nat s) (Z.of_nat t)); lia. }
      apply Hgen. lia. }
    rewrite Hz. lia.
  - rewrite IH; [lia|]. assert (b <> s) by (intros ->; apply Hne; reflexivity). lia.
Qed.

Lemma count_bin_cons bins lo hi v input j :
  count_bin bins lo hi (v :: input) j =
    (if in_bin bins lo hi j v then 1 else 0) + count_bin bins lo hi input j.
Proof.
  unfold count_bin. simpl. destruct (in_bin bins lo hi j v); simpl; lia.
Qed.

Lemma fold_add_map2 (f g : nat -> Z) (l : list nat) :
  fold_right Z.add 0 (map (fun j => f j + g j) l) =
    fold_right Z.add 0 (map f l) + fold_right Z.add 0 (map g l).
Proof. induction l as [|x l IH]; simpl; lia. Qed.

(** When every value falls into one of the bins, the counts add up to the
    number of values. *)
Lemma histc_total (bins lo hi : Z) (input : list Z) (m : nat) :
  Forall (fun v => exists b, histc_bin bins lo hi v = Some (Z.of_nat b) /\ (b < m)%nat)
         input ->
  fold_right Z.add 0
    (map (fun j => count_bin bins lo hi input (Z.of_nat j)) (seq 0 m)) =
    Z.of_nat (length input).
Proof.
  induction input as [|v input IH]; intros Hall.
  - unfold count_bin. simpl. induction (seq 0 m) as [|j l IHl]; simpl; lia.
  - inversion Hall as [|? ? Hv Hin]; subst.
    rewrite (map_ext _ (fun j => (if in_bin bins lo hi (Z.of_nat j) v then 1 else 0)
                                 + count_bin bins lo hi input (Z.of_nat j)))
      by (intros j; apply count_bin_cons).
    rewrite fold_add_map2, IH by assumption.
    rewrite in_bin_sum.
    + simpl length. lia.
    + destruct Hv as (b & Hb & Hlt). exists b. split; [assumption | lia].
Qed.

(** The bin of a stored index that names a block column of the matrix. *)
Lemma histc_bin_block_unit (ncols c : Z) :
  0 <= c < ncols / 128 ->
  exists b, histc_bin (Z.quot ncols 128) 0 ncols c = Some (Z.of_nat b) /\
            (b < Z.to_nat (Z.quot ncols 128))%nat.
Proof.
  intros Hc.
  assert (Hn : 128 <= ncols).
  { destruct (Z_lt_le_dec ncols 128) as [Hlt|]; [|assumption].
    assert (ncols / 128 <= 0); [|lia].
    destruct (Z_lt_le_dec ncols 0).
    - pose proof (Z.div_lt_upper_bound ncols 128 0 ltac:(lia) ltac:(lia)). lia.
    - rewrite Z.div_small; lia. }
  rewrite Z.quot_div_nonneg by lia.
  set (B := ncols / 128) in *.
  assert (HB : 128 * B <= ncols) by (apply Z.mul_div_le; lia).
  unfold histc_bin.
  replace (c <? 0) with false by (symmetry; apply Z.ltb_ge; lia).
  replace (ncols <? c) with false by (symmetry; apply Z.ltb_ge; nia).
  simpl. rewrite !Z.sub_0_r.
  assert (Hq : 0 <= c * B / ncols < B).
  { split.
    - apply Z.div_pos; nia.
    - apply Z.div_lt_upper_bound; nia. }
  replace (c * B / ncols =? B) with false by (symmetry; apply Z.eqb_neq; lia).
  exists (Z.to_nat (c * B / ncols)). rewrite Z2Nat.id by lia.
  split; [reflexivity | lia].
Qed.

(** ** What the transpose helper returns *)

Lemma histc_ok (input : list Z) (ncols : Z) :
  0 < Z.quot ncols 128 ->
  histc input (Z.quot ncols 128) 0 ncols =
    Ok (map (fun j => count_bin (Z.quot ncols 128) 0 ncols input (Z.of_nat j))
            (seq 0 (Z.to_nat (Z.quot ncols 128)))).
Proof.
  intros HB. unfold histc.
  replace (0 <? Z.quot ncols 128) with true by (symmetry; apply Z.ltb_lt; lia).
  assert (0 < ncols).
  { destruct (Z_lt_le_dec 0 ncols); [assumption|].
    pose proof (Z.quot_opp_l ncols 128 ltac:(lia)).
    pose proof (Z.quot_pos (- ncols) 128 ltac:(lia) ltac:(lia)). lia. }
  replace (0 <? ncols) with true by (symmetry; apply Z.ltb_lt; lia).
  reflexivity.
Qed.

Lemma histc_ok_inv (input : list Z) (bins lo hi : Z) (h : list Z) :
  histc input bins lo hi = Ok h -> 0 < bins.
Proof.
  unfold histc. destruct (0 <? bins) eqn:Hb; simpl; [|discriminate].
  intros _. apply Z.ltb_lt. exact Hb.
Qed.

(** A returned view was computed from a validated quadruple within the
    row limit, with at least one histogram bin, and its offsets are
    [view_offsets]. *)
Lemma transpose_inv st shape data offsets indices v :
  transpose st shape data offsets indices = Ok v ->
  validate_sparse shape data offsets indices = Ok tt /\
  scalar_type shape = Int /\ ndimension shape = 1 /\
  shape_rows st shape <= 128 * 128 /\
  0 < Z.quot (shape_cols st shape) 128 /\
  v.1.2 = view_offsets (shape_cols st shape) (st (storage indices)).
Proof.
  unfold transpose. intros H.
  apply rbind_ok_inv in H. destruct H as (kCols & HkCols & H).
  apply rbind_ok_inv in H. destruct H as ([] & Hbs & H).
  apply rbind_ok_inv in H. destruct H as (shape0 & Hshape0 & H).
  apply rbind_ok_inv in H. destruct H as ([] & Hrows & H).
  apply rbind_ok_inv in H. destruct H as (rws & Hrws & H).
  apply rbind_ok_inv in H. destruct H as (h & Hh & H).
  apply TORCH_CHECK_ok, Z.eqb_eq in Hbs.
  apply TORCH_CHECK_ok, Z.leb_le in Hrows.
  unfold row_indices in Hrws.
  apply rbind_ok_inv in Hrws. destruct Hrws as (x & Hx & _).
  unfold as_block_matrix in Hx.
  apply rbind_ok_inv in Hx. destruct Hx as ([] & Hval & _).
  unfold access_metadata in HkCols, Hshape0.
  apply rbind_ok_inv in HkCols. destruct HkCols as ([] & Hacc & HkCols).
  apply rbind_ok_inv in Hshape0. destruct Hshape0 as ([] & _ & Hshape0).
  apply TORCH_CHECK_ok, andb_true_iff in Hacc. destruct Hacc as [Hty Hdim].
  apply ScalarType_eqb_eq in Hty. apply Z.eqb_eq in Hdim.
  injection HkCols as <-. injection Hshape0 as <-.
  rewrite Hbs in *.
  pose proof (histc_ok_inv _ _ _ _ _ Hh) as HB.
  rewrite histc_ok in Hh by assumption. injection Hh as <-.
  injection H as <-.
  repeat split; try assumption.
Qed.

Lemma transpose_returns st shape data offsets indices :
  validate_sparse shape data offsets indices = Ok tt ->
  sizes shape = [2] ->
  shape_rows st shape <= 128 * 128 ->
  0 < Z.quot (shape_cols st shape) 128 ->
  exists v, transpose st shape data offsets indices = Ok v.
Proof.
  intros Hval Hsz Hrows HB.
  pose proof Hval as Hval'. apply validate_sparse_ok in Hval'.
  destruct Hval' as (((_ & _ & Hty) & _) & Hbs & _).
  assert (Hdim : ndimension shape = 1) by (unfold ndimension; rewrite Hsz; reflexivity).
  unfold transpose, row_indices, as_block_matrix.
  rewrite !access_metadata_vector by assumption. rewrite Hval, Hbs. simpl.
  fold (shape_rows st shape) (shape_cols st shape).
  replace (shape_rows st shape <=? 128 * 128) with true
    by (symmetry; apply Z.leb_le; lia).
  simpl. rewrite histc_ok by assumption. simpl.
  eexists. reflexivity.
Qed.

Section SynthesizerResult.

Variables (st : Store) (shape data offsets indices : Tensor).
Hypothesis Hcsr : csr_descriptor st shape data offsets indices.

Lemma csr_quot_cols :
  Z.quot (shape_cols st shape) 128 = shape_cols st shape / 128.
Proof.
  apply Z.quot_div_nonneg; [|lia].
  apply (csr_cols_range _ _ _ _ _ Hcsr).
Qed.

(** On a valid descriptor with at least one block column the helper
    returns the block rows gathered along [gather_indices], the offsets
    [view_offsets] and the byte offsets gathered along the same
    permutation. *)
Lemma transpose_ok :
  128 <= shape_cols st shape ->
  transpose st shape data offsets indices =
    Ok (gather (row_idxs st shape data offsets indices)
               (gather_indices st shape data offsets indices),
        view_offsets (shape_cols st shape) (st (storage indices)),
        gather (linspace 0
                  ((Z.of_nat (length (st (storage indices))) - 1)
                   * (128 * 128 * sizeof_half))
                  (Z.of_nat (length (st (storage indices)))))
               (gather_indices st shape data offsets indices)).
Proof.
  intros Hcols.
  destruct (csr_shape_int _ _ _ _ _ Hcsr) as [Hty Hdim].
  pose proof (csr_rows_range _ _ _ _ _ Hcsr) as Hrows.
  assert (HB : 0 < Z.quot (shape_cols st shape) 128).
  { rewrite csr_quot_cols.
    apply Z.div_str_pos. lia. }
  unfold transpose, row_indices.
  rewrite (csr_as_block_matrix _ _ _ _ _ Hcsr).
  rewrite !access_metadata_vector by assumption.
  rewrite (csr_block_size _ _ _ _ _ Hcsr), (csr_nonzeros _ _ _ _ _ Hcsr). simpl.
  fold (shape_rows st shape) (shape_cols st shape).
  replace (shape_rows st shape <=? 128 * 128) with true
    by (symmetry; apply Z.leb_le; lia).
  simpl. rewrite histc_ok by assumption. simpl.
  reflexivity.
Qed.

(** Without a block column the histogram has no bin and the helper
    refuses. *)
Lemma transpose_no_column :
  shape_cols st shape < 128 ->
  transpose st shape data offsets indices = Err InvalidArgument.
Proof.
  intros Hcols.
  destruct (transpose st shape data offsets indices) as [v|[]] eqn:Hv.
  - apply transpose_inv in Hv. destruct Hv as (_ & _ & _ & _ & HB & _).
    rewrite csr_quot_cols in HB.
    pose proof (csr_cols_range _ _ _ _ _ Hcsr).
    rewrite Z.div_small in HB by lia. lia.
  - reflexivity.
  - exfalso. revert Hv. unfold transpose, row_indices, histc, as_block_matrix,
      access_metadata, validate_sparse, validate_shape, CHECK_CPU, CHECK_SHAPE,
      CHECK_INT, CHECK_CUDA, CHECK_3D, CHECK_HALF, CHECK_VECTOR, CHECK_SHORT,
      TORCH_CHECK, rbind.
    repeat match goal with
           | |- context [if ?b then _ else _] => destruct b
           end; discriminate.
Qed.

End SynthesizerResult.

(** ** The transpose view *)

(** C1 (as stated) fails: on the scenario with block-column indices
    [1; 0] no returned view has the offsets [0; 16384; 32768]. *)
Lemma transpose_scenario_counterexample :
  ~ (exists bo,
        transpose Scenario.st_block_units Scenario.shape Scenario.data
                  Scenario.offsets Scenario.indices
        = Ok ([1; 0], [0; 16384; 32768], bo)).
Proof.
  intros [bo H]. vm_compute in H. discriminate H.
Qed.

(** C1 (as amended): on the scenario with indices [1; 0] the helper returns
    indices_t = [1; 0] and offsets_t = [0; 32768; 32768], because the
    histogram has two bins of width 128 on [0, 256] and counts both
    indices in the first; the offsets [0; 16384; 32768] come out when the
    indices are the element columns [128; 0]. *)
Theorem transpose_scenario :
  transpose Scenario.st_block_units Scenario.shape Scenario.data
            Scenario.offsets Scenario.indices
    = Ok ([1; 0], [0; 32768; 32768], [32768; 0]) /\
  transpose Scenario.st_element_units Scenario.shape Scenario.data
            Scenario.offsets Scenario.indices
    = Ok ([1; 0], [0; 16384; 32768], [32768; 0]).
Proof. split; vm_compute; reflexivity. Qed.

Lemma Forall_nth_lt {A} (P : A -> Prop) (l : list A) (d : A) (i : nat) :
  Forall P l -> (i < length l)%nat -> P (nth i l d).
Proof.
  intros Hall. revert i. induction Hall as [|x l Hx Hl IH]; intros i Hi;
    simpl in *; [lia|].
  destruct i as [|i]; [assumption|]. apply IH. lia.
Qed.

Lemma nth_map_seq {A} (f : nat -> A) (m i : nat) (d : A) :
  (i < m)%nat -> nth i (map f (seq 0 m)) d = f i.
Proof.
  intros Hi.
  rewrite (nth_indep _ d (f 0%nat)) by (rewrite length_map, length_seq; exact Hi).
  rewrite (map_nth f (seq 0 m) 0%nat i), seq_nth by exact Hi.
  reflexivity.
Qed.


Global Instance lex_le_antisymm : AntiSymm (=) lex_le.
Proof.
  intros [c1 r1] [c2 r2]. unfold lex_le. simpl. intros H1 H2.
  f_equal; lia.
Qed.



(** ** The offsets of the view *)

Lemma last_map_f {A B} (f : A -> B) (l : list A) (d : A) :
  List.last (map f l) (f d) = f (List.last l d).
Proof.
  induction l as [|x l IH]; [reflexivity|].
  destruct l as [|y l]; [reflexivity|].
  change (List.last (map f (x :: y :: l)) (f d)) with (List.last (map f (y :: l)) (f d)).
  rewrite IH. reflexivity.
Qed.

Lemma StronglySorted_map_mono (f : Z -> Z) (l : list Z) :
  (forall x y, x <= y -> f x <= f y) ->
  StronglySorted Z.le l -> StronglySorted Z.le (map f l).
Proof.
  intros Hf Hs. induction Hs as [|x l Hs IH Hhd]; simpl; constructor.
  - exact IH.
  - apply Forall_map. eapply Forall_impl; [exact Hhd|]. intros y Hy. simpl.
    apply Hf. exact Hy.
Qed.

Section ViewOffsets.

Variables (ncols : Z) (idx : list Z).
Hypothesis Hbins :
  Forall (fun v => exists b,
              histc_bin (Z.quot ncols 128) 0 ncols v = Some (Z.of_nat b) /\
              (b < Z.to_nat (Z.quot ncols 128))%nat) idx.

Abbreviation nbins := (Z.to_nat (Z.quot ncols 128)).
Abbreviation counts :=
  (map (fun j => count_bin (Z.quot ncols 128) 0 ncols idx (Z.of_nat j))
       (seq 0 (Z.to_nat (Z.quot ncols 128)))).

Lemma counts_total : fold_right Z.add 0 counts = Z.of_nat (length idx).
Proof.
  apply histc_total. exact Hbins.
Qed.

Lemma counts_nonneg : Forall (fun v => 0 <= v) counts.
Proof.
  apply Forall_map. apply Forall_forall. intros j _. apply count_bin_nonneg.
Qed.

(** Before the cast to 32 bits the offsets are the running block counts
    times 128 * 128: they start at 0, do not decrease and end at the number
    of stored blocks times 128 * 128. *)
Lemma view_offsets_eq :
  view_offsets ncols idx =
    map to_int (map (fun s => s * (128 * 128)) (0 :: cumsum counts)).
Proof. reflexivity. Qed.

Lemma view_offsets_length : length (view_offsets ncols idx) = S nbins.
Proof.
  unfold view_offsets. simpl. unfold cumsum.
  rewrite !length_map, cumsum_from_length, length_map, length_seq.
  reflexivity.
Qed.

Lemma view_offsets_first : nth 0 (view_offsets ncols idx) 0 = 0.
Proof. reflexivity. Qed.

Lemma view_offsets_last :
  List.last (view_offsets ncols idx) 0 = to_int (Z.of_nat (length idx) * (128 * 128)).
Proof.
  rewrite view_offsets_eq.
  etransitivity; [exact (last_map_f to_int _ 0)|]. f_equal.
  etransitivity; [exact (last_map_f (fun s => s * (128 * 128)) _ 0)|].
  unfold cumsum. rewrite cumsum_from_last, counts_total. reflexivity.
Qed.

Lemma view_offsets_exact :
  Z.of_nat (length idx) * (128 * 128) <= INT_MAX ->
  view_offsets ncols idx = map (fun s => s * (128 * 128)) (0 :: cumsum counts) /\
  StronglySorted Z.le (view_offsets ncols idx).
Proof.
  intros Hbound.
  destruct (cumsum_from_sorted 0 counts counts_nonneg) as [Hs Hb].
  rewrite counts_total in Hb. fold (cumsum counts) in Hs, Hb.
  assert (Heq : view_offsets ncols idx =
                map (fun s => s * (128 * 128)) (0 :: cumsum counts)).
  { rewrite view_offsets_eq.
    rewrite <- (map_id (map (fun s => s * (128 * 128)) (0 :: cumsum counts))) at 2.
    apply map_ext_in. intros z Hz. apply in_map_iff in Hz.
    destruct Hz as (s & <- & Hs').
    apply list_elem_of_In in Hs'.
    pose proof (proj1 (Forall_forall _ _) Hb s Hs') as Hsb. simpl in Hsb.
    apply to_int_small. unfold in_int, INT_MAX in *. lia. }
  split; [exact Heq|]. rewrite Heq.
  apply StronglySorted_map_mono; [|exact Hs]. intros x y Hxy. lia.
Qed.

End ViewOffsets.

Lemma quot_pos_cols (ncols : Z) :
  0 < Z.quot ncols 128 -> 128 <= ncols /\ Z.quot ncols 128 = ncols / 128.
Proof.
  intros HB.
  assert (0 <= ncols).
  { destruct (Z_lt_le_dec ncols 0); [|assumption].
    pose proof (Z.quot_opp_l ncols 128 ltac:(lia)).
    pose proof (Z.quot_pos (- ncols) 128 ltac:(lia) ltac:(lia)). lia. }
  rewrite Z.quot_div_nonneg in * by lia.
  split; [|reflexivity].
  destruct (Z_lt_le_dec ncols 128); [|assumption].
  rewrite Z.div_small in HB; lia.
Qed.

(** C6 (as amended): for an input within the helper's preconditions whose
    indices are block columns and whose blocks hold at most 2^31 - 1 values
    in all, the helper returns whenever the matrix has a block column, and
    the returned offsets_t has cols/128 + 1 entries, does not decrease,
    starts at 0 and ends at nnz_blocks * 128^2. *)
Theorem transpose_offsets_t_invariants (st : Store)
        (shape data offsets indices : Tensor) :
  let idx := st (storage indices) in
  let ncols := shape_cols st shape in
  numel indices = Z.of_nat (length idx) ->
  Forall (fun c => 0 <= c < ncols / 128) idx ->
  numel indices * (128 * 128) <= INT_MAX ->
  (validate_sparse shape data offsets indices = Ok tt ->
   sizes shape = [2] ->
   shape_rows st shape <= 128 * 128 ->
   128 <= ncols ->
   exists v, transpose st shape data offsets indices = Ok v) /\
  (forall v,
      transpose st shape data offsets indices = Ok v ->
      Z.of_nat (length v.1.2) = ncols / 128 + 1 /\
      Sorted Z.le v.1.2 /\
      nth 0 v.1.2 0 = 0 /\
      List.last v.1.2 0 = numel indices * (128 * 128)).
Proof.
  intros idx ncols Hnumel Hrange Hbound. split.
  - intros Hval Hsz Hrows Hcols.
    apply transpose_returns; try assumption.
    fold ncols. rewrite Z.quot_div_nonneg by lia.
    apply Z.div_str_pos. lia.
  - intros v Hv. apply transpose_inv in Hv.
    destruct Hv as (_ & _ & _ & _ & HB & ->). fold ncols idx in HB |- *.
    destruct (quot_pos_cols ncols HB) as [Hcols Hq].
    rewrite Hnumel in Hbound |- *.
    assert (Hbins : Forall (fun v => exists b,
                   histc_bin (Z.quot ncols 128) 0 ncols v = Some (Z.of_nat b) /\
                   (b < Z.to_nat (Z.quot ncols 128))%nat) idx).
    { eapply Forall_impl; [exact Hrange|].
      intros c Hc. apply histc_bin_block_unit. exact Hc. }
    destruct (view_offsets_exact ncols idx Hbins Hbound) as [_ Hs].
    split; [|split; [|split]].
    + rewrite view_offsets_length. rewrite Hq in *. lia.
    + apply StronglySorted_Sorted. exact Hs.
    + reflexivity.
    + rewrite (view_offsets_last ncols idx Hbins).
      apply to_int_small. unfold in_int, INT_MAX in *. lia.
Qed.

Lemma overflow_indices_range :
  Forall (fun c => 0 <= c < shape_cols Overflow.st Overflow.shape / 128)
         (Overflow.st (storage Overflow.indices)).
Proof.
  change (shape_cols Overflow.st Overflow.shape / 128) with 1024.
  apply Forall_forall. intros c Hc. apply list_elem_of_In in Hc.
  change (Overflow.st (storage Overflow.indices))
    with (flat_map (fun _ : nat => map Z.of_nat (seq 0 1024)) (seq 0 128)) in Hc.
  apply in_flat_map in Hc. destruct Hc as (_ & _ & Hc).
  apply in_map_iff in Hc. destruct Hc as (k & <- & Hk).
  apply in_seq in Hk. lia.
Qed.

Lemma overflow_indices_length :
  Z.of_nat (length (Overflow.st (storage Overflow.indices))) = 131072.
Proof. vm_compute. reflexivity. Qed.

(** C6 (as stated) fails: the dense 16384 x 131072 matrix satisfies the
    preconditions, the helper returns, and the last entry of offsets_t is
    -2^31 where nnz_blocks * 128^2 is 2^31: the count of values does not
    fit the 32-bit offsets, and the entries decrease at the end. *)
Lemma transpose_offsets_t_overflow :
  validate_sparse Overflow.shape Overflow.data Overflow.offsets Overflow.indices
    = Ok tt /\
  shape_rows Overflow.st Overflow.shape <= 128 * 128 /\
  Forall (fun c => 0 <= c < shape_cols Overflow.st Overflow.shape / 128)
         (Overflow.st (storage Overflow.indices)) /\
  numel Overflow.indices * (128 * 128) = 2147483648 /\
  exists v,
    transpose Overflow.st Overflow.shape Overflow.data Overflow.offsets
              Overflow.indices = Ok v /\
    List.last v.1.2 0 = -2147483648.
Proof.
  split; [reflexivity|]. split; [vm_compute; discriminate|].
  split; [exact overflow_indices_range|]. split; [reflexivity|].
  destruct (transpose_returns Overflow.st Overflow.shape Overflow.data
              Overflow.offsets Overflow.indices) as [v Hv];
    [reflexivity | reflexivity | vm_compute; discriminate | reflexivity |].
  exists v. split; [exact Hv|].
  apply transpose_inv in Hv. destruct Hv as (_ & _ & _ & _ & _ & ->).
  rewrite view_offsets_last.
  2:{ eapply Forall_impl; [exact overflow_indices_range|].
      intros c Hc. apply histc_bin_block_unit. exact Hc. }
  rewrite overflow_indices_length. reflexivity.
Qed.

(** ** Reading the view by column *)

Lemma sorted_split (L : list (Z * Z)) (j : Z) :
  StronglySorted by_col L ->
  Forall (fun x : Z * Z => j <= x.2) L ->
  exists L0 L1,
    L = L0 ++ L1 /\
    Forall (fun x : Z * Z => x.2 = j) L0 /\
    Forall (fun x : Z * Z => j + 1 <= x.2) L1 /\
    StronglySorted by_col L1.
Proof.
  intros Hs. induction Hs as [|x L Hs IH Hhd]; intros Hlow.
  - exists [], []. repeat split; constructor.
  - inversion Hlow as [|? ? Hx HL]; subst.
    destruct (Z.eq_dec x.2 j) as [Heq|Hne].
    + destruct (IH HL) as (L0 & L1 & -> & H0 & H1 & Hs1).
      exists (x :: L0), L1. repeat split; try assumption.
      constructor; assumption.
    + exists [], (x :: L). repeat split.
      * constructor.
      * constructor; [lia|].
        eapply Forall_impl; [exact Hhd|]. intros y Hy. unfold by_col in Hy. lia.
      * constructor; assumption.
Qed.

Lemma filter_all {A} (f : A -> bool) (l : list A) :
  Forall (fun x => f x = true) l -> List.filter f l = l.
Proof.
  induction 1 as [|x l Hx Hl IH]; simpl; [reflexivity|].
  rewrite Hx, IH. reflexivity.
Qed.

Lemma filter_none {A} (f : A -> bool) (l : list A) :
  Forall (fun x => f x = false) l -> List.filter f l = [].
Proof.
  induction 1 as [|x l Hx Hl IH]; simpl; [reflexivity|].
  rewrite Hx, IH. reflexivity.
Qed.

Lemma col_count_app_here (L0 L1 : list (Z * Z)) (j : Z) :
  Forall (fun x : Z * Z => x.2 = j) L0 ->
  Forall (fun x : Z * Z => j + 1 <= x.2) L1 ->
  col_count (L0 ++ L1) j = Z.of_nat (length L0).
Proof.
  intros H0 H1. unfold col_count. rewrite List.filter_app, length_app.
  rewrite (filter_all _ L0), (filter_none _ L1).
  - simpl. lia.
  - eapply Forall_impl; [exact H1|]. intros x Hx. simpl in Hx.
    apply Z.eqb_neq. lia.
  - eapply Forall_impl; [exact H0|]. intros x Hx. simpl in Hx.
    apply Z.eqb_eq. exact Hx.
Qed.

Lemma col_count_app_later (L0 L1 : list (Z * Z)) (j j' : Z) :
  Forall (fun x : Z * Z => x.2 = j) L0 -> j < j' ->
  col_count (L0 ++ L1) j' = col_count L1 j'.
Proof.
  intros H0 Hj. unfold col_count. rewrite List.filter_app, length_app.
  rewrite (filter_none _ L0); [reflexivity|].
  eapply Forall_impl; [exact H0|]. intros x Hx. simpl in Hx.
  apply Z.eqb_neq. lia.
Qed.

(** A list of (row, column) pairs sorted by column is recovered from its
    rows and the running column counts. *)
Lemma read_segments (u : Z) (m : nat) :
  0 < u ->
  forall (j0 a : nat) (pre : list Z) (L : list (Z * Z)),
    length pre = a ->
    StronglySorted by_col L ->
    Forall (fun x : Z * Z => Z.of_nat j0 <= x.2 < Z.of_nat (j0 + m)) L ->
    read_compressed u (Z.of_nat a * u)
      (map (fun s => s * u)
           (cumsum_from (Z.of_nat a)
              (map (fun j => col_count L (Z.of_nat j)) (seq j0 m))))
      (Z.of_nat j0) (pre ++ map fst L)
    = map (fun x : Z * Z => (x.2, x.1)) L.
Proof.
  intros Hu. induction m as [|m IH]; intros j0 a pre L Hpre Hs Hr.
  - destruct L as [|x L]; [reflexivity|].
    inversion Hr as [|? ? Hx _]; subst. lia.
  - destruct (sorted_split L (Z.of_nat j0) Hs) as (L0 & L1 & -> & H0 & H1 & Hs1).
    { eapply Forall_impl; [exact Hr|]. intros x Hx. simpl in Hx. lia. }
    simpl seq. simpl map. simpl cumsum_from. simpl map.
    rewrite (col_count_app_here L0 L1 _ H0 H1).
    simpl read_compressed.
    rewrite !Z.div_mul by lia.
    rewrite (map_ext_in _ (fun j => col_count L1 (Z.of_nat j))).
    2:{ intros j Hj. apply in_seq in Hj.
        apply (col_count_app_later L0 L1 (Z.of_nat j0)); [exact H0 | lia]. }
    replace (Z.of_nat a + Z.of_nat (length L0)) with (Z.of_nat (a + length L0)) by lia.
    replace (Z.of_nat j0 + 1) with (Z.of_nat (S j0)) by lia.
    rewrite map_app, app_assoc.
    rewrite (IH (S j0) (a + length L0)%nat (pre ++ map fst L0) L1).
    + rewrite map_app. f_equal.
      unfold slice.
      replace (Z.to_nat (Z.of_nat (a + length L0) - Z.of_nat a)) with (length L0) by lia.
      rewrite Nat2Z.id, <- app_assoc, drop_app_length' by (symmetry; exact Hpre).
      rewrite take_app_length' by (rewrite length_map; reflexivity).
      rewrite map_map. apply map_ext_in. intros x Hx.
      apply list_elem_of_In in Hx.
      pose proof (proj1 (Forall_forall _ _) H0 x Hx) as Hx0. simpl in Hx0.
      rewrite Hx0. reflexivity.
    + rewrite length_app, length_map. lia.
    + exact Hs1.
    + apply Forall_forall. intros x Hx.
      pose proof (proj1 (Forall_forall _ _) H1 x Hx) as Hlo. simpl in Hlo.
      assert (Hin : x ∈ L0 ++ L1) by (apply elem_of_app; right; exact Hx).
      pose proof (proj1 (Forall_forall _ _) Hr x Hin) as Hhi. simpl in Hhi.
      lia.
Qed.

Lemma filter_length_perm {A} (f : A -> bool) (l l' : list A) :
  Permutation l l' -> length (List.filter f l) = length (List.filter f l').
Proof.
  induction 1 as [|x l l' _ IH|x y l|l l' l'' _ IH1 _ IH2]; simpl.
  - reflexivity.
  - destruct (f x); simpl; rewrite IH; reflexivity.
  - destruct (f x), (f y); reflexivity.
  - rewrite IH1. exact IH2.
Qed.

Lemma filter_length_map {A B} (f : B -> bool) (g : A -> B) (l : list A) :
  length (List.filter f (map g l)) = length (List.filter (fun x => f (g x)) l).
Proof.
  induction l as [|x l IH]; simpl; [reflexivity|].
  destruct (f (g x)); simpl; rewrite IH; reflexivity.
Qed.

Lemma filter_length_ext {A} (f g : A -> bool) (l : list A) :
  Forall (fun x => f x = g x) l ->
  length (List.filter f l) = length (List.filter g l).
Proof.
  induction 1 as [|x l Hx _ IH]; simpl; [reflexivity|].
  rewrite Hx. destruct (g x); simpl; rewrite IH; reflexivity.
Qed.

Lemma map_nth_seq_id {A} (l : list A) (d : A) :
  map (fun i => nth i l d) (seq 0 (length l)) = l.
Proof.
  apply (nth_ext _ _ d d).
  - rewrite length_map, length_seq. reflexivity.
  - intros i Hi. rewrite length_map, length_seq in Hi.
    apply (nth_map_seq (fun k => nth k l d)). exact Hi.
Qed.

Lemma combine_nth_seq {A B} (l : list A) (m : list B) (da : A) (db : B) :
  length l = length m ->
  combine l m = map (fun i => (nth i l da, nth i m db)) (seq 0 (length l)).
Proof.
  intros Hlen. apply (nth_ext _ _ (da, db) (da, db)).
  - rewrite length_combine, length_map, length_seq. lia.
  - intros i Hi. rewrite length_combine in Hi.
    rewrite combine_nth by exact Hlen.
    rewrite (nth_map_seq (fun k => (nth k l da, nth k m db))) by lia.
    reflexivity.
Qed.

(** With [ncols = 128 * B] the histogram files a stored index [v] under
    [v / 128]. *)
Lemma histc_bin_div (ncols v : Z) :
  128 <= ncols -> ncols mod 128 = 0 -> 0 <= v < ncols ->
  histc_bin (Z.quot ncols 128) 0 ncols v = Some (v / 128) /\
  0 <= v / 128 < Z.quot ncols 128.
Proof.
  intros Hn Hmod Hv.
  rewrite Z.quot_div_nonneg by lia.
  pose proof (Z.div_mod ncols 128 ltac:(lia)) as Hdm. rewrite Hmod in Hdm.
  set (B := ncols / 128) in *.
  assert (HB : 0 < B) by lia.
  assert (Hq : 0 <= v / 128 < B).
  { split; [apply Z.div_pos; lia | apply Z.div_lt_upper_bound; lia]. }
  split; [|exact Hq].
  unfold histc_bin.
  replace (v <? 0) with false by (symmetry; apply Z.ltb_ge; lia).
  replace (ncols <? v) with false by (symmetry; apply Z.ltb_ge; lia).
  simpl. rewrite !Z.sub_0_r.
  replace (v * B / ncols) with (v / 128).
  2:{ replace ncols with (128 * B) at 1 by lia.
      rewrite Z.div_mul_cancel_r by lia. reflexivity. }
  replace (v / 128 =? B) with false by (symmetry; apply Z.eqb_neq; lia).
  reflexivity.
Qed.

Lemma read_compressed_map (f : Z -> Z) (u o : Z) (ptrs : list Z) (i : Z)
      (minor : list Z) :
  read_compressed u o ptrs i (map f minor) =
    map (fun p : Z * Z => (p.1, f p.2)) (read_compressed u o ptrs i minor).
Proof.
  revert o i. induction ptrs as [|p rest IH]; intros o i; [reflexivity|].
  simpl. rewrite IH, map_app. f_equal.
  unfold slice. rewrite <- fmap_drop, <- fmap_take, !map_map. reflexivity.
Qed.

Lemma read_view (L : list (Z * Z)) (m : nat) :
  StronglySorted by_col L ->
  Forall (fun x : Z * Z => 0 <= x.2 < Z.of_nat m) L ->
  read_compressed (128 * 128) 0
    (map (fun s => s * (128 * 128))
         (cumsum (map (fun j => col_count L (Z.of_nat j)) (seq 0 m))))
    0 (map fst L)
  = map (fun x : Z * Z => (x.2, x.1)) L.
Proof.
  intros Hs Hr.
  exact (read_segments (128 * 128) m ltac:(lia) 0 0 [] L eq_refl Hs Hr).
Qed.

(** C5 (as amended): on a valid descriptor whose stored indices lie in
    [0, cols), with at least one block column and at most 2^31 - 1 stored
    values, the helper returns a view which, read as a compressed
    block-column representation, lists every stored block exactly once,
    under its block row and under the column [index / 128] of the
    histogram bin of its stored index.  When the stored indices are the
    element columns 128 * block-column this is exactly the original set of
    (block row, block column) memberships. *)
Theorem transpose_view_membership (st : Store)
        (shape data offsets indices : Tensor) :
  csr_descriptor st shape data offsets indices ->
  128 <= shape_cols st shape ->
  Forall (fun v => 0 <= v < shape_cols st shape) (st (storage indices)) ->
  Z.of_nat (length (st (storage indices))) * (128 * 128) <= INT_MAX ->
  exists v,
    transpose st shape data offsets indices = Ok v /\
    Permutation (blocks_by_column v.1.2 v.1.1)
      (map (fun p : Z * Z => (p.1, p.2 / 128))
           (blocks_by_row (st (storage offsets)) (st (storage indices)))) /\
    (forall bcols,
        st (storage indices) = map (Z.mul 128) bcols ->
        Permutation (blocks_by_column v.1.2 v.1.1)
                    (blocks_by_row (st (storage offsets)) bcols)).
Proof.
  intros Hcsr Hcols Hrange Hbound.
  set (idx := st (storage indices)) in *.
  set (rws := row_idxs st shape data offsets indices).
  set (perm := gather_indices st shape data offsets indices).
  set (ncols := shape_cols st shape) in *.
  pose proof (row_idxs_length st shape data offsets indices) as Hlen.
  fold rws idx in Hlen.
  pose proof (csr_multiples _ _ _ _ _ Hcsr) as [_ Hmod]. fold ncols in Hmod.
  assert (Hperm : Permutation perm (seq 0 (length idx))).
  { unfold perm, gather_indices. fold idx rws.
    rewrite <- (add_div_length idx rws 128) by (symmetry; exact Hlen).
    apply argsort_perm. }
  pose proof (perm_seq_lt _ _ Hperm) as Hlt.
  assert (Hkey : StronglySorted Z.le
                   (map (fun i => 128 * nth i idx 0 + nth i rws 0) perm)).
  { apply argsort_add_div_sorted. symmetry. exact Hlen. }
  assert (Hbins : Forall (fun v => exists b,
                   histc_bin (Z.quot ncols 128) 0 ncols v = Some (Z.of_nat b) /\
                   (b < Z.to_nat (Z.quot ncols 128))%nat) idx).
  { eapply Forall_impl; [exact Hrange|]. intros v Hv. simpl in Hv.
    destruct (histc_bin_div ncols v Hcols Hmod Hv) as [Hb Hq].
    exists (Z.to_nat (v / 128)). rewrite Z2Nat.id by lia.
    split; [exact Hb | lia]. }
  set (L := map (fun i => (nth i rws 0, nth i idx 0 / 128)) perm).
  assert (HL : blocks_by_column (view_offsets ncols idx) (gather rws perm) = L).
  { destruct (view_offsets_exact ncols idx Hbins Hbound) as [-> _].
    unfold blocks_by_column. simpl map at 2.
    assert (Hcounts :
              map (fun j => count_bin (Z.quot ncols 128) 0 ncols idx (Z.of_nat j))
                  (seq 0 (Z.to_nat (Z.quot ncols 128)))
              = map (fun j => col_count L (Z.of_nat j))
                    (seq 0 (Z.to_nat (Z.quot ncols 128)))).
    { apply map_ext. intros j. unfold count_bin, col_count, L. f_equal.
      rewrite filter_length_map. simpl.
      rewrite (filter_length_perm _ _ _ Hperm).
      rewrite <- (filter_length_map (fun c => c / 128 =? Z.of_nat j)
                                    (fun i => nth i idx 0)).
      rewrite map_nth_seq_id.
      apply filter_length_ext.
      eapply Forall_impl; [exact Hrange|]. intros v Hv. simpl in Hv.
      destruct (histc_bin_div ncols v Hcols Hmod Hv) as [Hb _].
      unfold in_bin. rewrite Hb. reflexivity. }
    rewrite Hcounts.
    replace (gather rws perm) with (map fst L)
      by (unfold L, gather; rewrite map_map; reflexivity).
    rewrite map_cons. cbv beta iota. change (0 * (128 * 128)) with 0.
    rewrite read_view.
    - rewrite map_map. simpl. rewrite <- (map_id L) at 2.
      apply map_ext. intros [r c]. reflexivity.
    - unfold L. revert Hkey.
      apply (StronglySorted_map_impl _ _ _ _
               (fun i => 0 <= nth i rws 0 < 128)).
      + intros i j Hi Hj H. unfold by_col. simpl.
        apply Z.div_le_mono; lia.
      + eapply Forall_impl; [exact Hlt|]. intros i Hi. simpl in Hi.
        pose proof (Forall_nth_lt _ rws 0 i
                      (row_idxs_range _ _ _ _ _ Hcsr)
                      ltac:(fold rws; rewrite Hlen; exact Hi)) as Hr.
        simpl in Hr.
        pose proof (block_rows_le_128 _ _ _ _ _ Hcsr). lia.
    - unfold L. apply Forall_map.
      eapply Forall_impl; [exact Hlt|]. intros i Hi. simpl in Hi |- *.
      pose proof (Forall_nth_lt _ idx 0 i Hrange Hi) as Hv. simpl in Hv.
      destruct (histc_bin_div ncols _ Hcols Hmod Hv) as [_ Hq].
      rewrite Z2Nat.id by lia. exact Hq. }
  assert (Hmain : Permutation L
            (map (fun p : Z * Z => (p.1, p.2 / 128))
                 (blocks_by_row (st (storage offsets)) idx))).
  { unfold idx. rewrite (blocks_by_row_combine _ _ _ _ _ Hcsr). fold rws idx.
    rewrite (combine_nth_seq rws idx 0 0 Hlen), map_map. simpl.
    rewrite Hlen. unfold L. apply Permutation_map. exact Hperm. }
  eexists. split; [apply (transpose_ok _ _ _ _ _ Hcsr Hcols)|].
  simpl fst. simpl snd. fold idx rws perm ncols. rewrite HL.
  split; [exact Hmain|].
  intros bcols Hb. rewrite Hmain, Hb.
  unfold blocks_by_row. destruct (st (storage offsets)) as [|o ptrs]; [constructor|].
  rewrite read_compressed_map, map_map. simpl.
  rewrite <- (map_id (read_compressed 1 o ptrs 0 bcols)) at 2.
  apply Permutation_refl'. apply map_ext. intros [r c]. simpl.
  rewrite Z.mul_comm, Z.div_mul by lia. reflexivity.
Qed.

(** C5 (as stated) fails: on the scenario with block-column indices the
    view files both blocks under block column 0, so the block at (0, 1) is
    lost and a block at (0, 0) appears. *)
Lemma transpose_view_loses_block :
  exists v,
    transpose Scenario.st_block_units Scenario.shape Scenario.data
              Scenario.offsets Scenario.indices = Ok v /\
    blocks_by_column v.1.2 v.1.1 = [(1, 0); (0, 0)] /\
    blocks_by_row (Scenario.st_block_units (storage Scenario.offsets))
                  (Scenario.st_block_units (storage Scenario.indices))
      = [(0, 1); (1, 0)] /\
    ~ Permutation (blocks_by_column v.1.2 v.1.1)
        (blocks_by_row (Scenario.st_block_units (storage Scenario.offsets))
                       (Scenario.st_block_units (storage Scenario.indices))).
Proof.
  eexists. split; [vm_compute; reflexivity|].
  split; [vm_compute; reflexivity|]. split; [vm_compute; reflexivity|].
  intros Hp.
  assert (Hin : In (0, 1) [(1, 0); (0, 0)]).
  { apply (Permutation_in (0, 1) (Permutation_sym Hp)).
    vm_compute. left. reflexivity. }
  simpl in Hin. destruct Hin as [H|[H|[]]]; discriminate H.
Qed.

Lemma scenario_csr (st : Store) :
  st 0%nat = [256; 256] -> st 2%nat = [0; 1; 2] -> length (st 3%nat) = 2%nat ->
  csr_descriptor st Scenario.shape Scenario.data Scenario.offsets Scenario.indices.
Proof.
  intros H0 H2 H3.
  constructor;
    unfold inv_multiples, inv_offsets_length, inv_offsets_sorted,
      inv_offsets_first, inv_offsets_last, shape_rows, shape_cols, INT_MAX;
    simpl; rewrite ?H0, ?H2, ?H3; simpl; try reflexivity; try lia.
  - split; reflexivity.
  - repeat constructor; lia.
  - vm_compute. discriminate.
Qed.


Lemma transpose_offsets_t_invariants_witness :
  (validate_sparse Scenario.shape Scenario.data Scenario.offsets Scenario.indices
     = Ok tt ->
   sizes Scenario.shape = [2] ->
   shape_rows Scenario.st_block_units Scenario.shape <= 128 * 128 ->
   128 <= shape_cols Scenario.st_block_units Scenario.shape ->
   exists v, transpose Scenario.st_block_units Scenario.shape Scenario.data
                       Scenario.offsets Scenario.indices = Ok v) /\
  (forall v,
      transpose Scenario.st_block_units Scenario.shape Scenario.data
                Scenario.offsets Scenario.indices = Ok v ->
      Z.of_nat (length v.1.2) =
        shape_cols Scenario.st_block_units Scenario.shape / 128 + 1 /\
      Sorted Z.le v.1.2 /\
      nth 0 v.1.2 0 = 0 /\
      List.last v.1.2 0 = numel Scenario.indices * (128 * 128)).
Proof.
  apply (transpose_offsets_t_invariants Scenario.st_block_units).
  - reflexivity.
  - unfold shape_cols. simpl. repeat constructor; lia.
  - vm_compute. discriminate.
Defined.

Lemma transpose_view_membership_witness :
  exists v,
    transpose Scenario.st_element_units Scenario.shape Scenario.data
              Scenario.offsets Scenario.indices = Ok v /\
    Permutation (blocks_by_column v.1.2 v.1.1)
      (map (fun p : Z * Z => (p.1, p.2 / 128))
           (blocks_by_row (Scenario.st_element_units (storage Scenario.offsets))
                          (Scenario.st_element_units (storage Scenario.indices)))) /\
    (forall bcols,
        Scenario.st_element_units (storage Scenario.indices) = map (Z.mul 128) bcols ->
        Permutation (blocks_by_column v.1.2 v.1.1)
                    (blocks_by_row
                       (Scenario.st_element_units (storage Scenario.offsets)) bcols)).
Proof.
  apply (transpose_view_membership Scenario.st_element_units).
  - apply scenario_csr; reflexivity.
  - unfold shape_cols. simpl. lia.
  - unfold shape_cols. simpl. repeat constructor; lia.
  - vm_compute. discriminate.
Defined.

(** ** The dispatchers *)

Lemma bind_assoc {A B C} (m : M A) (f : A -> M B) (g : B -> M C) w :
  bind (bind m f) g w = bind m (fun a => bind (f a) g) w.
Proof. unfold bind. destruct (m w) as [w1 [a|e]]; reflexivity. Qed.

Lemma bind_ok_inv {A B} (m : M A) (k : A -> M B) w w' b :
  bind m k w = (w', Ok b) ->
  exists w1 a, m w = (w1, Ok a) /\ k a w1 = (w', Ok b).
Proof.
  unfold bind. destruct (m w) as [w1 [a|e]]; intros H; [|discriminate].
  exists w1, a. split; [reflexivity | exact H].
Qed.

Lemma look_ok_inv {A} (f : Store -> result A) w w1 a :
  look f w = (w1, Ok a) -> w1 = w /\ f (store w) = Ok a.
Proof. unfold look. intros H. injection H as <- H. split; [reflexivity | exact H]. Qed.

Lemma emits_weaken (P Q : Event -> Prop) {A} (m : M A) :
  (forall e, P e -> Q e) -> emits P m -> emits Q m.
Proof.
  intros HPQ Hm w. destruct (Hm w) as (evs & Ht & Hall).
  exists evs. split; [exact Ht|]. eapply Forall_impl; [exact Hall | exact HPQ].
Qed.

Lemma emits_ret P {A} (a : A) : emits P (ret a).
Proof. intros w. exists []. simpl. rewrite app_nil_r. split; [reflexivity | constructor]. Qed.

Lemma emits_look P {A} (f : Store -> result A) : emits P (look f).
Proof. intros w. exists []. simpl. rewrite app_nil_r. split; [reflexivity | constructor]. Qed.

Lemma emits_emit (P : Event -> Prop) e : P e -> emits P (emit e).
Proof.
  intros He w. exists [e]. simpl. split; [reflexivity|].
  constructor; [exact He | constructor].
Qed.

Lemma emits_bind P {A B} (m : M A) (k : A -> M B) :
  emits P m -> (forall a, emits P (k a)) -> emits P (bind m k).
Proof.
  intros Hm Hk w. destruct (Hm w) as (evs1 & Ht1 & Hall1).
  unfold bind. destruct (m w) as [w1 [a|e]]; simpl in *.
  - destruct (Hk a w1) as (evs2 & Ht2 & Hall2).
    exists (evs1 ++ evs2). split.
    + rewrite Ht2, Ht1, app_assoc. reflexivity.
    + apply Forall_app. split; assumption.
  - exists evs1. split; assumption.
Qed.

Lemma emits_poke P t i v : emits P (poke t i v).
Proof.
  intros w. exists []. unfold poke.
  destruct (ScalarType_eqb (scalar_type t) Int); simpl; rewrite app_nil_r;
    (split; [reflexivity | constructor]).
Qed.

Lemma emits_standardize_shape P shape flag : emits P (standardize_shape shape flag).
Proof.
  unfold standardize_shape.
  repeat (apply emits_bind; [|intros ?]);
    first [apply emits_look | apply emits_poke].
Qed.

Lemma emits_read_flag P t : emits P (read_flag t).
Proof.
  unfold read_flag. apply emits_bind; [apply emits_look|].
  intros v. apply emits_ret.
Qed.

Section DispatchFacts.

Variable V : Operand -> bool -> Operand -> bool -> Operand -> bool.
Variable Mm : Operand -> bool -> Operand -> bool -> Operand -> bool.
Variable Mx : Operand -> bool -> Operand -> bool -> Operand -> bool.

Lemma emits_launch e l tl r tr o :
  emits not_validate (launch Mm Mx e l tl r tr o).
Proof.
  unfold launch, CALL_CUDA, check.
  apply emits_bind; [apply emits_emit; exact I|].
  intros _. apply emits_look.
Qed.

Lemma emits_call_transpose shape data offsets indices :
  emits not_validate (call_transpose shape data offsets indices).
Proof.
  unfold call_transpose.
  apply emits_bind; [apply emits_look|]. intros meta.
  repeat (apply emits_bind; [apply emits_emit; exact I|]; intros _).
  apply emits_ret.
Qed.

Lemma emits_call_allocate_bitmask m trans :
  emits not_validate (call_allocate_bitmask m trans).
Proof.
  unfold call_allocate_bitmask, check.
  apply emits_bind; [apply emits_look|]. intros bytes.
  apply emits_bind; [apply emits_emit; exact I|]. intros _.
  apply emits_ret.
Qed.

(** Steps that record nothing may precede the validation. *)
Lemma validation_first_quiet {A} (m : M A) (k : A -> M unit) t0 w :
  emits (fun _ => False) m ->
  (forall a w1, trace w1 = t0 -> validation_first V t0 (k a w1)) ->
  trace w = t0 ->
  validation_first V t0 (bind m k w).
Proof.
  intros Hm Hk Hw. destruct (Hm w) as (evs & Ht & Hall).
  destruct evs as [|e evs]; [|inversion Hall as [|? ? []]].
  rewrite app_nil_r in Ht.
  unfold bind. destruct (m w) as [w1 [a|e]]; simpl in Ht.
  - apply Hk. congruence.
  - left. simpl. congruence.
Qed.

(** After the validation only buffers and launches are recorded, and
    nothing at all when it refuses. *)
Lemma validation_first_here (k : M unit) l tl r tr o t0 w :
  emits not_validate k ->
  trace w = t0 ->
  validation_first V t0 (bind (valid_matmul V l tl r tr o) (fun _ => k) w).
Proof.
  intros Hk Hw. right. exists l, tl, r, tr, o.
  unfold valid_matmul, bind at 1 2, emit, check, look. simpl.
  destruct (V l tl r tr o) eqn:HV; simpl.
  - destruct (Hk (mkWorld (store w) (trace w ++ [Validate l tl r tr o true])))
      as (evs & Ht & Hall). simpl in Ht.
    exists evs. split; [|split].
    + rewrite Ht, Hw, <- app_assoc. reflexivity.
    + exact Hall.
    + discriminate.
  - exists []. split; [|split].
    + rewrite Hw. reflexivity.
    + constructor.
    + intros _. split; reflexivity.
Qed.

End DispatchFacts.

Ltac quiet_steps :=
  repeat first
    [ apply emits_look
    | apply emits_ret
    | apply emits_poke
    | apply emits_standardize_shape
    | apply emits_read_flag ].

Ltac tail_steps :=
  repeat first
    [ apply emits_launch
    | apply emits_call_transpose
    | apply emits_call_allocate_bitmask
    | apply emits_ret
    | apply emits_look
    | (apply emits_bind; [|intros ?])
    | match goal with
      | |- emits _ (if ?b then _ else _) => destruct b
      end ].

Ltac before_validation :=
  repeat (apply validation_first_quiet;
          [ solve [unfold check; quiet_steps] | intros ? ? ? | assumption ]).

(** C8: in each of the five operations the call of [ValidMatmul] is the
    first thing recorded: no buffer is handed out and no kernel is launched
    before it, and when it refuses the record ends there and the call
    fails with [InvalidArgument]. *)
Theorem validation_precedes_allocation
        (V Mm Mx : Operand -> bool -> Operand -> bool -> Operand -> bool) :
  (forall shape data offsets indices transpose_a rhs_t out_t w,
      validation_first V (trace w)
        (dsd V Mm Mx shape data offsets indices transpose_a rhs_t out_t w)) /\
  (forall lhs_t shape data offsets indices transpose_b out_t w,
      validation_first V (trace w)
        (dds V Mm Mx lhs_t shape data offsets indices transpose_b out_t w)) /\
  (forall lhs_t rhs_t shape data offsets indices w,
      validation_first V (trace w)
        (sdd V Mm Mx lhs_t rhs_t shape data offsets indices w)) /\
  (forall lhs_shape lhs_data lhs_offsets lhs_indices transpose_a rhs_t
          out_shape out_data out_offsets out_indices w,
      validation_first V (trace w)
        (ssd V Mm Mx lhs_shape lhs_data lhs_offsets lhs_indices transpose_a
             rhs_t out_shape out_data out_offsets out_indices w)) /\
  (forall lhs_shape lhs_data lhs_offsets lhs_indices transpose_a
          rhs_shape rhs_data rhs_offsets rhs_indices transpose_b out_t w,
      validation_first V (trace w)
        (dss V Mm Mx lhs_shape lhs_data lhs_offsets lhs_indices transpose_a
             rhs_shape rhs_data rhs_offsets rhs_indices transpose_b out_t w)).
Proof.
  split; [|split; [|split; [|split]]]; intros.
  - unfold dsd. generalize (eq_refl (trace w)). generalize (trace w) at 1 3.
    intros t0 Ht0. symmetry in Ht0. revert w Ht0.
    intros w Ht0. before_validation.
    apply validation_first_here; [tail_steps | assumption].
  - unfold dds. generalize (eq_refl (trace w)). generalize (trace w) at 1 3.
    intros t0 Ht0. symmetry in Ht0. before_validation.
    apply validation_first_here; [tail_steps | assumption].
  - unfold sdd. generalize (eq_refl (trace w)). generalize (trace w) at 1 3.
    intros t0 Ht0. symmetry in Ht0. before_validation.
    apply validation_first_here; [tail_steps | assumption].
  - unfold ssd. generalize (eq_refl (trace w)). generalize (trace w) at 1 3.
    intros t0 Ht0. symmetry in Ht0. before_validation.
    apply validation_first_here; [tail_steps | assumption].
  - unfold dss. generalize (eq_refl (trace w)). generalize (trace w) at 1 3.
    intros t0 Ht0. symmetry in Ht0. before_validation.
    apply validation_first_here; [tail_steps | assumption].
Qed.

(** *** Successful runs *)

Lemma read_flag_ok_inv t w w1 b :
  read_flag t w = (w1, Ok b) -> w1 = w.
Proof.
  unfold read_flag, bind, look, ret.
  destruct (access_metadata (store w) t 0); intros H; [|discriminate].
  injection H as <- _. reflexivity.
Qed.

Lemma standardize_shape_trace shape flag w w1 r :
  standardize_shape shape flag w = (w1, r) -> trace w1 = trace w.
Proof.
  intros H. destruct (emits_standardize_shape (fun _ => False) shape flag w)
    as (evs & Ht & Hall).
  rewrite H in Ht. simpl in Ht.
  destruct evs as [|e evs]; [|inversion Hall as [|? ? []]].
  rewrite app_nil_r in Ht. exact Ht.
Qed.

Lemma valid_matmul_ok_inv V l tl r tr o w w1 :
  valid_matmul V l tl r tr o w = (w1, Ok tt) ->
  V l tl r tr o = true /\
  w1 = mkWorld (store w) (trace w ++ [Validate l tl r tr o true]).
Proof.
  unfold valid_matmul, bind, emit, check, look. simpl.
  destruct (V l tl r tr o); simpl; intros H; [|discriminate].
  injection H as <-. split; reflexivity.
Qed.

Lemma launch_ok_inv Mm Mx e l tl r tr o w w1 :
  launch Mm Mx e l tl r tr o w = (w1, Ok tt) ->
  w1 = mkWorld (store w) (trace w ++ [Kernel e l tl r tr o]).
Proof.
  unfold launch, CALL_CUDA, bind, emit, check, look. simpl.
  destruct (match e with Plain => _ | Extended => _ end); simpl; intros H;
    [|discriminate].
  injection H as <-. reflexivity.
Qed.

Lemma call_transpose_ok_inv shape data offsets indices w w1 meta :
  call_transpose shape data offsets indices w = (w1, Ok meta) ->
  transpose (store w) shape data offsets indices = Ok meta /\
  w1 = mkWorld (store w) (trace w ++ view_allocs meta).
Proof.
  unfold call_transpose, bind, emit, look, ret. simpl.
  destruct (transpose (store w) shape data offsets indices) as [m|e]; simpl;
    intros H; [|discriminate].
  injection H as <- <-. split; [reflexivity|].
  unfold view_allocs. rewrite <- !app_assoc. reflexivity.
Qed.

Lemma call_allocate_bitmask_ok_inv m trans w w1 bytes :
  call_allocate_bitmask m trans w = (w1, Ok bytes) ->
  allocate_bitmask m trans = Ok bytes /\
  w1 = mkWorld (store w) (trace w ++ [Alloc (BufBitmask bytes)]).
Proof.
  unfold call_allocate_bitmask, bind, emit, check, look, ret. simpl.
  destruct (allocate_bitmask m trans) as [b|e]; simpl; intros H; [|discriminate].
  injection H as <- <-. split; reflexivity.
Qed.

Lemma as_block_matrix_plain st shape data offsets indices m :
  as_block_matrix st shape data offsets indices = Ok m -> plain_descriptor m.
Proof.
  unfold as_block_matrix. intros H.
  apply rbind_ok_inv in H. destruct H as (_ & _ & H).
  apply rbind_ok_inv in H. destruct H as (r & _ & H).
  apply rbind_ok_inv in H. destruct H as (c & _ & H).
  injection H as <-. repeat split.
Qed.

(** One step of a successful run. *)
Ltac run_step H :=
  let w1 := fresh "w" in
  let a := fresh "a" in
  let Hs := fresh "Hs" in
  apply bind_ok_inv in H; destruct H as (w1 & a & Hs & H);
  try (match type of a with unit => destruct a end);
  lazymatch type of Hs with
  | valid_matmul _ _ _ _ _ _ _ = _ =>
      apply valid_matmul_ok_inv in Hs; destruct Hs as [Hs ->]
  | call_transpose _ _ _ _ _ = _ =>
      apply call_transpose_ok_inv in Hs; destruct Hs as [Hs ->]
  | call_allocate_bitmask _ _ _ = _ =>
      apply call_allocate_bitmask_ok_inv in Hs; destruct Hs as [Hs ->]
  | read_flag _ _ = _ =>
      pose proof (read_flag_ok_inv _ _ _ _ Hs); subst w1
  | standardize_shape _ _ _ = _ =>
      pose proof (standardize_shape_trace _ _ _ _ _ Hs)
  | look _ _ = _ =>
      apply look_ok_inv in Hs; destruct Hs as [-> Hs]
  end.

(** *** Which buffers a call writes *)

Lemma writes_ret S {A} (a : A) : writes_only S (ret a).
Proof. intros w h _. reflexivity. Qed.

Lemma writes_look S {A} (f : Store -> result A) : writes_only S (look f).
Proof. intros w h _. reflexivity. Qed.

Lemma writes_emit S e : writes_only S (emit e).
Proof. intros w h _. reflexivity. Qed.

Lemma writes_bind S {A B} (m : M A) (k : A -> M B) :
  writes_only S m -> (forall a, writes_only S (k a)) -> writes_only S (bind m k).
Proof.
  intros Hm Hk w h Hh. specialize (Hm w h Hh).
  unfold bind. destruct (m w) as [w1 [a|e]]; simpl in *.
  - rewrite (Hk a w1 h Hh). exact Hm.
  - exact Hm.
Qed.

Lemma writes_poke (S : nat -> Prop) t i v :
  S (storage t) -> writes_only S (poke t i v).
Proof.
  intros Ht w h Hh. unfold poke.
  destruct (ScalarType_eqb (scalar_type t) Int); simpl; [|reflexivity].
  destruct (Nat.eqb_spec h (storage t)) as [->|_]; [contradiction | reflexivity].
Qed.

Lemma writes_standardize_shape (S : nat -> Prop) shape flag :
  S (storage shape) -> writes_only S (standardize_shape shape flag).
Proof.
  intros Hs. unfold standardize_shape.
  repeat (apply writes_bind; [|intros ?]);
    first [apply writes_look | apply writes_poke; exact Hs].
Qed.

Lemma writes_read_flag S t : writes_only S (read_flag t).
Proof.
  unfold read_flag. apply writes_bind; [apply writes_look|].
  intros v. apply writes_ret.
Qed.

Lemma writes_valid_matmul S V l tl r tr o : writes_only S (valid_matmul V l tl r tr o).
Proof.
  unfold valid_matmul, check. apply writes_bind; [apply writes_emit|].
  intros _. apply writes_look.
Qed.

Lemma writes_launch S Mm Mx e l tl r tr o :
  writes_only S (launch Mm Mx e l tl r tr o).
Proof.
  unfold launch, CALL_CUDA, check. apply writes_bind; [apply writes_emit|].
  intros _. apply writes_look.
Qed.

Lemma writes_call_transpose S shape data offsets indices :
  writes_only S (call_transpose shape data offsets indices).
Proof.
  unfold call_transpose.
  apply writes_bind; [apply writes_look|]. intros meta.
  repeat (apply writes_bind; [apply writes_emit|]; intros _).
  apply writes_ret.
Qed.

Lemma writes_call_allocate_bitmask S m trans :
  writes_only S (call_allocate_bitmask m trans).
Proof.
  unfold call_allocate_bitmask, check.
  apply writes_bind; [apply writes_look|]. intros bytes.
  apply writes_bind; [apply writes_emit|]. intros _.
  apply writes_ret.
Qed.

Ltac writes_steps :=
  repeat first
    [ apply writes_look
    | apply writes_ret
    | apply writes_read_flag
    | apply writes_valid_matmul
    | apply writes_launch
    | apply writes_call_transpose
    | apply writes_call_allocate_bitmask
    | (apply writes_standardize_shape; solve [auto])
    | (apply writes_bind; [|intros ?])
    | match goal with
      | |- writes_only _ (if ?b then _ else _) => destruct b
      end ].

(** What a descriptor and a flag read depend on. *)
Lemma access_metadata_ext st st' m idx :
  st' (storage m) = st (storage m) ->
  access_metadata st' m idx = access_metadata st m idx.
Proof. intros H. unfold access_metadata. rewrite H. reflexivity. Qed.

Lemma as_block_matrix_ext st st' shape data offsets indices :
  st' (storage shape) = st (storage shape) ->
  as_block_matrix st' shape data offsets indices =
    as_block_matrix st shape data offsets indices.
Proof.
  intros H. unfold as_block_matrix.
  rewrite !(access_metadata_ext st st') by exact H. reflexivity.
Qed.

Lemma read_flag_ext t w w' b :
  store w' (storage t) = store w (storage t) ->
  read_flag t w = (w, Ok b) -> read_flag t w' = (w', Ok b).
Proof.
  unfold read_flag, bind, look, ret. intros H.
  rewrite (access_metadata_ext (store w) (store w')) by exact H.
  destruct (access_metadata (store w) t 0); intros E; [|discriminate].
  injection E as <-. reflexivity.
Qed.

(** *** The transpose-metadata rule *)

Section Rule.

Variable V : Operand -> bool -> Operand -> bool -> Operand -> bool.
Variable Mm : Operand -> bool -> Operand -> bool -> Operand -> bool.
Variable Mx : Operand -> bool -> Operand -> bool -> Operand -> bool.

Lemma dsd_record shape data offsets indices transpose_a rhs_t out_t w w' :
  dsd V Mm Mx shape data offsets indices transpose_a rhs_t out_t w = (w', Ok tt) ->
  dsd_rule shape data offsets indices transpose_a rhs_t out_t w w'.
Proof.
  unfold dsd_rule.
  intros H. unfold dsd, check in H.
  do 8 run_step H.
  match goal with Hf : read_flag _ _ = (_, Ok ?f) |- _ => destruct f end.
  - run_step H. apply launch_ok_inv in H. subst w'. simpl.
    eexists true, _, _, _, (Some _).
    split; [eassumption|]. split; [eassumption|].
    split; [eapply as_block_matrix_plain; eassumption|].
    split; [eassumption|]. split; [eassumption|]. split.
    + eexists. split; [reflexivity | eassumption].
    + match goal with Ht : trace _ = trace w |- _ => rewrite Ht end.
      rewrite <- !app_assoc. reflexivity.
  - apply launch_ok_inv in H. subst w'. simpl.
    eexists false, _, _, _, None.
    split; [eassumption|]. split; [eassumption|].
    split; [eapply as_block_matrix_plain; eassumption|].
    split; [eassumption|]. split; [eassumption|]. split.
    + reflexivity.
    + match goal with Ht : trace _ = trace w |- _ => rewrite Ht end.
      rewrite <- !app_assoc. reflexivity.
Qed.

Lemma ssd_record lhs_shape lhs_data lhs_offsets lhs_indices transpose_a rhs_t
      out_shape out_data out_offsets out_indices w w' :
  ssd V Mm Mx lhs_shape lhs_data lhs_offsets lhs_indices transpose_a rhs_t
      out_shape out_data out_offsets out_indices w = (w', Ok tt) ->
  ssd_rule lhs_shape lhs_data lhs_offsets lhs_indices transpose_a rhs_t
    out_shape out_data out_offsets out_indices w w'.
Proof.
  unfold ssd_rule.
  intros H. unfold ssd, check in H.
  do 8 run_step H.
  match goal with Hf : read_flag _ _ = (_, Ok ?f) |- _ => destruct f end.
  - run_step H. apply launch_ok_inv in H. subst w'. simpl.
    eexists true, _, _, _, (Some _).
    split; [eassumption|]. split; [eassumption|].
    split; [eapply as_block_matrix_plain; eassumption|].
    split; [eassumption|]. split; [eassumption|]. split.
    + eexists. split; [reflexivity | eassumption].
    + match goal with Ht : trace _ = trace w |- _ => rewrite Ht end.
      rewrite <- !app_assoc. reflexivity.
  - apply launch_ok_inv in H. subst w'. simpl.
    eexists false, _, _, _, None.
    split; [eassumption|]. split; [eassumption|].
    split; [eapply as_block_matrix_plain; eassumption|].
    split; [eassumption|]. split; [eassumption|]. split.
    + reflexivity.
    + match goal with Ht : trace _ = trace w |- _ => rewrite Ht end.
      rewrite <- !app_assoc. reflexivity.
Qed.

Lemma dds_record lhs_t shape data offsets indices transpose_b out_t w w' :
  dds V Mm Mx lhs_t shape data offsets indices transpose_b out_t w = (w', Ok tt) ->
  dds_rule lhs_t shape data offsets indices transpose_b out_t w w'.
Proof.
  unfold dds_rule.
  intros H. unfold dds, check in H.
  do 8 run_step H.
  match goal with Hf : read_flag _ _ = (_, Ok ?f) |- _ => destruct f end;
    simpl negb in H.
  - apply launch_ok_inv in H. subst w'. simpl.
    eexists true, _, _, _, None.
    split; [eassumption|]. split; [eassumption|]. split; [eassumption|].
    split; [eapply as_block_matrix_plain; eassumption|].
    split; [eassumption|]. split.
    + reflexivity.
    + match goal with Ht : trace _ = trace w |- _ => rewrite Ht end.
      rewrite <- !app_assoc. reflexivity.
  - run_step H. apply launch_ok_inv in H. subst w'. simpl.
    eexists false, _, _, _, (Some _).
    split; [eassumption|]. split; [eassumption|]. split; [eassumption|].
    split; [eapply as_block_matrix_plain; eassumption|].
    split; [eassumption|]. split.
    + eexists. split; [reflexivity | eassumption].
    + match goal with Ht : trace _ = trace w |- _ => rewrite Ht end.
      rewrite <- !app_assoc. reflexivity.
Qed.



End Rule.


Lemma completed_run (x : World * result unit) : x.2 = Ok tt -> x = (x.1, Ok tt).
Proof. destruct x as [w r]. simpl. intros ->. reflexivity. Qed.



(** *** The shape tensor is rewritten in place *)

Lemma standardize_shape_ok_store shape flag w w1 r c :
  standardize_shape shape flag w = (w1, Ok tt) ->
  store w (storage shape) = [r; c] ->
  store w1 (storage shape) = (if flag then [c; r] else [r; c]).
Proof.
  intros H Hst.
  assert (Hacc : scalar_type shape = Int /\ ndimension shape = 1).
  { unfold standardize_shape in H. apply bind_ok_inv in H.
    destruct H as (w2 & a & Hs & _). apply look_ok_inv in Hs.
    destruct Hs as [_ Hs].
    assert (Hx : exists i v, access_metadata (store w) shape i = Ok v)
      by (destruct flag; eauto).
    destruct Hx as (i & v & Hx). unfold access_metadata in Hx.
    apply rbind_ok_inv in Hx. destruct Hx as ([] & Hc & _).
    apply TORCH_CHECK_ok, andb_true_iff in Hc. destruct Hc as [Hty Hdim].
    apply ScalarType_eqb_eq in Hty. apply Z.eqb_eq in Hdim.
    split; assumption. }
  destruct Hacc as [Hty Hdim].
  destruct (standardize_shape_run shape flag w r c Hty Hdim Hst)
    as (w' & Hrun & _ & Hs & _).
  rewrite H in Hrun. injection Hrun as <-. exact Hs.
Qed.

(** A call that has recorded something got past every step that records
    nothing. *)
Lemma reach_quiet {A} (m : M A) (k : A -> M unit) (w : World) (t0 : list Event) :
  emits (fun _ => False) m ->
  trace w = t0 ->
  trace (bind m k w).1 <> t0 ->
  exists a w1, m w = (w1, Ok a) /\ trace w1 = t0 /\ bind m k w = k a w1.
Proof.
  intros Hm Hw. destruct (Hm w) as (evs & Ht & Hall).
  destruct evs as [|e evs]; [|inversion Hall as [|? ? []]].
  rewrite app_nil_r in Ht.
  unfold bind. destruct (m w) as [w1 [a|e]]; simpl in Ht |- *.
  - intros _. exists a, w1. split; [reflexivity|]. split; [congruence | reflexivity].
  - intros Hne. congruence.
Qed.

Ltac reach_step Hne Ht :=
  let a := fresh "a" in
  let w1 := fresh "w" in
  let Hs := fresh "Hs" in
  let Hq := fresh "Hq" in
  let Heq := fresh "Heq" in
  let Ht' := fresh "Ht" in
  lazymatch type of Hne with
  | trace (bind ?m ?k ?w).1 <> _ =>
      assert (Hq : emits (fun _ => False) m) by (unfold check; quiet_steps);
      destruct (reach_quiet m k w _ Hq Ht Hne) as (a & w1 & Hs & Ht' & Heq);
      rewrite Heq in Hne |- *; clear Hq Heq; clear Ht; rename Ht' into Ht;
      try (match type of a with unit => destruct a end);
      lazymatch type of Hs with
      | read_flag _ _ = _ =>
          pose proof (read_flag_ok_inv _ _ _ _ Hs); subst w1
      | standardize_shape _ _ _ = _ => idtac
      | look _ _ = _ =>
          apply look_ok_inv in Hs; destruct Hs as [-> Hs]
      end
  end.

Lemma standardize_shape_other shape flag w w1 r h :
  standardize_shape shape flag w = (w1, r) ->
  h <> storage shape -> store w1 h = store w h.
Proof.
  intros H Hh.
  pose proof (writes_standardize_shape (fun x => x = storage shape) shape flag
                eq_refl w h Hh) as Hw.
  rewrite H in Hw. exact Hw.
Qed.

Section InPlace.

Variable V : Operand -> bool -> Operand -> bool -> Operand -> bool.
Variable Mm : Operand -> bool -> Operand -> bool -> Operand -> bool.
Variable Mx : Operand -> bool -> Operand -> bool -> Operand -> bool.

Lemma dsd_writes shape data offsets indices transpose_a rhs_t out_t :
  writes_only (fun h => h = storage shape)
    (dsd V Mm Mx shape data offsets indices transpose_a rhs_t out_t).
Proof. unfold dsd, check. writes_steps. Qed.

Lemma dsd_normalizes shape data offsets indices transpose_a rhs_t out_t w r c :
  let w' := (dsd V Mm Mx shape data offsets indices transpose_a rhs_t out_t w).1 in
  store w (storage shape) = [r; c] ->
  trace w' <> trace w ->
  exists flag,
    read_flag transpose_a w = (w, Ok flag) /\
    store w' (storage shape) = (if flag then [c; r] else [r; c]).
Proof.
  intros w' Hst Hne. unfold w', dsd, check in *. clear w'.
  pose proof (eq_refl (trace w)) as Ht.
  do 4 reach_step Hne Ht.
  match goal with |- context [(bind ?m ?k ?wx).1] =>
    assert (Hfr : writes_only (fun _ => False) (bind m k)) by writes_steps
  end.
  eexists. split; [eassumption|].
  rewrite Hfr by tauto.
  eapply standardize_shape_ok_store; eassumption.
Qed.

Lemma ssd_writes lhs_shape lhs_data lhs_offsets lhs_indices transpose_a rhs_t
      out_shape out_data out_offsets out_indices :
  writes_only (fun h => h = storage lhs_shape)
    (ssd V Mm Mx lhs_shape lhs_data lhs_offsets lhs_indices transpose_a rhs_t
         out_shape out_data out_offsets out_indices).
Proof. unfold ssd, check. writes_steps. Qed.

Lemma ssd_normalizes lhs_shape lhs_data lhs_offsets lhs_indices transpose_a rhs_t
      out_shape out_data out_offsets out_indices w r c :
  let w' := (ssd V Mm Mx lhs_shape lhs_data lhs_offsets lhs_indices transpose_a
                 rhs_t out_shape out_data out_offsets out_indices w).1 in
  store w (storage lhs_shape) = [r; c] ->
  trace w' <> trace w ->
  exists flag,
    read_flag transpose_a w = (w, Ok flag) /\
    store w' (storage lhs_shape) = (if flag then [c; r] else [r; c]).
Proof.
  intros w' Hst Hne. unfold w', ssd, check in *. clear w'.
  pose proof (eq_refl (trace w)) as Ht.
  do 4 reach_step Hne Ht.
  match goal with |- context [(bind ?m ?k ?wx).1] =>
    assert (Hfr : writes_only (fun _ => False) (bind m k)) by writes_steps
  end.
  eexists. split; [eassumption|].
  rewrite Hfr by tauto.
  eapply standardize_shape_ok_store; eassumption.
Qed.

Lemma dds_writes lhs_t shape data offsets indices transpose_b out_t :
  writes_only (fun h => h = storage shape)
    (dds V Mm Mx lhs_t shape data offsets indices transpose_b out_t).
Proof. unfold dds, check. writes_steps. Qed.

Lemma dds_normalizes lhs_t shape data offsets indices transpose_b out_t w r c :
  let w' := (dds V Mm Mx lhs_t shape data offsets indices transpose_b out_t w).1 in
  store w (storage shape) = [r; c] ->
  trace w' <> trace w ->
  exists flag,
    read_flag transpose_b w = (w, Ok flag) /\
    store w' (storage shape) = (if flag then [c; r] else [r; c]).
Proof.
  intros w' Hst Hne. unfold w', dds, check in *. clear w'.
  pose proof (eq_refl (trace w)) as Ht.
  do 5 reach_step Hne Ht.
  match goal with |- context [(bind ?m ?k ?wx).1] =>
    assert (Hfr : writes_only (fun _ => False) (bind m k)) by writes_steps
  end.
  eexists. split; [eassumption|].
  rewrite Hfr by tauto.
  eapply standardize_shape_ok_store; eassumption.
Qed.

Lemma sdd_writes lhs_t rhs_t shape data offsets indices :
  writes_only (fun _ => False) (sdd V Mm Mx lhs_t rhs_t shape data offsets indices).
Proof. unfold sdd, check. writes_steps. Qed.

Lemma dss_writes lhs_shape lhs_data lhs_offsets lhs_indices transpose_a
      rhs_shape rhs_data rhs_offsets rhs_indices transpose_b out_t :
  writes_only (fun h => h = storage lhs_shape \/ h = storage rhs_shape)
    (dss V Mm Mx lhs_shape lhs_data lhs_offsets lhs_indices transpose_a
         rhs_shape rhs_data rhs_offsets rhs_indices transpose_b out_t).
Proof. unfold dss, check. writes_steps. Qed.

Lemma dss_normalizes lhs_shape lhs_data lhs_offsets lhs_indices transpose_a
      rhs_shape rhs_data rhs_offsets rhs_indices transpose_b out_t w r1 c1 r2 c2 :
  let w' := (dss V Mm Mx lhs_shape lhs_data lhs_offsets lhs_indices transpose_a
                 rhs_shape rhs_data rhs_offsets rhs_indices transpose_b out_t w).1 in
  storage lhs_shape <> storage rhs_shape ->
  storage transpose_b <> storage lhs_shape ->
  store w (storage lhs_shape) = [r1; c1] ->
  store w (storage rhs_shape) = [r2; c2] ->
  trace w' <> trace w ->
  exists fa fb,
    read_flag transpose_a w = (w, Ok fa) /\
    read_flag transpose_b w = (w, Ok fb) /\
    store w' (storage lhs_shape) = (if fa then [c1; r1] else [r1; c1]) /\
    store w' (storage rhs_shape) = (if fb then [c2; r2] else [r2; c2]).
Proof.
  intros w' Hshapes Hflag Hl Hr Hne. unfold w', dss, check in *. clear w'.
  pose proof (eq_refl (trace w)) as Ht.
  do 4 reach_step Hne Ht.
  match goal with
  | Hstd : standardize_shape lhs_shape ?fa w = (?wl, _) |- _ =>
      pose proof (standardize_shape_ok_store _ _ _ _ _ _ Hstd Hl) as Hl';
      pose proof (standardize_shape_other _ _ _ _ _ (storage rhs_shape) Hstd
                    ltac:(congruence)) as Hr';
      pose proof (standardize_shape_other _ _ _ _ _ (storage transpose_b) Hstd
                    Hflag) as Hb'
  end.
  do 5 reach_step Hne Ht.
  match goal with |- context [(bind ?m ?k ?wx).1] =>
    assert (Hfr : writes_only (fun _ => False) (bind m k)) by writes_steps
  end.
  match goal with
  | Hstd : standardize_shape rhs_shape ?fb ?wl = (?wr, _) |- _ =>
      pose proof (standardize_shape_ok_store _ _ _ _ r2 c2 Hstd
                    ltac:(congruence)) as Hr'';
      pose proof (standardize_shape_other _ _ _ _ _ (storage lhs_shape) Hstd
                    ltac:(congruence)) as Hl''
  end.
  do 2 eexists. split; [eassumption|]. split; [|split].
  - eapply read_flag_ext; [|eassumption]. symmetry. exact Hb'.
  - rewrite Hfr by tauto. rewrite Hl''. exact Hl'.
  - rewrite Hfr by tauto. exact Hr''.
Qed.

End InPlace.

(** C9 (as amended): [dsd], [dds], [ssd] and [dss] write nothing but the
    shape tensors they are given - the data, offsets and indices buffers
    are left as they were - and a call that gets as far as the validation
    has rewritten the shape tensor in place: it holds (cols, rows) when the
    flag is set and (rows, cols) when it is clear.  For [dss] this holds
    for both operands when their shape tensors are distinct buffers (and
    the right flag is not a view of the left shape). *)
Theorem shape_written_in_place
        (V Mm Mx : Operand -> bool -> Operand -> bool -> Operand -> bool) :
  (forall shape data offsets indices transpose_a rhs_t out_t w,
      let w' := (dsd V Mm Mx shape data offsets indices transpose_a rhs_t
                     out_t w).1 in
      (forall h, h <> storage shape -> store w' h = store w h) /\
      (forall r c,
          store w (storage shape) = [r; c] ->
          trace w' <> trace w ->
          exists flag,
            read_flag transpose_a w = (w, Ok flag) /\
            store w' (storage shape) = (if flag then [c; r] else [r; c]))) /\
  (forall lhs_t shape data offsets indices transpose_b out_t w,
      let w' := (dds V Mm Mx lhs_t shape data offsets indices transpose_b
                     out_t w).1 in
      (forall h, h <> storage shape -> store w' h = store w h) /\
      (forall r c,
          store w (storage shape) = [r; c] ->
          trace w' <> trace w ->
          exists flag,
            read_flag transpose_b w = (w, Ok flag) /\
            store w' (storage shape) = (if flag then [c; r] else [r; c]))) /\
  (forall lhs_shape lhs_data lhs_offsets lhs_indices transpose_a rhs_t
          out_shape out_data out_offsets out_indices w,
      let w' := (ssd V Mm Mx lhs_shape lhs_data lhs_offsets lhs_indices
                     transpose_a rhs_t out_shape out_data out_offsets
                     out_indices w).1 in
      (forall h, h <> storage lhs_shape -> store w' h = store w h) /\
      (forall r c,
          store w (storage lhs_shape) = [r; c] ->
          trace w' <> trace w ->
          exists flag,
            read_flag transpose_a w = (w, Ok flag) /\
            store w' (storage lhs_shape) = (if flag then [c; r] else [r; c]))) /\
  (forall lhs_shape lhs_data lhs_offsets lhs_indices transpose_a
          rhs_shape rhs_data rhs_offsets rhs_indices transpose_b out_t w,
      let w' := (dss V Mm Mx lhs_shape lhs_data lhs_offsets lhs_indices
                     transpose_a rhs_shape rhs_data rhs_offsets rhs_indices
                     transpose_b out_t w).1 in
      (forall h, h <> storage lhs_shape -> h <> storage rhs_shape ->
                 store w' h = store w h) /\
      (forall r1 c1 r2 c2,
          storage lhs_shape <> storage rhs_shape ->
          storage transpose_b <> storage lhs_shape ->
          store w (storage lhs_shape) = [r1; c1] ->
          store w (storage rhs_shape) = [r2; c2] ->
          trace w' <> trace w ->
          exists fa fb,
            read_flag transpose_a w = (w, Ok fa) /\
            read_flag transpose_b w = (w, Ok fb) /\
            store w' (storage lhs_shape) = (if fa then [c1; r1] else [r1; c1]) /\
            store w' (storage rhs_shape) = (if fb then [c2; r2] else [r2; c2]))).
Proof.
  split; [|split; [|split]]; intros; split.
  - intros h Hh. apply (dsd_writes V Mm Mx). exact Hh.
  - apply dsd_normalizes.
  - intros h Hh. apply (dds_writes V Mm Mx). exact Hh.
  - apply dds_normalizes.
  - intros h Hh. apply (ssd_writes V Mm Mx). exact Hh.
  - apply ssd_normalizes.
  - intros h Hl Hr. apply (dss_writes V Mm Mx). tauto.
  - apply dss_normalizes.
Qed.

Lemma shape_written_in_place_witness :
  (exists flag,
      read_flag Inputs.flag_set Inputs.w0 = (Inputs.w0, Ok flag) /\
      store (dsd always always always
                 Inputs.shape Inputs.data Inputs.offsets Inputs.indices
                 Inputs.flag_set Inputs.dense_128_128 Inputs.dense_256_128
                 Inputs.w0).1 (storage Inputs.shape)
      = (if flag then [256; 128] else [128; 256])) /\
  (exists flag,
      read_flag Inputs.flag_clear Inputs.w0 = (Inputs.w0, Ok flag) /\
      store (dds always always always
                 Inputs.dense_128_128 Inputs.shape Inputs.data Inputs.offsets
                 Inputs.indices Inputs.flag_clear Inputs.dense_128_128
                 Inputs.w0).1 (storage Inputs.shape)
      = (if flag then [256; 128] else [128; 256])) /\
  (exists flag,
      read_flag Inputs.flag_clear Inputs.w0 = (Inputs.w0, Ok flag) /\
      store (ssd always always always
                 Inputs.shape Inputs.data Inputs.offsets Inputs.indices
                 Inputs.flag_clear Inputs.dense_256_128
                 Inputs.out_shape Inputs.out_data Inputs.out_offsets
                 Inputs.out_indices Inputs.w0).1 (storage Inputs.shape)
      = (if flag then [256; 128] else [128; 256])) /\
  (exists fa fb,
      read_flag Inputs.flag_set Inputs.w0 = (Inputs.w0, Ok fa) /\
      read_flag Inputs.flag_clear Inputs.w0 = (Inputs.w0, Ok fb) /\
      store (dss always always always
                 Inputs.shape Inputs.data Inputs.offsets Inputs.indices
                 Inputs.flag_set
                 Inputs.square_shape Inputs.out_data Inputs.out_offsets
                 Inputs.out_indices Inputs.flag_clear
                 Inputs.dense_256_128 Inputs.w0).1 (storage Inputs.shape)
      = (if fa then [256; 128] else [128; 256]) /\
      store (dss always always always
                 Inputs.shape Inputs.data Inputs.offsets Inputs.indices
                 Inputs.flag_set
                 Inputs.square_shape Inputs.out_data Inputs.out_offsets
                 Inputs.out_indices Inputs.flag_clear
                 Inputs.dense_256_128 Inputs.w0).1 (storage Inputs.square_shape)
      = (if fb then [128; 128] else [128; 128])).
Proof.
  destruct (shape_written_in_place always always always)
    as (Hdsd & Hdds & Hssd & Hdss).
  split; [|split; [|split]].
  - apply Hdsd; [reflexivity | vm_compute; discriminate].
  - apply Hdds; [reflexivity | vm_compute; discriminate].
  - apply Hssd; [reflexivity | vm_compute; discriminate].
  - apply Hdss;
      [ vm_compute; discriminate | vm_compute; discriminate
      | reflexivity | reflexivity | vm_compute; discriminate ].
Defined.

(** One tensor passed as the shape of both operands of [dss] with both
    flags set is normalised twice, whatever the sputnik entry points
    answer: the call gets as far as the validation and the shape tensor,
    which held (128, 256), holds (128, 256) again. *)
Lemma dss_shared_shape
      (V Mm Mx : Operand -> bool -> Operand -> bool -> Operand -> bool) :
  let out := dss V Mm Mx
                 Inputs.shape Inputs.data Inputs.offsets Inputs.indices
                 Inputs.flag_set
                 Inputs.shape Inputs.data Inputs.offsets Inputs.indices
                 Inputs.flag_set
                 Inputs.dense_128_128 Inputs.w0 in
  trace out.1 <> trace Inputs.w0 /\
  store out.1 (storage Inputs.shape) = [128; 256].
Proof.
  intros out. split.
  - unfold out. cbv.
    match goal with |- context [V ?a ?b ?c ?d ?e] => destruct (V a b c d e) end;
      cbv; discriminate.
  - unfold out. cbv.
    match goal with |- context [V ?a ?b ?c ?d ?e] => destruct (V a b c d e) end;
      cbv; reflexivity.
Qed.

(** C9 (as stated) fails: in the [dss] call that passes one tensor as the
    shape of both operands, with both flags set, the shape tensor held
    (128, 256) before the call; the call reaches the validation and
    completes, and the tensor holds (128, 256), not the swapped
    (256, 128). *)
Lemma dss_shared_shape_counterexample :
  read_flag Inputs.flag_set Inputs.w0 = (Inputs.w0, Ok true) /\
  store Inputs.w0 (storage Inputs.shape) = [128; 256] /\
  (dss always always always
       Inputs.shape Inputs.data Inputs.offsets Inputs.indices Inputs.flag_set
       Inputs.shape Inputs.data Inputs.offsets Inputs.indices Inputs.flag_set
       Inputs.dense_128_128 Inputs.w0).2 = Ok tt /\
  store (dss always always always
             Inputs.shape Inputs.data Inputs.offsets Inputs.indices
             Inputs.flag_set
             Inputs.shape Inputs.data Inputs.offsets Inputs.indices
             Inputs.flag_set
             Inputs.dense_128_128 Inputs.w0).1 (storage Inputs.shape)
    <> [256; 128].
Proof.
  split; [reflexivity|]. split; [reflexivity|].
  split; [vm_compute; reflexivity|].
  pose proof (proj2 (dss_shared_shape always always always)) as Hst.
  cbv zeta in Hst. intros Hc. rewrite Hst in Hc. discriminate Hc.
Qed.

Lemma validate_sparse_accepts_iff_witness :
  as_block_matrix bad_store bad_shape bad_data bad_offsets bad_indices =
    Ok (mkBlockMatrix (shape_rows bad_store bad_shape)
          (shape_cols bad_store bad_shape) 128
          (to_int (numel bad_indices))
          (storage bad_data) (storage bad_offsets) (storage bad_indices)
          None None None None).
Proof.
  apply (proj1 (proj2 validate_sparse_accepts_iff)); reflexivity.
Defined.

(** * Further properties of the transpose helper *)

(** What a returned view is made of, whatever the offsets and indices
    buffers hold: the block rows gathered along the sorting permutation,
    the offsets computed from the histogram, and the byte offsets gathered
    along the same permutation. *)
Lemma transpose_result st shape data offsets indices v :
  transpose st shape data offsets indices = Ok v ->
  numel indices = Z.of_nat (length (st (storage indices))) ->
  numel indices <= INT_MAX ->
  v = (gather (row_idxs st shape data offsets indices)
              (gather_indices st shape data offsets indices),
       view_offsets (shape_cols st shape) (st (storage indices)),
       gather (linspace 0
                 ((Z.of_nat (length (st (storage indices))) - 1)
                  * (128 * 128 * sizeof_half))
                 (Z.of_nat (length (st (storage indices)))))
              (gather_indices st shape data offsets indices)).
Proof.
  intros Hv Hn Hmax.
  destruct (transpose_inv _ _ _ _ _ _ Hv) as (Hval & Hty & Hdim & Hrows & HB & _).
  pose proof Hval as Hval'. apply validate_sparse_ok in Hval'.
  destruct Hval' as (_ & Hbs & _).
  assert (Hnz : to_int (numel indices) = Z.of_nat (length (st (storage indices)))).
  { rewrite to_int_small; [exact Hn|]. unfold in_int, INT_MAX in *. lia. }
  revert Hv. unfold transpose, row_indices, as_block_matrix.
  rewrite !access_metadata_vector by assumption. rewrite Hval, Hbs, Hnz. simpl.
  fold (shape_rows st shape) (shape_cols st shape).
  replace (shape_rows st shape <=? 128 * 128) with true
    by (symmetry; apply Z.leb_le; lia).
  simpl. rewrite histc_ok by assumption. simpl.
  intros H. injection H as <-. reflexivity.
Qed.

Lemma gather_indices_perm st shape data offsets indices :
  Permutation (gather_indices st shape data offsets indices)
              (seq 0 (length (st (storage indices)))).
Proof.
  unfold gather_indices.
  pose proof (argsort_perm (add_div (st (storage indices))
                              (row_idxs st shape data offsets indices) 128)) as Hp.
  rewrite add_div_length in Hp by (symmetry; apply row_idxs_length).
  exact Hp.
Qed.




(** ** The histogram counts the indices of the closed range only *)

Lemma histc_bin_in_range (ncols v : Z) :
  0 < Z.quot ncols 128 ->
  in_hist_range ncols v = true ->
  exists b, histc_bin (Z.quot ncols 128) 0 ncols v = Some (Z.of_nat b) /\
            (b < Z.to_nat (Z.quot ncols 128))%nat.
Proof.
  intros HB Hv. apply andb_true_iff in Hv. destruct Hv as [H0 H1].
  apply Z.leb_le in H0, H1.
  destruct (quot_pos_cols ncols HB) as [Hn Hq]. rewrite Hq in *.
  set (B := ncols / 128) in *.
  unfold histc_bin.
  replace (v <? 0) with false by (symmetry; apply Z.ltb_ge; lia).
  replace (ncols <? v) with false by (symmetry; apply Z.ltb_ge; lia).
  simpl. rewrite !Z.sub_0_r.
  assert (Hb : 0 <= v * B / ncols <= B).
  { split.
    - apply Z.div_pos; nia.
    - apply Z.div_le_upper_bound; nia. }
  destruct (Z.eqb_spec (v * B / ncols) B) as [Heq|Hne].
  - exists (Z.to_nat (B - 1)). rewrite Z2Nat.id by lia. split; [reflexivity | lia].
  - exists (Z.to_nat (v * B / ncols)). rewrite Z2Nat.id by lia.
    split; [reflexivity | lia].
Qed.

Lemma histc_bin_out_of_range (bins ncols v : Z) :
  in_hist_range ncols v = false -> histc_bin bins 0 ncols v = None.
Proof.
  intros Hv. apply andb_false_iff in Hv. unfold histc_bin.
  destruct Hv as [Hv|Hv]; apply Z.leb_gt in Hv.
  - replace (v <? 0) with true by (symmetry; apply Z.ltb_lt; lia). reflexivity.
  - replace (ncols <? v) with true by (symmetry; apply Z.ltb_lt; lia).
    rewrite orb_true_r. reflexivity.
Qed.

Lemma histc_counts_in_range (ncols : Z) (idx : list Z) :
  0 < Z.quot ncols 128 ->
  fold_right Z.add 0
    (map (fun j => count_bin (Z.quot ncols 128) 0 ncols idx (Z.of_nat j))
         (seq 0 (Z.to_nat (Z.quot ncols 128)))) =
    Z.of_nat (length (List.filter (in_hist_range ncols) idx)).
Proof.
  intros HB. induction idx as [|v idx IH].
  - unfold count_bin. simpl.
    induction (seq 0 (Z.to_nat (Z.quot ncols 128))) as [|j l IHl]; simpl; lia.
  - rewrite (map_ext _ (fun j => (if in_bin (Z.quot ncols 128) 0 ncols (Z.of_nat j) v
                                  then 1 else 0)
                                 + count_bin (Z.quot ncols 128) 0 ncols idx (Z.of_nat j)))
      by (intros j; apply count_bin_cons).
    rewrite fold_add_map2, IH. simpl List.filter.
    destruct (in_hist_range ncols v) eqn:Hv.
    + rewrite in_bin_sum.
      * simpl length. lia.
      * destruct (histc_bin_in_range ncols v HB Hv) as (b & Hb & Hlt).
        exists b. split; [exact Hb | lia].
    + unfold in_bin. rewrite (histc_bin_out_of_range _ _ _ Hv).
      assert (Hz : forall l : list nat,
                 fold_right Z.add 0 (map (fun _ : nat => 0) l) = 0).
      { induction l as [|j l IHl]; simpl; [reflexivity | exact IHl]. }
      rewrite Hz. lia.
Qed.

Lemma view_offsets_last_counts (ncols : Z) (idx : list Z) :
  List.last (view_offsets ncols idx) 0 =
    to_int (fold_right Z.add 0
              (map (fun j => count_bin (Z.quot ncols 128) 0 ncols idx (Z.of_nat j))
                   (seq 0 (Z.to_nat (Z.quot ncols 128))))
            * (128 * 128)).
Proof.
  unfold view_offsets.
  rewrite <- (map_cons (fun s => s * (128 * 128)) 0).
  etransitivity; [exact (last_map_f to_int _ 0)|]. f_equal.
  etransitivity; [exact (last_map_f (fun s => s * (128 * 128)) _ 0)|].
  unfold cumsum. rewrite cumsum_from_last. reflexivity.
Qed.

(** X2: the offsets of a view account only for the stored indices that lie in
    the closed range from 0 to the column count: the list has one entry per
    histogram bin plus one, starts at 0, and ends at the number of such
    indices times 128 * 128 (cast to 32 bits).  An index outside the range
    is not refused: the view still holds a row index for its block, so the
    offsets then end short of the row indices. *)
Theorem transpose_offsets_skip_out_of_range (st : Store)
        (shape data offsets indices : Tensor) (v : list Z * list Z * list Z) :
  let idx := st (storage indices) in
  let ncols := shape_cols st shape in
  let counted := Z.of_nat (length (List.filter (in_hist_range ncols) idx)) in
  transpose st shape data offsets indices = Ok v ->
  Z.of_nat (length v.1.2) = ncols / 128 + 1 /\
  nth 0 v.1.2 0 = 0 /\
  List.last v.1.2 0 = to_int (counted * (128 * 128)) /\
  (numel indices = Z.of_nat (length idx) ->
   Z.of_nat (length idx) * (128 * 128) <= INT_MAX ->
   Exists (fun c => c < 0 \/ ncols < c) idx ->
   List.last v.1.2 0 < Z.of_nat (length v.1.1) * (128 * 128)).
Proof.
  intros idx ncols counted Hv.
  destruct (transpose_inv _ _ _ _ _ _ Hv) as (_ & _ & _ & _ & HB & Hoff).
  fold ncols idx in HB, Hoff.
  destruct (quot_pos_cols ncols HB) as [Hn Hq].
  assert (Hlast : List.last v.1.2 0 = to_int (counted * (128 * 128))).
  { rewrite Hoff, view_offsets_last_counts, histc_counts_in_range by exact HB.
    reflexivity. }
  split; [|split; [|split]].
  - rewrite Hoff. unfold view_offsets. simpl length. unfold cumsum.
    rewrite !length_map, cumsum_from_length, length_map, length_seq.
    rewrite Hq. pose proof (Z.div_pos ncols 128 ltac:(lia) ltac:(lia)). lia.
  - rewrite Hoff. reflexivity.
  - exact Hlast.
  - intros Hnum Hbound Hex.
    assert (Hmax : numel indices <= INT_MAX) by (unfold INT_MAX in *; lia).
    rewrite Hlast.
    rewrite (transpose_result _ _ _ _ _ _ Hv Hnum Hmax). simpl.
    unfold gather. rewrite length_map.
    rewrite (Permutation_length (gather_indices_perm st shape data offsets indices)).
    rewrite length_seq. fold idx.
    assert (Hc : 0 <= counted < Z.of_nat (length idx)).
    { unfold counted. split; [lia|].
      clear -Hex. induction Hex as [c l Hc|c l _ IH].
      - simpl. pose proof (filter_length_le (in_hist_range ncols) l) as Hle.
        assert (Hf : in_hist_range ncols c = false).
        { unfold in_hist_range. apply andb_false_iff.
          destruct Hc; [left | right]; apply Z.leb_gt; lia. }
        rewrite Hf. lia.
      - simpl. destruct (in_hist_range ncols c); simpl length; lia. }
    rewrite to_int_small by (unfold in_int, INT_MAX in *; lia).
    lia.
Qed.

Lemma transpose_offsets_skip_out_of_range_witness :
  let v := ([0; 0], [0; 0], [0; 32768]) in
  Z.of_nat (length v.1.2) = shape_cols bad_store bad_shape / 128 + 1 /\
  nth 0 v.1.2 0 = 0 /\
  List.last v.1.2 0 =
    to_int (Z.of_nat (length (List.filter
                                (in_hist_range (shape_cols bad_store bad_shape))
                                (bad_store (storage bad_indices))))
            * (128 * 128)) /\
  List.last v.1.2 0 < Z.of_nat (length v.1.1) * (128 * 128).
Proof.
  destruct (transpose_offsets_skip_out_of_range bad_store bad_shape bad_data
              bad_offsets bad_indices ([0; 0], [0; 0], [0; 32768]))
    as (H1 & H2 & H3 & H4); [vm_compute; reflexivity|].
  split; [exact H1|]. split; [exact H2|]. split; [exact H3|].
  apply H4.
  - reflexivity.
  - vm_compute. discriminate.
  - apply Exists_cons_hd. left. vm_compute. reflexivity.
Defined.

(** The checks of the validation and conversion helpers are
    [TORCH_CHECK]s: none of them reports a failed CUDA call.  For
    [transpose] this rests on the launch of [RowIndices] being taken to
    succeed. *)
Ltac refusal_cases :=
  unfold transpose, row_indices, histc, allocate_bitmask, as_matrix,
    as_block_matrix, access_metadata, validate_dense, validate_sparse,
    validate_shape, validate_transpose, CHECK_CPU, CHECK_SHAPE, CHECK_SCALAR,
    CHECK_INT, CHECK_CUDA, CHECK_3D, CHECK_MATRIX, CHECK_HALF, CHECK_VECTOR,
    CHECK_SHORT, TORCH_CHECK, rbind;
  repeat match goal with
         | |- context [if ?b then _ else _] => destruct b
         end;
  congruence.

Lemma validate_transpose_refusal t : validate_transpose t <> Err KernelFailure.
Proof. refusal_cases. Qed.

Lemma validate_shape_refusal t : validate_shape t <> Err KernelFailure.
Proof. refusal_cases. Qed.

Lemma validate_sparse_refusal shape data offsets indices :
  validate_sparse shape data offsets indices <> Err KernelFailure.
Proof. refusal_cases. Qed.

Lemma access_metadata_refusal st m i : access_metadata st m i <> Err KernelFailure.
Proof. refusal_cases. Qed.

Lemma as_matrix_refusal x : as_matrix x <> Err KernelFailure.
Proof. refusal_cases. Qed.

Lemma as_block_matrix_refusal st shape data offsets indices :
  as_block_matrix st shape data offsets indices <> Err KernelFailure.
Proof. refusal_cases. Qed.

Lemma allocate_bitmask_refusal m trans : allocate_bitmask m trans <> Err KernelFailure.
Proof. refusal_cases. Qed.

Lemma transpose_refusal st shape data offsets indices :
  transpose st shape data offsets indices <> Err KernelFailure.
Proof. refusal_cases. Qed.


(** * Further properties of the conversion helpers *)



(** X5: the two layouts of a dense operand.  A CUDA half-precision tensor of
    torch sizes (r, c), both at least two, is accepted exactly when its
    strides are (c, 1), row-major, or (1, r), column-major.  A row-major
    tensor becomes an r x c operand with the transpose flag clear; a
    column-major one becomes a c x r operand - the matrix as it lies in
    memory - with the transpose flag set; the two cases exclude each other
    and any other layout is refused. *)
Theorem dense_layouts (x : Tensor) (r c s0 s1 : Z) :
  is_cuda x = true -> scalar_type x = Half ->
  sizes x = [r; c] -> strides x = [s0; s1] ->
  2 <= r <= INT_MAX -> 2 <= c <= INT_MAX ->
  (s0 = c /\ s1 = 1 ->
   as_matrix x = Ok (mkMatrix r c (storage x)) /\ is_transposed x = false) /\
  (s0 = 1 /\ s1 = r ->
   as_matrix x = Ok (mkMatrix c r (storage x)) /\ is_transposed x = true) /\
  (~ (s0 = c /\ s1 = 1) -> ~ (s0 = 1 /\ s1 = r) ->
   as_matrix x = Err InvalidArgument).
Proof.
  intros Hcuda Hty Hsz Hst Hr Hc.
  assert (Hir : to_int r = r) by (apply to_int_small; unfold in_int, INT_MAX in *; lia).
  assert (Hic : to_int c = c) by (apply to_int_small; unfold in_int, INT_MAX in *; lia).
  assert (Hcont : is_contiguous x = (s1 =? 1) && (s0 =? c)).
  { unfold is_contiguous, numel. rewrite Hsz, Hst. simpl fold_right.
    replace (r * (c * 1) =? 0) with false by (symmetry; apply Z.eqb_neq; nia).
    simpl.
    replace (c =? 1) with false by (symmetry; apply Z.eqb_neq; lia).
    destruct (s1 =? 1); [|reflexivity]. simpl.
    replace (r =? 1) with false by (symmetry; apply Z.eqb_neq; lia).
    replace (1 * c) with c by lia.
    destruct (s0 =? c); reflexivity. }
  assert (Htr : is_transposed x = (s0 =? 1) && (s1 =? r)).
  { unfold is_transposed, stride, size. rewrite Hsz, Hst. reflexivity. }
  assert (Hrun : as_matrix x =
                 if is_contiguous x || is_transposed x
                 then Ok (mkMatrix (to_int (if is_transposed x then c else r))
                                   (to_int (if is_transposed x then r else c))
                                   (storage x))
                 else Err InvalidArgument).
  { unfold as_matrix, validate_dense, CHECK_CUDA, CHECK_MATRIX, CHECK_HALF,
      ndimension, size.
    rewrite Hcuda, Hty, Hsz. simpl.
    destruct (is_contiguous x || is_transposed x); reflexivity. }
  rewrite Hrun, Hcont, Htr.
  split; [|split].
  - intros [-> ->]. rewrite Z.eqb_refl.
    replace (c =? 1) with false by (symmetry; apply Z.eqb_neq; lia).
    simpl. rewrite Z.eqb_refl. simpl. rewrite Hir, Hic. split; reflexivity.
  - intros [-> ->]. rewrite !Z.eqb_refl. rewrite orb_true_r. simpl.
    rewrite Hir, Hic. split; reflexivity.
  - intros Hrow Hcol.
    destruct (Z.eqb_spec s1 1), (Z.eqb_spec s0 c), (Z.eqb_spec s0 1),
      (Z.eqb_spec s1 r); simpl; try reflexivity; tauto.
Qed.

Lemma dense_layouts_witness :
  (as_matrix (mkTensor 6 true Half [256; 128] [128; 1]) = Ok (mkMatrix 256 128 6) /\
   is_transposed (mkTensor 6 true Half [256; 128] [128; 1]) = false) /\
  (as_matrix (mkTensor 6 true Half [256; 128] [1; 256]) = Ok (mkMatrix 128 256 6) /\
   is_transposed (mkTensor 6 true Half [256; 128] [1; 256]) = true) /\
  as_matrix (mkTensor 6 true Half [256; 128] [256; 1]) = Err InvalidArgument.
Proof.
  assert (Hr : 2 <= 256 <= INT_MAX) by (unfold INT_MAX; lia).
  assert (Hc : 2 <= 128 <= INT_MAX) by (unfold INT_MAX; lia).
  split; [|split].
  - apply (dense_layouts (mkTensor 6 true Half [256; 128] [128; 1]) 256 128 128 1
             eq_refl eq_refl eq_refl eq_refl Hr Hc). lia.
  - apply (dense_layouts (mkTensor 6 true Half [256; 128] [1; 256]) 256 128 1 256
             eq_refl eq_refl eq_refl eq_refl Hr Hc). lia.
  - apply (dense_layouts (mkTensor 6 true Half [256; 128] [256; 1]) 256 128 256 1
             eq_refl eq_refl eq_refl eq_refl Hr Hc); lia.
Defined.

(** X6: a dense tensor without elements is contiguous whatever its strides, so
    it is accepted in any layout. *)
Theorem dense_empty_accepted (x : Tensor) (r c s0 s1 : Z) :
  is_cuda x = true -> scalar_type x = Half ->
  sizes x = [r; c] -> strides x = [s0; s1] ->
  r = 0 \/ c = 0 ->
  exists m, as_matrix x = Ok m /\ m_values m = storage x /\
            m_rows m * m_cols m = 0.
Proof.
  intros Hcuda Hty Hsz Hst Hz.
  assert (Hcont : is_contiguous x = true).
  { unfold is_contiguous, numel. rewrite Hsz. simpl fold_right.
    replace (r * (c * 1) =? 0) with true; [reflexivity|].
    symmetry. apply Z.eqb_eq. destruct Hz; subst; lia. }
  unfold as_matrix, validate_dense, CHECK_CUDA, CHECK_MATRIX, CHECK_HALF,
    ndimension, size.
  rewrite Hcuda, Hty, Hsz, Hcont. simpl.
  eexists. split; [reflexivity|]. split; [reflexivity|]. simpl.
  assert (H0 : to_int 0 = 0) by reflexivity.
  destruct (is_transposed x), Hz; subst; rewrite H0; lia.
Qed.

Lemma dense_empty_accepted_witness :
  exists m,
    as_matrix (mkTensor 6 true Half [0; 128] [7; 5]) = Ok m /\
    m_values m = 6%nat /\
    m_rows m * m_cols m = 0.
Proof.
  apply (dense_empty_accepted (mkTensor 6 true Half [0; 128] [7; 5]) 0 128 7 5);
    try reflexivity.
  left. reflexivity.
Defined.

(** * Further properties of the custom operations *)

(** ** The result of a call and the kernel launch *)

Create HintDb refusal.

#[local] Hint Resolve validate_transpose_refusal validate_shape_refusal
  access_metadata_refusal as_matrix_refusal as_block_matrix_refusal
  allocate_bitmask_refusal transpose_refusal : refusal.

Lemma prelude_ret {A} (a : A) : prelude (ret a).
Proof.
  intros w. exists []. simpl. rewrite app_nil_r.
  split; [reflexivity|]. split; [constructor | discriminate].
Qed.

Lemma prelude_look {A} (f : Store -> result A) :
  (forall st, f st <> Err KernelFailure) -> prelude (look f).
Proof.
  intros Hf w. exists []. simpl. rewrite app_nil_r.
  split; [reflexivity|]. split; [constructor | apply Hf].
Qed.

Lemma prelude_emit e : not_kernel e -> prelude (emit e).
Proof.
  intros He w. exists [e]. simpl.
  split; [reflexivity|]. split; [repeat constructor; exact He | discriminate].
Qed.

Lemma prelude_bind {A B} (m : M A) (k : A -> M B) :
  prelude m -> (forall a, prelude (k a)) -> prelude (bind m k).
Proof.
  intros Hm Hk w. unfold bind.
  destruct (Hm w) as (e1 & Ht1 & Hall1 & Hr1).
  destruct (m w) as [w1 [a|e]]; simpl in *.
  - destruct (Hk a w1) as (e2 & Ht2 & Hall2 & Hr2).
    exists (e1 ++ e2). rewrite Ht2, Ht1, app_assoc.
    split; [reflexivity|]. split; [apply Forall_app; split; assumption | exact Hr2].
  - exists e1. split; [exact Ht1|]. split; [assumption|].
    intros Hc. apply Hr1. injection Hc as ->. reflexivity.
Qed.

Lemma prelude_poke t i v : prelude (poke t i v).
Proof.
  intros w. exists []. unfold poke. rewrite app_nil_r.
  destruct (ScalarType_eqb (scalar_type t) Int); simpl;
    (split; [reflexivity|]; split; [constructor | discriminate]).
Qed.

Lemma prelude_standardize_shape shape flag : prelude (standardize_shape shape flag).
Proof.
  unfold standardize_shape.
  apply prelude_bind; [apply prelude_look; intros st; destruct flag; auto with refusal|].
  intros rows.
  apply prelude_bind; [apply prelude_look; intros st; destruct flag; auto with refusal|].
  intros cols.
  apply prelude_bind; [apply prelude_poke | intros _; apply prelude_poke].
Qed.

Lemma prelude_read_flag t : prelude (read_flag t).
Proof.
  unfold read_flag.
  apply prelude_bind; [apply prelude_look; auto with refusal|].
  intros v. apply prelude_ret.
Qed.

Section Outcome.

Variable V : Operand -> bool -> Operand -> bool -> Operand -> bool.
Variable Mm : Operand -> bool -> Operand -> bool -> Operand -> bool.
Variable Mx : Operand -> bool -> Operand -> bool -> Operand -> bool.

Lemma prelude_valid_matmul l tl r tr o : prelude (valid_matmul V l tl r tr o).
Proof.
  unfold valid_matmul.
  apply prelude_bind; [apply prelude_emit; exact I|].
  intros _. apply prelude_look. intros _.
  destruct (V l tl r tr o); discriminate.
Qed.

Lemma prelude_call_transpose shape data offsets indices :
  prelude (call_transpose shape data offsets indices).
Proof.
  unfold call_transpose.
  apply prelude_bind; [apply prelude_look; auto with refusal|]. intros meta.
  repeat (apply prelude_bind; [apply prelude_emit; exact I | intros _]).
  apply prelude_ret.
Qed.

Lemma prelude_call_allocate_bitmask m trans :
  prelude (call_allocate_bitmask m trans).
Proof.
  unfold call_allocate_bitmask, check.
  apply prelude_bind; [apply prelude_look; auto with refusal|]. intros bytes.
  apply prelude_bind; [apply prelude_emit; exact I | intros _].
  apply prelude_ret.
Qed.

Lemma closing_launch e l tl r tr o : closing Mm Mx (launch Mm Mx e l tl r tr o).
Proof.
  intros w. exists [Kernel e l tl r tr o].
  unfold launch, CALL_CUDA, bind, emit, check, look. simpl.
  split; [reflexivity|].
  destruct e; simpl.
  - destruct (Mm l tl r tr o) eqn:Hs; simpl;
      (exists [], (Kernel Plain l tl r tr o);
       split; [reflexivity|]; split; [constructor|]; split; [exact I | exact Hs]).
  - destruct (Mx l tl r tr o) eqn:Hs; simpl;
      (exists [], (Kernel Extended l tl r tr o);
       split; [reflexivity|]; split; [constructor|]; split; [exact I | exact Hs]).
Qed.

Lemma closing_bind {A} (m : M A) (k : A -> M unit) :
  prelude m -> (forall a, closing Mm Mx (k a)) -> closing Mm Mx (bind m k).
Proof.
  intros Hm Hk w. unfold bind.
  destruct (Hm w) as (e1 & Ht1 & Hall1 & Hr1).
  destruct (m w) as [w1 [a|e]]; simpl in *.
  - destruct (Hk a w1) as (e2 & Ht2 & Hout).
    exists (e1 ++ e2). rewrite Ht2, Ht1, app_assoc.
    split; [reflexivity|].
    destruct ((k a w1).2) as [u|[]].
    + destruct Hout as (pre & kn & -> & Hpre & Hk1 & Hk2).
      exists (e1 ++ pre), kn. rewrite app_assoc.
      split; [reflexivity|]. split; [apply Forall_app; split; assumption|].
      split; assumption.
    + apply Forall_app. split; assumption.
    + destruct Hout as (pre & kn & -> & Hpre & Hk1 & Hk2).
      exists (e1 ++ pre), kn. rewrite app_assoc.
      split; [reflexivity|]. split; [apply Forall_app; split; assumption|].
      split; assumption.
  - exists e1. split; [exact Ht1|].
    destruct e; [exact Hall1 | congruence].
Qed.

End Outcome.

Ltac prelude_steps :=
  repeat first
    [ apply prelude_ret
    | apply prelude_read_flag
    | apply prelude_standardize_shape
    | apply prelude_valid_matmul
    | apply prelude_call_transpose
    | apply prelude_call_allocate_bitmask
    | (apply prelude_look; intros; auto with refusal)
    | (apply prelude_bind; [|intros ?])
    | match goal with
      | |- prelude (if ?b then _ else _) => destruct b
      end ].

Ltac closing_steps :=
  repeat first
    [ apply closing_launch
    | (apply closing_bind; [solve [prelude_steps] | intros ?])
    | match goal with
      | |- closing _ _ (if ?b then _ else _) => destruct b
      end ].

Section OutcomeOfCalls.

Variable V : Operand -> bool -> Operand -> bool -> Operand -> bool.
Variable Mm : Operand -> bool -> Operand -> bool -> Operand -> bool.
Variable Mx : Operand -> bool -> Operand -> bool -> Operand -> bool.

Lemma dsd_closing shape data offsets indices transpose_a rhs_t out_t :
  closing Mm Mx (dsd V Mm Mx shape data offsets indices transpose_a rhs_t out_t).
Proof. unfold dsd, check. closing_steps. Qed.

Lemma dds_closing lhs_t shape data offsets indices transpose_b out_t :
  closing Mm Mx (dds V Mm Mx lhs_t shape data offsets indices transpose_b out_t).
Proof. unfold dds, check. closing_steps. Qed.

Lemma sdd_closing lhs_t rhs_t shape data offsets indices :
  closing Mm Mx (sdd V Mm Mx lhs_t rhs_t shape data offsets indices).
Proof. unfold sdd, check. closing_steps. Qed.

Lemma ssd_closing lhs_shape lhs_data lhs_offsets lhs_indices transpose_a rhs_t
      out_shape out_data out_offsets out_indices :
  closing Mm Mx
    (ssd V Mm Mx lhs_shape lhs_data lhs_offsets lhs_indices transpose_a rhs_t
         out_shape out_data out_offsets out_indices).
Proof. unfold ssd, check. closing_steps. Qed.

Lemma dss_closing lhs_shape lhs_data lhs_offsets lhs_indices transpose_a
      rhs_shape rhs_data rhs_offsets rhs_indices transpose_b out_t :
  closing Mm Mx
    (dss V Mm Mx lhs_shape lhs_data lhs_offsets lhs_indices transpose_a
         rhs_shape rhs_data rhs_offsets rhs_indices transpose_b out_t).
Proof. unfold dss, check. closing_steps. Qed.

End OutcomeOfCalls.

(** X7: in each of the five operations the launch of [Matmul] or
    [MatmulEx] is the last thing a call does, and the result of the call
    tells what happened to it: a call that raises [InvalidArgument] has
    launched neither; a call that completes has launched exactly one of
    them, last, and the launch reported success; a call that raises
    [KernelFailure] has launched exactly one of them, last, and the launch
    reported a failure - the buffers of the call had all been handed out
    by then.  (The launch of [RowIndices] inside the transpose helper is
    taken to succeed and is not part of the record.) *)
Theorem kernel_launch_outcome
        (V Mm Mx : Operand -> bool -> Operand -> bool -> Operand -> bool) :
  (forall shape data offsets indices transpose_a rhs_t out_t w,
      outcome_rule Mm Mx (trace w)
        (dsd V Mm Mx shape data offsets indices transpose_a rhs_t out_t w)) /\
  (forall lhs_t shape data offsets indices transpose_b out_t w,
      outcome_rule Mm Mx (trace w)
        (dds V Mm Mx lhs_t shape data offsets indices transpose_b out_t w)) /\
  (forall lhs_t rhs_t shape data offsets indices w,
      outcome_rule Mm Mx (trace w)
        (sdd V Mm Mx lhs_t rhs_t shape data offsets indices w)) /\
  (forall lhs_shape lhs_data lhs_offsets lhs_indices transpose_a rhs_t
          out_shape out_data out_offsets out_indices w,
      outcome_rule Mm Mx (trace w)
        (ssd V Mm Mx lhs_shape lhs_data lhs_offsets lhs_indices transpose_a rhs_t
             out_shape out_data out_offsets out_indices w)) /\
  (forall lhs_shape lhs_data lhs_offsets lhs_indices transpose_a
          rhs_shape rhs_data rhs_offsets rhs_indices transpose_b out_t w,
      outcome_rule Mm Mx (trace w)
        (dss V Mm Mx lhs_shape lhs_data lhs_offsets lhs_indices transpose_a
             rhs_shape rhs_data rhs_offsets rhs_indices transpose_b out_t w)).
Proof.
  split; [|split; [|split; [|split]]]; intros.
  - apply dsd_closing.
  - apply dds_closing.
  - apply sdd_closing.
  - apply ssd_closing.
  - apply dss_closing.
Qed.

(** ** [sdd] *)

(** X8: [sdd] takes no transpose flag.  It writes no buffer, whatever its
    outcome, and a completed call has recorded the validation and the plain
    entry point and nothing else: no transpose view and no bitmask is
    attached to the block-sparse output, whose descriptor is built from
    the shape tensor as the caller passed it. *)
Theorem sdd_plain_kernel
        (V Mm Mx : Operand -> bool -> Operand -> bool -> Operand -> bool)
        (lhs_t rhs_t shape data offsets indices : Tensor) (w : World) :
  let out := sdd V Mm Mx lhs_t rhs_t shape data offsets indices w in
  (forall h, store out.1 h = store w h) /\
  (out.2 = Ok tt -> sdd_rule lhs_t rhs_t shape data offsets indices w out.1).
Proof.
  intros out. split.
  - intros h.
    assert (Hw : writes_only (fun _ => False)
                   (sdd V Mm Mx lhs_t rhs_t shape data offsets indices))
      by (unfold sdd, check; writes_steps).
    apply Hw. tauto.
  - intros Hok. pose proof (completed_run out Hok) as H.
    unfold out in H at 1. unfold sdd, check in H.
    do 4 run_step H. apply launch_ok_inv in H.
    unfold sdd_rule. rewrite H. simpl.
    do 3 eexists.
    split; [eassumption|]. split; [eassumption|]. split; [eassumption|].
    split; [eapply as_block_matrix_plain; eassumption|].
    rewrite <- app_assoc. reflexivity.
Qed.

Lemma sdd_plain_kernel_witness :
  let out := sdd always always always Inputs.dense_128_128 Inputs.dense_128_128
                 Inputs.square_shape Inputs.out_data Inputs.out_offsets
                 Inputs.out_indices Inputs.w0 in
  sdd_rule Inputs.dense_128_128 Inputs.dense_128_128
           Inputs.square_shape Inputs.out_data Inputs.out_offsets
           Inputs.out_indices Inputs.w0 out.1.
Proof.
  intros out.
  apply (sdd_plain_kernel always always always Inputs.dense_128_128
           Inputs.dense_128_128 Inputs.square_shape Inputs.out_data
           Inputs.out_offsets Inputs.out_indices Inputs.w0).
  vm_compute. reflexivity.
Defined.

(** ** Failures before and after the shape is normalised *)

Lemma look_run {A} (f : Store -> result A) w a :
  f (store w) = Ok a -> look f w = (w, Ok a).
Proof. intros H. unfold look. rewrite H. reflexivity. Qed.

Lemma look_fail {A} (f : Store -> result A) w e :
  f (store w) = Err e -> look f w = (w, Err e).
Proof. intros H. unfold look. rewrite H. reflexivity. Qed.

Lemma access_metadata_not_vector st m i :
  ndimension m <> 1 -> access_metadata st m i = Err InvalidArgument.
Proof.
  intros H. unfold access_metadata.
  replace (ndimension m =? 1) with false by (symmetry; apply Z.eqb_neq; exact H).
  rewrite andb_false_r. reflexivity.
Qed.

Lemma access_metadata_ok_vector st m i v :
  access_metadata st m i = Ok v -> scalar_type m = Int /\ ndimension m = 1.
Proof.
  unfold access_metadata. intros H.
  apply rbind_ok_inv in H. destruct H as ([] & Hc & _).
  apply TORCH_CHECK_ok, andb_true_iff in Hc. destruct Hc as [Hty Hdim].
  apply ScalarType_eqb_eq in Hty. apply Z.eqb_eq in Hdim. split; assumption.
Qed.

Lemma read_flag_not_vector t w :
  ndimension t <> 1 -> read_flag t w = (w, Err InvalidArgument).
Proof.
  intros H. unfold read_flag, bind, look.
  rewrite access_metadata_not_vector by exact H. reflexivity.
Qed.

Lemma read_flag_ok_vector t w w1 b :
  read_flag t w = (w1, Ok b) -> ndimension t = 1.
Proof.
  unfold read_flag, bind, look, ret.
  destruct (access_metadata (store w) t 0) as [v|e] eqn:Hacc; intros H;
    [|discriminate].
  apply access_metadata_ok_vector in Hacc. tauto.
Qed.

Lemma read_flag_cases t w :
  (exists b, read_flag t w = (w, Ok b)) \/ read_flag t w = (w, Err InvalidArgument).
Proof.
  unfold read_flag, bind, look, ret.
  destruct (access_metadata (store w) t 0) as [v|[]] eqn:Hacc.
  - left. eexists. reflexivity.
  - right. reflexivity.
  - exfalso. exact (access_metadata_refusal _ _ _ Hacc).
Qed.

Lemma standardize_shape_not_vector shape flag w :
  ndimension shape <> 1 ->
  standardize_shape shape flag w = (w, Err InvalidArgument).
Proof.
  intros H. unfold standardize_shape, bind, look.
  destruct flag; rewrite access_metadata_not_vector by exact H; reflexivity.
Qed.

Lemma check_cases (r : result unit) w :
  r <> Err KernelFailure ->
  (r = Ok tt /\ look (fun _ => r) w = (w, Ok tt)) \/
  (r <> Ok tt /\ look (fun _ => r) w = (w, Err InvalidArgument)).
Proof.
  intros Hr. unfold look. destruct r as [[]|[]].
  - left. split; reflexivity.
  - right. split; [discriminate | reflexivity].
  - contradiction.
Qed.

Lemma as_block_matrix_invalid st shape data offsets indices :
  validate_sparse shape data offsets indices <> Ok tt ->
  as_block_matrix st shape data offsets indices = Err InvalidArgument.
Proof.
  intros H. unfold as_block_matrix.
  destruct (validate_sparse shape data offsets indices) as [[]|[]] eqn:Hv.
  - contradiction.
  - reflexivity.
  - exfalso. exact (validate_sparse_refusal _ _ _ _ Hv).
Qed.

(** The four steps that open [dsd], [ssd] and [dss]: the flag is checked
    and read, the shape is checked and normalised. *)
Ltac open_prefix Hvt Hflag Hvs Hrun :=
  rewrite (bind_ok _ _ _ _ tt (look_run (fun _ => _) _ tt Hvt));
  rewrite (bind_ok _ _ _ _ _ Hflag);
  rewrite (bind_ok _ _ _ _ tt (look_run (fun _ => _) _ tt Hvs));
  rewrite (bind_ok _ _ _ _ tt Hrun).

Ltac reject_early Hbad :=
  match goal with
  | |- bind (look (fun _ => validate_transpose ?t)) _ ?w = _ =>
      destruct (check_cases (validate_transpose t) w
                  (validate_transpose_refusal t)) as [[Hvt Hr]|[Hvt Hr]];
      [ rewrite (bind_ok _ _ _ _ _ Hr) | exact (bind_err _ _ _ _ _ Hr) ];
      destruct (read_flag_cases t w) as [[b Hf]|Hf];
      [ rewrite (bind_ok _ _ _ _ _ Hf); apply read_flag_ok_vector in Hf
      | exact (bind_err _ _ _ _ _ Hf) ]
  end;
  match goal with
  | |- bind (look (fun _ => validate_shape ?s)) _ ?w = _ =>
      destruct (check_cases (validate_shape s) w
                  (validate_shape_refusal s)) as [[Hvs Hr']|[Hvs Hr']];
      [ rewrite (bind_ok _ _ _ _ _ Hr') | exact (bind_err _ _ _ _ _ Hr') ];
      apply bind_err; apply standardize_shape_not_vector; tauto
  end.

Section Failures.

Variable V : Operand -> bool -> Operand -> bool -> Operand -> bool.
Variable Mm : Operand -> bool -> Operand -> bool -> Operand -> bool.
Variable Mx : Operand -> bool -> Operand -> bool -> Operand -> bool.

Lemma dsd_rejects shape data offsets indices transpose_a rhs_t out_t w :
  validate_transpose transpose_a <> Ok tt \/ ndimension transpose_a <> 1 \/
  validate_shape shape <> Ok tt \/ ndimension shape <> 1 ->
  dsd V Mm Mx shape data offsets indices transpose_a rhs_t out_t w
    = (w, Err InvalidArgument).
Proof. intros Hbad. unfold dsd, check. reject_early Hbad. Qed.

Lemma ssd_rejects lhs_shape lhs_data lhs_offsets lhs_indices transpose_a rhs_t
      out_shape out_data out_offsets out_indices w :
  validate_transpose transpose_a <> Ok tt \/ ndimension transpose_a <> 1 \/
  validate_shape lhs_shape <> Ok tt \/ ndimension lhs_shape <> 1 ->
  ssd V Mm Mx lhs_shape lhs_data lhs_offsets lhs_indices transpose_a rhs_t
      out_shape out_data out_offsets out_indices w
    = (w, Err InvalidArgument).
Proof. intros Hbad. unfold ssd, check. reject_early Hbad. Qed.

Lemma dss_rejects lhs_shape lhs_data lhs_offsets lhs_indices transpose_a
      rhs_shape rhs_data rhs_offsets rhs_indices transpose_b out_t w :
  validate_transpose transpose_a <> Ok tt \/ ndimension transpose_a <> 1 \/
  validate_shape lhs_shape <> Ok tt \/ ndimension lhs_shape <> 1 ->
  dss V Mm Mx lhs_shape lhs_data lhs_offsets lhs_indices transpose_a
      rhs_shape rhs_data rhs_offsets rhs_indices transpose_b out_t w
    = (w, Err InvalidArgument).
Proof. intros Hbad. unfold dss, check. reject_early Hbad. Qed.

Lemma dsd_fails_late shape data offsets indices transpose_a rhs_t out_t w flag r c :
  validate_transpose transpose_a = Ok tt ->
  read_flag transpose_a w = (w, Ok flag) ->
  validate_shape shape = Ok tt -> ndimension shape = 1 ->
  store w (storage shape) = [r; c] ->
  validate_sparse shape data offsets indices <> Ok tt ->
  let out := dsd V Mm Mx shape data offsets indices transpose_a rhs_t out_t w in
  out.2 = Err InvalidArgument /\ trace out.1 = trace w /\
  store out.1 (storage shape) = normalized flag r c.
Proof.
  intros Hvt Hflag Hvs Hdim Hst Hbad out.
  pose proof (proj1 (validate_shape_ok shape) Hvs) as (_ & _ & Hty).
  destruct (standardize_shape_run shape flag w r c Hty Hdim Hst)
    as (w1 & Hrun & Htr & Hs & _).
  unfold out, dsd, check. open_prefix Hvt Hflag Hvs Hrun.
  rewrite (bind_err _ _ _ _ _
             (look_fail (fun st => as_block_matrix st shape data offsets indices)
                        w1 _ (as_block_matrix_invalid _ _ _ _ _ Hbad))).
  simpl. split; [reflexivity|]. split; [exact Htr | exact Hs].
Qed.

Lemma ssd_fails_late lhs_shape lhs_data lhs_offsets lhs_indices transpose_a rhs_t
      out_shape out_data out_offsets out_indices w flag r c :
  validate_transpose transpose_a = Ok tt ->
  read_flag transpose_a w = (w, Ok flag) ->
  validate_shape lhs_shape = Ok tt -> ndimension lhs_shape = 1 ->
  store w (storage lhs_shape) = [r; c] ->
  validate_sparse lhs_shape lhs_data lhs_offsets lhs_indices <> Ok tt ->
  let out := ssd V Mm Mx lhs_shape lhs_data lhs_offsets lhs_indices transpose_a
                 rhs_t out_shape out_data out_offsets out_indices w in
  out.2 = Err InvalidArgument /\ trace out.1 = trace w /\
  store out.1 (storage lhs_shape) = normalized flag r c.
Proof.
  intros Hvt Hflag Hvs Hdim Hst Hbad out.
  pose proof (proj1 (validate_shape_ok lhs_shape) Hvs) as (_ & _ & Hty).
  destruct (standardize_shape_run lhs_shape flag w r c Hty Hdim Hst)
    as (w1 & Hrun & Htr & Hs & _).
  unfold out, ssd, check. open_prefix Hvt Hflag Hvs Hrun.
  rewrite (bind_err _ _ _ _ _
             (look_fail (fun st => as_block_matrix st lhs_shape lhs_data
                                     lhs_offsets lhs_indices)
                        w1 _ (as_block_matrix_invalid _ _ _ _ _ Hbad))).
  simpl. split; [reflexivity|]. split; [exact Htr | exact Hs].
Qed.

Lemma dss_fails_late lhs_shape lhs_data lhs_offsets lhs_indices transpose_a
      rhs_shape rhs_data rhs_offsets rhs_indices transpose_b out_t w flag r c :
  validate_transpose transpose_a = Ok tt ->
  read_flag transpose_a w = (w, Ok flag) ->
  validate_shape lhs_shape = Ok tt -> ndimension lhs_shape = 1 ->
  store w (storage lhs_shape) = [r; c] ->
  validate_sparse lhs_shape lhs_data lhs_offsets lhs_indices <> Ok tt ->
  let out := dss V Mm Mx lhs_shape lhs_data lhs_offsets lhs_indices transpose_a
                 rhs_shape rhs_data rhs_offsets rhs_indices transpose_b out_t w in
  out.2 = Err InvalidArgument /\ trace out.1 = trace w /\
  store out.1 (storage lhs_shape) = normalized flag r c.
Proof.
  intros Hvt Hflag Hvs Hdim Hst Hbad out.
  pose proof (proj1 (validate_shape_ok lhs_shape) Hvs) as (_ & _ & Hty).
  destruct (standardize_shape_run lhs_shape flag w r c Hty Hdim Hst)
    as (w1 & Hrun & Htr & Hs & _).
  unfold out, dss, check. open_prefix Hvt Hflag Hvs Hrun.
  rewrite (bind_err _ _ _ _ _
             (look_fail (fun st => as_block_matrix st lhs_shape lhs_data
                                     lhs_offsets lhs_indices)
                        w1 _ (as_block_matrix_invalid _ _ _ _ _ Hbad))).
  simpl. split; [reflexivity|]. split; [exact Htr | exact Hs].
Qed.

End Failures.

(** X9: [dsd], [ssd] and [dss] reject a call without any effect when the flag
    or the shape of the (left) sparse operand is unusable: when the flag
    tensor fails [validate_transpose] or is not one-dimensional - a
    zero-dimensional scalar is refused by the accessor although it has one
    element - or when the shape tensor fails [validate_shape] or is not
    one-dimensional.  The call raises [InvalidArgument]; no buffer is
    written and nothing is recorded. *)
Theorem rejected_before_normalisation
        (V Mm Mx : Operand -> bool -> Operand -> bool -> Operand -> bool) :
  (forall shape data offsets indices transpose_a rhs_t out_t w,
      validate_transpose transpose_a <> Ok tt \/ ndimension transpose_a <> 1 \/
      validate_shape shape <> Ok tt \/ ndimension shape <> 1 ->
      dsd V Mm Mx shape data offsets indices transpose_a rhs_t out_t w
        = (w, Err InvalidArgument)) /\
  (forall lhs_shape lhs_data lhs_offsets lhs_indices transpose_a rhs_t
          out_shape out_data out_offsets out_indices w,
      validate_transpose transpose_a <> Ok tt \/ ndimension transpose_a <> 1 \/
      validate_shape lhs_shape <> Ok tt \/ ndimension lhs_shape <> 1 ->
      ssd V Mm Mx lhs_shape lhs_data lhs_offsets lhs_indices transpose_a rhs_t
          out_shape out_data out_offsets out_indices w
        = (w, Err InvalidArgument)) /\
  (forall lhs_shape lhs_data lhs_offsets lhs_indices transpose_a
          rhs_shape rhs_data rhs_offsets rhs_indices transpose_b out_t w,
      validate_transpose transpose_a <> Ok tt \/ ndimension transpose_a <> 1 \/
      validate_shape lhs_shape <> Ok tt \/ ndimension lhs_shape <> 1 ->
      dss V Mm Mx lhs_shape lhs_data lhs_offsets lhs_indices transpose_a
          rhs_shape rhs_data rhs_offsets rhs_indices transpose_b out_t w
        = (w, Err InvalidArgument)).
Proof.
  split; [|split].
  - apply dsd_rejects.
  - apply ssd_rejects.
  - apply dss_rejects.
Qed.

Lemma rejected_before_normalisation_witness :
  dsd always always always Inputs.shape Inputs.data Inputs.offsets Inputs.indices
      Rejected.scalar_flag Inputs.dense_128_128 Inputs.dense_256_128 Inputs.w0
    = (Inputs.w0, Err InvalidArgument) /\
  ssd always always always Rejected.matrix_shape Inputs.data Inputs.offsets
      Inputs.indices Inputs.flag_set Inputs.dense_256_128
      Inputs.out_shape Inputs.out_data Inputs.out_offsets Inputs.out_indices
      Inputs.w0
    = (Inputs.w0, Err InvalidArgument) /\
  dss always always always Inputs.shape Inputs.data Inputs.offsets Inputs.indices
      Inputs.dense_128_128
      Inputs.square_shape Inputs.out_data Inputs.out_offsets Inputs.out_indices
      Inputs.flag_clear Inputs.dense_256_128 Inputs.w0
    = (Inputs.w0, Err InvalidArgument).
Proof.
  destruct (rejected_before_normalisation always always always)
    as (Hdsd & Hssd & Hdss).
  split; [|split].
  - apply Hdsd. right. left. vm_compute. discriminate.
  - apply Hssd. right. right. right. vm_compute. discriminate.
  - apply Hdss. left. vm_compute. discriminate.
Defined.

(** X10: a failure after the normalisation is not undone.  In [dsd], [ssd] and
    [dss], once the flag and the shape of the (left) sparse operand have
    passed their checks the shape tensor is rewritten; when the quadruple
    then fails [validate_sparse], the call raises [InvalidArgument] with
    nothing recorded, and the caller's shape tensor is left holding
    (cols, rows) if the flag was set. *)
Theorem failure_after_normalisation
        (V Mm Mx : Operand -> bool -> Operand -> bool -> Operand -> bool) :
  (forall shape data offsets indices transpose_a rhs_t out_t w flag r c,
      validate_transpose transpose_a = Ok tt ->
      read_flag transpose_a w = (w, Ok flag) ->
      validate_shape shape = Ok tt -> ndimension shape = 1 ->
      store w (storage shape) = [r; c] ->
      validate_sparse shape data offsets indices <> Ok tt ->
      let out := dsd V Mm Mx shape data offsets indices transpose_a rhs_t out_t w in
      out.2 = Err InvalidArgument /\ trace out.1 = trace w /\
      store out.1 (storage shape) = normalized flag r c) /\
  (forall lhs_shape lhs_data lhs_offsets lhs_indices transpose_a rhs_t
          out_shape out_data out_offsets out_indices w flag r c,
      validate_transpose transpose_a = Ok tt ->
      read_flag transpose_a w = (w, Ok flag) ->
      validate_shape lhs_shape = Ok tt -> ndimension lhs_shape = 1 ->
      store w (storage lhs_shape) = [r; c] ->
      validate_sparse lhs_shape lhs_data lhs_offsets lhs_indices <> Ok tt ->
      let out := ssd V Mm Mx lhs_shape lhs_data lhs_offsets lhs_indices
                     transpose_a rhs_t out_shape out_data out_offsets
                     out_indices w in
      out.2 = Err InvalidArgument /\ trace out.1 = trace w /\
      store out.1 (storage lhs_shape) = normalized flag r c) /\
  (forall lhs_shape lhs_data lhs_offsets lhs_indices transpose_a
          rhs_shape rhs_data rhs_offsets rhs_indices transpose_b out_t w flag r c,
      validate_transpose transpose_a = Ok tt ->
      read_flag transpose_a w = (w, Ok flag) ->
      validate_shape lhs_shape = Ok tt -> ndimension lhs_shape = 1 ->
      store w (storage lhs_shape) = [r; c] ->
      validate_sparse lhs_shape lhs_data lhs_offsets lhs_indices <> Ok tt ->
      let out := dss V Mm Mx lhs_shape lhs_data lhs_offsets lhs_indices
                     transpose_a rhs_shape rhs_data rhs_offsets rhs_indices
                     transpose_b out_t w in
      out.2 = Err InvalidArgument /\ trace out.1 = trace w /\
      store out.1 (storage lhs_shape) = normalized flag r c).
Proof.
  split; [|split].
  - apply dsd_fails_late.
  - apply ssd_fails_late.
  - apply dss_fails_late.
Qed.

Lemma failure_after_normalisation_witness :
  let out := dsd always always always Inputs.shape Rejected.host_data
                 Inputs.offsets Inputs.indices Inputs.flag_set
                 Inputs.dense_128_128 Inputs.dense_256_128 Inputs.w0 in
  out.2 = Err InvalidArgument /\ trace out.1 = trace Inputs.w0 /\
  store out.1 (storage Inputs.shape) = normalized true 128 256.
Proof.
  apply (proj1 (failure_after_normalisation always always always)
           Inputs.shape Rejected.host_data Inputs.offsets Inputs.indices
           Inputs.flag_set Inputs.dense_128_128 Inputs.dense_256_128 Inputs.w0
           true 128 256);
    try reflexivity.
  vm_compute. discriminate.
Defined.

(** ** The orientation the kernels are given *)

Lemma as_block_matrix_ok_inv st shape data offsets indices m :
  as_block_matrix st shape data offsets indices = Ok m ->
  validate_sparse shape data offsets indices = Ok tt /\
  ndimension shape = 1 /\
  m = mkBlockMatrix (shape_rows st shape) (shape_cols st shape) 128
        (to_int (numel indices))
        (storage data) (storage offsets) (storage indices) None None None None.
Proof.
  unfold as_block_matrix. intros H.
  apply rbind_ok_inv in H. destruct H as ([] & Hval & H).
  apply rbind_ok_inv in H. destruct H as (r & Hr & H).
  apply rbind_ok_inv in H. destruct H as (c & Hc & H).
  destruct (access_metadata_ok_vector _ _ _ _ Hr) as [Hty Hdim].
  rewrite access_metadata_vector in Hr, Hc by assumption.
  injection Hr as <-. injection Hc as <-. injection H as <-.
  pose proof (proj1 (validate_sparse_ok _ _ _ _) Hval) as (_ & Hbs & _).
  rewrite Hbs. split; [exact Hval|]. split; [exact Hdim | reflexivity].
Qed.

Lemma trace_grew (t : list Event) (e : Event) (rest : list Event) :
  t ++ e :: rest <> t.
Proof.
  intros H. apply (f_equal (@length Event)) in H.
  rewrite length_app in H. simpl in H. lia.
Qed.

Lemma read_flag_functional t w b b' :
  read_flag t w = (w, Ok b) -> read_flag t w = (w, Ok b') -> b = b'.
Proof. intros H H'. rewrite H in H'. injection H' as <-. reflexivity. Qed.

Section Orientation.

Variable V : Operand -> bool -> Operand -> bool -> Operand -> bool.
Variable Mm : Operand -> bool -> Operand -> bool -> Operand -> bool.
Variable Mx : Operand -> bool -> Operand -> bool -> Operand -> bool.

Lemma dsd_completed_shape shape data offsets indices transpose_a rhs_t out_t
      w w' r c :
  dsd V Mm Mx shape data offsets indices transpose_a rhs_t out_t w = (w', Ok tt) ->
  store w (storage shape) = [r; c] ->
  exists flag lhs rhs out meta,
    read_flag transpose_a w = (w, Ok flag) /\
    store w' (storage shape) = normalized flag r c /\
    as_block_matrix (store w') shape data offsets indices = Ok lhs /\
    view_iff flag (store w') shape data offsets indices meta /\
    trace w' = trace w ++
      Validate (Sparse lhs) flag (Dense rhs) (is_transposed rhs_t) (Dense out) true ::
      opt_allocs meta ++
      [Kernel (if flag then Extended else Plain)
              (Sparse (opt_attach lhs meta)) flag
              (Dense rhs) (is_transposed rhs_t) (Dense out)].
Proof.
  intros Hrun Hst.
  destruct (dsd_record V Mm Mx _ _ _ _ _ _ _ _ _ Hrun)
    as (flag & lhs & rhs & out & meta & Hflag & Hlhs & _ & _ & _ & Hview & Htr).
  pose proof (dsd_normalizes V Mm Mx shape data offsets indices transpose_a
                rhs_t out_t w r c) as Hnorm.
  cbv zeta in Hnorm. rewrite Hrun in Hnorm. simpl in Hnorm.
  destruct (Hnorm Hst) as (flag' & Hflag' & Hshape).
  { rewrite Htr. apply trace_grew. }
  rewrite (read_flag_functional _ _ _ _ Hflag' Hflag) in Hshape.
  exists flag, lhs, rhs, out, meta.
  split; [exact Hflag|]. split; [exact Hshape|].
  split; [exact Hlhs|]. split; [exact Hview | exact Htr].
Qed.

End Orientation.

(** X11: the descriptor [dsd] hands to sputnik has the orientation of the
    normalised shape.  When the caller's shape tensor holds (r, c), a
    completed call has validated a descriptor with (rows, cols) = (r, c)
    if the flag is clear and (c, r) if it is set, with block size 128 and
    as many non-zeros as the indices tensor has elements.  With the flag
    set the transpose view is computed from the normalised shape as well:
    the limit of 128 * 128 rows applies to the caller's column count [c],
    the caller's row count [r] must reach a block, and the offsets of the
    view have r / 128 + 1 entries. *)
Theorem dsd_descriptor_orientation
        (V Mm Mx : Operand -> bool -> Operand -> bool -> Operand -> bool)
        (shape data offsets indices transpose_a rhs_t out_t : Tensor)
        (w w' : World) (r c : Z) :
  dsd V Mm Mx shape data offsets indices transpose_a rhs_t out_t w = (w', Ok tt) ->
  store w (storage shape) = [r; c] ->
  exists flag lhs rhs out rest,
    read_flag transpose_a w = (w, Ok flag) /\
    trace w' = trace w ++
      Validate (Sparse lhs) flag (Dense rhs) (is_transposed rhs_t) (Dense out) true ::
      rest /\
    rows lhs = (if flag then c else r) /\
    cols lhs = (if flag then r else c) /\
    block_size lhs = 128 /\
    nonzeros lhs = to_int (numel indices) /\
    (flag = true ->
     c <= 128 * 128 /\ 128 <= r /\
     exists meta k,
       rest = view_allocs meta ++ [k] /\
       Z.of_nat (length meta.1.2) = r / 128 + 1).
Proof.
  intros Hrun Hst.
  destruct (dsd_completed_shape V Mm Mx _ _ _ _ _ _ _ _ _ _ _ Hrun Hst)
    as (flag & lhs & rhs & out & meta & Hflag & Hshape & Hlhs & Hview & Htr).
  destruct (as_block_matrix_ok_inv _ _ _ _ _ _ Hlhs) as (_ & _ & ->).
  assert (Hrows : shape_rows (store w') shape = (if flag then c else r)).
  { unfold shape_rows. rewrite Hshape. destruct flag; reflexivity. }
  assert (Hcols : shape_cols (store w') shape = (if flag then r else c)).
  { unfold shape_cols. rewrite Hshape. destruct flag; reflexivity. }
  do 5 eexists.
  split; [exact Hflag|]. split; [exact Htr|]. simpl.
  split; [exact Hrows|]. split; [exact Hcols|].
  split; [reflexivity|]. split; [reflexivity|].
  intros ->. simpl in Hview. destruct Hview as (m & -> & Hm).
  destruct (transpose_inv _ _ _ _ _ _ Hm) as (_ & _ & _ & Hr & HB & Hoff).
  rewrite Hrows in Hr. rewrite Hcols in HB, Hoff.
  destruct (quot_pos_cols r HB) as [Hr128 Hq].
  split; [exact Hr|]. split; [exact Hr128|].
  exists m. eexists. split; [reflexivity|].
  rewrite Hoff. unfold view_offsets. simpl length. unfold cumsum.
  rewrite !length_map, cumsum_from_length, length_map, length_seq, Hq.
  pose proof (Z.div_pos r 128 ltac:(lia) ltac:(lia)). lia.
Qed.

Lemma dsd_descriptor_orientation_witness :
  exists flag lhs rhs out rest,
    read_flag Inputs.flag_set Inputs.w0 = (Inputs.w0, Ok flag) /\
    trace (dsd always always always
               Inputs.shape Inputs.data Inputs.offsets Inputs.indices
               Inputs.flag_set Inputs.dense_128_128 Inputs.dense_256_128
               Inputs.w0).1 =
      trace Inputs.w0 ++
      Validate (Sparse lhs) flag (Dense rhs)
               (is_transposed Inputs.dense_128_128) (Dense out) true :: rest /\
    rows lhs = (if flag then 256 else 128) /\
    cols lhs = (if flag then 128 else 256) /\
    block_size lhs = 128 /\
    nonzeros lhs = to_int (numel Inputs.indices) /\
    (flag = true ->
     256 <= 128 * 128 /\ 128 <= 128 /\
     exists meta k,
       rest = view_allocs meta ++ [k] /\
       Z.of_nat (length meta.1.2) = 128 / 128 + 1).
Proof.
  apply (dsd_descriptor_orientation always always always
           Inputs.shape Inputs.data Inputs.offsets Inputs.indices
           Inputs.flag_set Inputs.dense_128_128 Inputs.dense_256_128
           Inputs.w0 _ 128 256).
  - apply completed_run. vm_compute. reflexivity.
  - reflexivity.
Defined.

(** X12: two calls in a row on the same tensors.  The shape tensor is the
    caller's, so what one call leaves in it is what the next call reads:
    after a first [dsd] call that got as far as the validation the tensor
    holds the normalised shape, and after a second such call it holds the
    caller's (r, c) again, whatever the flag.  With the flag set the two
    calls therefore work on opposite orientations: the second one, if it
    completes, has validated a descriptor of r rows and c columns. *)
Theorem dsd_twice_restores_shape
        (V Mm Mx : Operand -> bool -> Operand -> bool -> Operand -> bool)
        (shape data offsets indices transpose_a rhs_t out_t : Tensor)
        (w : World) (r c : Z) :
  let out1 := dsd V Mm Mx shape data offsets indices transpose_a rhs_t out_t w in
  let out2 := dsd V Mm Mx shape data offsets indices transpose_a rhs_t out_t
                  out1.1 in
  storage transpose_a <> storage shape ->
  store w (storage shape) = [r; c] ->
  trace out1.1 <> trace w ->
  trace out2.1 <> trace out1.1 ->
  exists flag,
    read_flag transpose_a w = (w, Ok flag) /\
    store out1.1 (storage shape) = normalized flag r c /\
    store out2.1 (storage shape) = [r; c] /\
    (out2.2 = Ok tt ->
     exists lhs rhs out rest,
       trace out2.1 = trace out1.1 ++
         Validate (Sparse lhs) flag (Dense rhs) (is_transposed rhs_t) (Dense out)
                  true :: rest /\
       rows lhs = r /\ cols lhs = c).
Proof.
  intros out1 out2 Hneq Hst Hne1 Hne2.
  destruct (dsd_normalizes V Mm Mx shape data offsets indices transpose_a rhs_t
              out_t w r c Hst Hne1) as (flag & Hflag & Hs1).
  fold out1 in Hs1.
  assert (Hfl1 : read_flag transpose_a out1.1 = (out1.1, Ok flag)).
  { eapply read_flag_ext; [|exact Hflag].
    apply (dsd_writes V Mm Mx). exact Hneq. }
  assert (Hs1' : store out1.1 (storage shape)
                 = [if flag then c else r; if flag then r else c])
    by (rewrite Hs1; destruct flag; reflexivity).
  destruct (dsd_normalizes V Mm Mx shape data offsets indices transpose_a rhs_t
              out_t out1.1 _ _ Hs1' Hne2) as (flag2 & Hflag2 & Hs2).
  fold out2 in Hs2.
  rewrite (read_flag_functional _ _ _ _ Hflag2 Hfl1) in Hs2.
  assert (Hback : store out2.1 (storage shape) = [r; c])
    by (rewrite Hs2; destruct flag; reflexivity).
  exists flag. split; [exact Hflag|]. split; [exact Hs1|]. split; [exact Hback|].
  intros Hok. pose proof (completed_run out2 Hok) as Hrun2. unfold out2 in Hrun2 at 1.
  destruct (dsd_record V Mm Mx _ _ _ _ _ _ _ _ _ Hrun2)
    as (f3 & lhs & rhs & out & meta & Hf3 & Hlhs & _ & _ & _ & _ & Htr).
  rewrite <- (read_flag_functional _ _ _ _ Hfl1 Hf3) in Htr.
  destruct (as_block_matrix_ok_inv _ _ _ _ _ _ Hlhs) as (_ & _ & Hl).
  exists lhs, rhs, out. eexists. split; [exact Htr|].
  rewrite Hl. simpl. unfold shape_rows, shape_cols. rewrite Hback.
  split; reflexivity.
Qed.

Lemma dsd_twice_restores_shape_witness :
  let out1 := dsd always always always
                  Inputs.shape Inputs.data Inputs.offsets Inputs.indices
                  Inputs.flag_set Inputs.dense_128_128 Inputs.dense_256_128
                  Inputs.w0 in
  let out2 := dsd always always always
                  Inputs.shape Inputs.data Inputs.offsets Inputs.indices
                  Inputs.flag_set Inputs.dense_128_128 Inputs.dense_256_128
                  out1.1 in
  exists flag,
    read_flag Inputs.flag_set Inputs.w0 = (Inputs.w0, Ok flag) /\
    store out1.1 (storage Inputs.shape) = normalized flag 128 256 /\
    store out2.1 (storage Inputs.shape) = [128; 256] /\
    (out2.2 = Ok tt ->
     exists lhs rhs out rest,
       trace out2.1 = trace out1.1 ++
         Validate (Sparse lhs) flag (Dense rhs)
                  (is_transposed Inputs.dense_128_128) (Dense out) true :: rest /\
       rows lhs = 128 /\ cols lhs = 256).
Proof.
  apply (dsd_twice_restores_shape always always always
           Inputs.shape Inputs.data Inputs.offsets Inputs.indices
           Inputs.flag_set Inputs.dense_128_128 Inputs.dense_256_128
           Inputs.w0 128 256).
  - vm_compute. discriminate.
  - reflexivity.
  - vm_compute. discriminate.
  - vm_compute. discriminate.
Defined.

(** ** The bitmasks of [dss] *)




(** ** A shape tensor shared between the operands of [ssd] *)

(** X14: the output descriptor of [ssd] is built after the shape of the left
    operand has been normalised, from the store as it then is.  When the
    output is given the same shape buffer as the left operand, which held
    (r, c), a completed call has therefore described the output with the
    normalised shape too: (c, r) when the flag is set. *)
Theorem ssd_output_shares_shape
        (V Mm Mx : Operand -> bool -> Operand -> bool -> Operand -> bool)
        (lhs_shape lhs_data lhs_offsets lhs_indices transpose_a rhs_t
         out_shape out_data out_offsets out_indices : Tensor)
        (w w' : World) (r c : Z) :
  ssd V Mm Mx lhs_shape lhs_data lhs_offsets lhs_indices transpose_a rhs_t
      out_shape out_data out_offsets out_indices w = (w', Ok tt) ->
  storage out_shape = storage lhs_shape ->
  store w (storage lhs_shape) = [r; c] ->
  exists flag lhs rhs out rest,
    read_flag transpose_a w = (w, Ok flag) /\
    trace w' = trace w ++
      Validate (Sparse lhs) flag (Dense rhs) (is_transposed rhs_t) (Sparse out)
               true :: rest /\
    rows lhs = (if flag then c else r) /\ cols lhs = (if flag then r else c) /\
    rows out = (if flag then c else r) /\ cols out = (if flag then r else c).
Proof.
  intros Hrun Halias Hst.
  destruct (ssd_record V Mm Mx _ _ _ _ _ _ _ _ _ _ _ _ Hrun)
    as (flag & lhs & rhs & out & meta & Hflag & Hlhs & _ & _ & Hout & _ & Htr).
  pose proof (ssd_normalizes V Mm Mx lhs_shape lhs_data lhs_offsets lhs_indices
                transpose_a rhs_t out_shape out_data out_offsets out_indices
                w r c) as Hnorm.
  cbv zeta in Hnorm. rewrite Hrun in Hnorm. simpl in Hnorm.
  destruct (Hnorm Hst) as (flag' & Hflag' & Hshape).
  { rewrite Htr. apply trace_grew. }
  rewrite (read_flag_functional _ _ _ _ Hflag' Hflag) in Hshape.
  destruct (as_block_matrix_ok_inv _ _ _ _ _ _ Hlhs) as (_ & _ & ->).
  destruct (as_block_matrix_ok_inv _ _ _ _ _ _ Hout) as (_ & _ & ->).
  do 5 eexists. split; [exact Hflag|]. split; [exact Htr|]. simpl.
  unfold shape_rows, shape_cols. rewrite Halias, Hshape.
  destruct flag; repeat split; reflexivity.
Qed.

Lemma ssd_output_shares_shape_witness :
  exists flag lhs rhs out rest,
    read_flag Inputs.flag_set Inputs.w0 = (Inputs.w0, Ok flag) /\
    trace (ssd always always always
               Inputs.shape Inputs.data Inputs.offsets Inputs.indices
               Inputs.flag_set Inputs.dense_128_128
               Inputs.shape Inputs.data Inputs.offsets Inputs.indices
               Inputs.w0).1 =
      trace Inputs.w0 ++
      Validate (Sparse lhs) flag (Dense rhs)
               (is_transposed Inputs.dense_128_128) (Sparse out) true :: rest /\
    rows lhs = (if flag then 256 else 128) /\
    cols lhs = (if flag then 128 else 256) /\
    rows out = (if flag then 256 else 128) /\
    cols out = (if flag then 128 else 256).
Proof.
  apply (ssd_output_shares_shape always always always
           Inputs.shape Inputs.data Inputs.offsets Inputs.indices
           Inputs.flag_set Inputs.dense_128_128
           Inputs.shape Inputs.data Inputs.offsets Inputs.indices
           Inputs.w0 _ 128 256).
  - apply completed_run. vm_compute. reflexivity.
  - reflexivity.
  - reflexivity.
Defined.

(** ** The orientation [dds] works on *)

(** X15: the descriptor [dds] hands to sputnik has the orientation of the
    normalised shape, and its transpose view that of the stored one.  When
    the caller's shape tensor holds (r, c), a completed call has validated
    a right descriptor with (rows, cols) = (r, c) if the flag is clear and
    (c, r) if it is set.  The view is needed when the flag is clear, so it
    is computed from the shape as stored: the limit of 128 * 128 rows
    applies to the row count [r], the column count [c] must reach a block,
    and the offsets of the view have c / 128 + 1 entries. *)
Theorem dds_descriptor_orientation
        (V Mm Mx : Operand -> bool -> Operand -> bool -> Operand -> bool)
        (lhs_t shape data offsets indices transpose_b out_t : Tensor)
        (w w' : World) (r c : Z) :
  dds V Mm Mx lhs_t shape data offsets indices transpose_b out_t w = (w', Ok tt) ->
  store w (storage shape) = [r; c] ->
  exists flag lhs rhs out rest,
    read_flag transpose_b w = (w, Ok flag) /\
    trace w' = trace w ++
      Validate (Dense lhs) (is_transposed lhs_t) (Sparse rhs) flag (Dense out) true ::
      rest /\
    rows rhs = (if flag then c else r) /\
    cols rhs = (if flag then r else c) /\
    block_size rhs = 128 /\
    nonzeros rhs = to_int (numel indices) /\
    (flag = false ->
     r <= 128 * 128 /\ 128 <= c /\
     exists meta k,
       rest = view_allocs meta ++ [k] /\
       Z.of_nat (length meta.1.2) = c / 128 + 1).
Proof.
  intros Hrun Hst.
  destruct (dds_record V Mm Mx _ _ _ _ _ _ _ _ _ Hrun)
    as (flag & lhs & rhs & out & meta & Hflag & _ & Hrhs & _ & _ & Hview & Htr).
  pose proof (dds_normalizes V Mm Mx lhs_t shape data offsets indices transpose_b
                out_t w r c) as Hnorm.
  cbv zeta in Hnorm. rewrite Hrun in Hnorm. simpl in Hnorm.
  destruct (Hnorm Hst) as (flag' & Hflag' & Hshape).
  { rewrite Htr. apply trace_grew. }
  rewrite (read_flag_functional _ _ _ _ Hflag' Hflag) in Hshape.
  destruct (as_block_matrix_ok_inv _ _ _ _ _ _ Hrhs) as (_ & _ & ->).
  assert (Hrows : shape_rows (store w') shape = (if flag then c else r)).
  { unfold shape_rows. rewrite Hshape. destruct flag; reflexivity. }
  assert (Hcols : shape_cols (store w') shape = (if flag then r else c)).
  { unfold shape_cols. rewrite Hshape. destruct flag; reflexivity. }
  do 5 eexists.
  split; [exact Hflag|]. split; [exact Htr|]. simpl.
  split; [exact Hrows|]. split; [exact Hcols|].
  split; [reflexivity|]. split; [reflexivity|].
  intros ->. simpl in Hview. destruct Hview as (m & -> & Hm).
  destruct (transpose_inv _ _ _ _ _ _ Hm) as (_ & _ & _ & Hr & HB & Hoff).
  rewrite Hrows in Hr. rewrite Hcols in HB, Hoff.
  destruct (quot_pos_cols c HB) as [Hc128 Hq].
  split; [exact Hr|]. split; [exact Hc128|].
  exists m. eexists. split; [reflexivity|].
  rewrite Hoff. unfold view_offsets. simpl length. unfold cumsum.
  rewrite !length_map, cumsum_from_length, length_map, length_seq, Hq.
  pose proof (Z.div_pos c 128 ltac:(lia) ltac:(lia)). lia.
Qed.

Lemma dds_descriptor_orientation_witness :
  exists flag lhs rhs out rest,
    read_flag Inputs.flag_clear Inputs.w0 = (Inputs.w0, Ok flag) /\
    trace (dds always always always
               Inputs.dense_128_128 Inputs.shape Inputs.data Inputs.offsets
               Inputs.indices Inputs.flag_clear Inputs.dense_128_128
               Inputs.w0).1 =
      trace Inputs.w0 ++
      Validate (Dense lhs) (is_transposed Inputs.dense_128_128) (Sparse rhs) flag
               (Dense out) true :: rest /\
    rows rhs = (if flag then 256 else 128) /\
    cols rhs = (if flag then 128 else 256) /\
    block_size rhs = 128 /\
    nonzeros rhs = to_int (numel Inputs.indices) /\
    (flag = false ->
     128 <= 128 * 128 /\ 128 <= 256 /\
     exists meta k,
       rest = view_allocs meta ++ [k] /\
       Z.of_nat (length meta.1.2) = 256 / 128 + 1).
Proof.
  apply (dds_descriptor_orientation always always always
           Inputs.dense_128_128 Inputs.shape Inputs.data Inputs.offsets
           Inputs.indices Inputs.flag_clear Inputs.dense_128_128
           Inputs.w0 _ 128 256).
  - apply completed_run. vm_compute. reflexivity.
  - reflexivity.
Defined.
